(** * Bodhi's masher: the push orchestrator and its push pipeline

    A shallow embedding of [bodhi/masher.py] (classes [Masher] and
    [MashTask]) and the properties of its specification, followed by
    further properties of the same code and of [new_comment] in
    [bodhi/services/comments.py].

    Conventions of the embedding.
    - A Python [set] is the list of its elements in iteration order, without
      duplicates; statements about loops over a set quantify over that list,
      so they hold for every iteration order.
    - A method of [MashTask] is a computation in the monad [M], which threads
      the state it mutates and can raise a Python exception.  A state change
      made before a [raise] persists, as in Python.
    - The outside world (the MASHING file, the build system session, the
      composition tool, the file system calls of the publishing stage, the
      mail and log sinks) is the record [World]: what the code reads from it
      is either a field or an oracle of the environment [Env]; what the code
      does to it is appended to a trace.
    - A thread object is referred to by its identifier; [thread.start()]
      records the thread as started, and its [run] is a step of its own
      (function [run]), which ends by calling [Masher.done].
    - [self.repos] is the set object the caller passed; the model keeps it
      as a value of the task.  The one object that the code itself shares
      between tasks, the default value of [repos], is followed by
      [MashTask_init_default].
    - [log.debug] calls and messages that format a whole object are left out
      of the log trace; error, warning and info messages are kept.

    The file has three parts: the embedding of the code; the functions and
    predicates the statements use, with a small example installation; the
    lemmas and theorems. *)

From stdpp Require Import base option list gmap strings pretty sorting.
From Stdlib Require Import ZArith Ascii String.

#[local] Set Warnings "-clear-no-such-hyp".

Local Open Scope string_scope.
Local Open Scope Z_scope.
Local Open Scope list_scope.

(** ** Data model ([bodhi.model], as far as the masher reads it) *)

Record Release := {
  name : string;          (* release.name, e.g. "F8" *)
  dist_tag : string;      (* release.dist_tag, e.g. "dist-f8" *)
  long_name : string
}.

Record Build := {
  nvr : string;           (* build.nvr *)
  inherited : bool        (* build.inherited *)
}.

Record PackageUpdate := {
  title : string;
  request : option string;  (* None once request_complete() has run *)
  status : string;
  release : Release;
  builds : list Build;
  build_tag : string        (* what update.get_build_tag() returns *)
}.

Definition get_build_tag (u : PackageUpdate) : string := build_tag u.

#[global] Instance Release_eq_dec : EqDecision Release.
Proof. solve_decision. Defined.
#[global] Instance Build_eq_dec : EqDecision Build.
Proof. solve_decision. Defined.
#[global] Instance PackageUpdate_eq_dec : EqDecision PackageUpdate.
Proof. solve_decision. Defined.

(** [update.request == r] *)
Definition request_is (u : PackageUpdate) (r : string) : bool :=
  bool_decide (request u = Some r).

(** [update.status == s] *)
Definition status_is (u : PackageUpdate) (s : string) : bool :=
  bool_decide (status u = s).

(** [x in l] on a Python list of strings *)
Definition str_in (x : string) (l : list string) : bool :=
  bool_decide (x ∈ l).

(** [s.add(x)] on a set kept as the list of its elements *)
Definition set_add `{EqDecision A} (x : A) (s : list A) : list A :=
  if decide (x ∈ s) then s else s ++ [x].

(** [str.lower()] *)
Definition lower_ascii (c : ascii) : ascii :=
  let n := nat_of_ascii c in
  if (Nat.leb 65 n && Nat.leb n 90)%bool then ascii_of_nat (n + 32) else c.

Fixpoint lower (s : string) : string :=
  match s with
  | EmptyString => EmptyString
  | String c r => String (lower_ascii c) (lower r)
  end.

(** [os.path.join(a, b)] for a relative second component *)
Definition join (a b : string) : string := a +:+ "/" +:+ b.

(** ** Exceptions and the state-and-exception monad *)

Inductive Exn :=
| MashTaskException (msg : string)
| SQLObjectNotFound
| KeyError (key : string)
| IndexError
| ValueError
| TypeError
| Exception (msg : string).   (* any other exception of an external call *)

Definition str_exn (e : Exn) : string :=
  match e with
  | MashTaskException msg => msg
  | SQLObjectNotFound => "SQLObjectNotFound"
  | KeyError k => k
  | IndexError => "list index out of range"
  | ValueError => "list.remove(x): x not in list"
  | TypeError => "can only concatenate list (not 'str') to list"
  | Exception msg => msg
  end.

(** The result of running a statement: it completes with a value, raises,
    or never returns ([wait_for_sync] polls without a deadline). *)
Inductive outcome (A : Type) :=
| Ok (a : A)
| Raise (e : Exn)
| Hang.
Arguments Ok {A} a.
Arguments Raise {A} e.
Arguments Hang {A}.

Definition M (S A : Type) : Type := S -> outcome A * S.

Definition ret {S A} (a : A) : M S A := fun s => (Ok a, s).

Definition bind {S A B} (c : M S A) (k : A -> M S B) : M S B :=
  fun s =>
    match c s with
    | (Ok a, s') => k a s'
    | (Raise e, s') => (Raise e, s')
    | (Hang, s') => (Hang, s')
    end.

Definition raise {S A} (e : Exn) : M S A := fun s => (Raise e, s).
Definition hang {S A} : M S A := fun s => (Hang, s).
Definition get {S} : M S S := fun s => (Ok s, s).
Definition modify {S} (f : S -> S) : M S unit := fun s => (Ok tt, f s).

(** [try: c except Exception, e: h e] *)
Definition try_except {S A} (c : M S A) (h : Exn -> M S A) : M S A :=
  fun s =>
    match c s with
    | (Raise e, s') => h e s'
    | r => r
    end.

#[global] Instance M_ret {S} : MRet (M S) := fun A => @ret S A.
#[global] Instance M_bind {S} : MBind (M S) := fun A B k c => bind c k.

(** [for x in xs: body x] *)
Fixpoint for_each {S A} (xs : list A) (body : A -> M S unit) : M S unit :=
  match xs with
  | [] => ret tt
  | x :: rest => body x;; for_each rest body
  end.

(** [if b: c] *)
Definition when {S} (b : bool) (c : M S unit) : M S unit :=
  if b then c else ret tt.

(** ** The push pipeline's record ([MashTask]'s attributes)

    [self.koji] is the session whose calls are traced in the world below;
    [self.cmd] is only read by the composition command line; the
    dictionary [self.testing_digest] is modelled on its own further down,
    with the two methods that use it. *)

(** An entry of [self.actions]: (build nvr, current tag, new tag).  The new
    tag is [self.tag], which is [None] until an update sets it. *)
Definition Action : Type := string * string * option string.

Module MashTask.
Record t := mk {
    id : nat;
    tag : option string;
    updates : list PackageUpdate;
    repos : list string;
    success : bool;
    actions : list Action;
    mashing : bool;
    moving : bool;
    log : option string;
    mashed_repos : gmap string string;
    errors : list string;
    safe : bool;
    genmd : bool;
    resume : bool
  }.

Definition set_tag (v : option string) (s : t) : t :=
    mk (id s) v (updates s) (repos s) (success s) (actions s) (mashing s)
       (moving s) (log s) (mashed_repos s) (errors s) (safe s) (genmd s) (resume s).
Definition set_updates (v : list PackageUpdate) (s : t) : t :=
    mk (id s) (tag s) v (repos s) (success s) (actions s) (mashing s)
       (moving s) (log s) (mashed_repos s) (errors s) (safe s) (genmd s) (resume s).
Definition set_repos (v : list string) (s : t) : t :=
    mk (id s) (tag s) (updates s) v (success s) (actions s) (mashing s)
       (moving s) (log s) (mashed_repos s) (errors s) (safe s) (genmd s) (resume s).
Definition set_success (v : bool) (s : t) : t :=
    mk (id s) (tag s) (updates s) (repos s) v (actions s) (mashing s)
       (moving s) (log s) (mashed_repos s) (errors s) (safe s) (genmd s) (resume s).
Definition set_actions (v : list Action) (s : t) : t :=
    mk (id s) (tag s) (updates s) (repos s) (success s) v (mashing s)
       (moving s) (log s) (mashed_repos s) (errors s) (safe s) (genmd s) (resume s).
Definition set_mashing (v : bool) (s : t) : t :=
    mk (id s) (tag s) (updates s) (repos s) (success s) (actions s) v
       (moving s) (log s) (mashed_repos s) (errors s) (safe s) (genmd s) (resume s).
Definition set_moving (v : bool) (s : t) : t :=
    mk (id s) (tag s) (updates s) (repos s) (success s) (actions s) (mashing s)
       v (log s) (mashed_repos s) (errors s) (safe s) (genmd s) (resume s).
Definition set_log (v : option string) (s : t) : t :=
    mk (id s) (tag s) (updates s) (repos s) (success s) (actions s) (mashing s)
       (moving s) v (mashed_repos s) (errors s) (safe s) (genmd s) (resume s).
Definition set_mashed_repos (v : gmap string string) (s : t) : t :=
    mk (id s) (tag s) (updates s) (repos s) (success s) (actions s) (mashing s)
       (moving s) (log s) v (errors s) (safe s) (genmd s) (resume s).
Definition set_errors (v : list string) (s : t) : t :=
    mk (id s) (tag s) (updates s) (repos s) (success s) (actions s) (mashing s)
       (moving s) (log s) (mashed_repos s) v (safe s) (genmd s) (resume s).
Definition set_safe (v : bool) (s : t) : t :=
    mk (id s) (tag s) (updates s) (repos s) (success s) (actions s) (mashing s)
       (moving s) (log s) (mashed_repos s) (errors s) v (genmd s) (resume s).
Definition set_genmd (v : bool) (s : t) : t :=
    mk (id s) (tag s) (updates s) (repos s) (success s) (actions s) (mashing s)
       (moving s) (log s) (mashed_repos s) (errors s) (safe s) v (resume s).
End MashTask.

(** ** The orchestrator's record ([Masher]'s attributes) *)

(** An entry of [self._queue]: [(thread_id, updates, repos, resume)]. *)
Definition Request : Type := nat * list PackageUpdate * list string * bool.

(** [self._threads] holds thread objects; the model holds the identifier of
    each ([thread.id], distinct per object since [thread_id] only grows). *)
Module Masher.
Record t := mk {
  _queue : list Request;
  _threads : list nat;
  thread_id : nat;
  mashing : bool;
  last_log : option string
}.

Definition set_queue (v : list Request) (s : t) : t :=
  mk v (_threads s) (thread_id s) (mashing s) (last_log s).
Definition set_threads (v : list nat) (s : t) : t :=
  mk (_queue s) v (thread_id s) (mashing s) (last_log s).
Definition set_thread_id (v : nat) (s : t) : t :=
  mk (_queue s) (_threads s) v (mashing s) (last_log s).
Definition set_mashing (v : bool) (s : t) : t :=
  mk (_queue s) (_threads s) (thread_id s) v (last_log s).
Definition set_last_log (v : option string) (s : t) : t :=
  mk (_queue s) (_threads s) (thread_id s) (mashing s) v.
End Masher.

(** ** The outside world *)

(** A call queued on the build-system session ([self.koji], in multicall
    mode): [tagBuild(tag, nvr, force=True)] or
    [moveBuild(current_tag, tag, nvr, force=True)]. *)
Inductive KojiCall :=
| tagBuild (tag : option string) (nvr : string)
| moveBuild (current_tag : string) (tag : option string) (nvr : string).

(** A call that changes the file system. *)
Inductive FsOp :=
| Makedirs (path : string)
| WriteFile (path : string)
| Unlink (path : string)
| Move (src dst : string)
| Symlink (target link : string).

Inductive LogLevel := INFO | WARNING | ERROR.

Record World := mkWorld {
  mashed_dir_isdir : bool;          (* os.path.isdir(mashed_dir) *)
  mash_stage_isdir : bool;          (* os.path.isdir(mashed_stage_dir) *)
  MASHING : option (list string);   (* the lock file and the titles pickled in it *)
  koji_calls : list KojiCall;       (* tag mutations issued so far *)
  mash_cmds : list string;          (* composition commands run so far *)
  fs_ops : list FsOp;               (* file system changes made so far *)
  started : list MashTask.t;        (* thread.start() calls *)
  reports : list nat;               (* mail.send_releng calls, by task id *)
  logged : list (LogLevel * string)
}.

Definition set_mashed_dir_isdir (v : bool) (w : World) : World :=
  mkWorld v (mash_stage_isdir w) (MASHING w) (koji_calls w) (mash_cmds w)
          (fs_ops w) (started w) (reports w) (logged w).
Definition set_mash_stage_isdir (v : bool) (w : World) : World :=
  mkWorld (mashed_dir_isdir w) v (MASHING w) (koji_calls w) (mash_cmds w)
          (fs_ops w) (started w) (reports w) (logged w).
Definition set_MASHING (v : option (list string)) (w : World) : World :=
  mkWorld (mashed_dir_isdir w) (mash_stage_isdir w) v (koji_calls w) (mash_cmds w)
          (fs_ops w) (started w) (reports w) (logged w).
Definition add_koji_call (c : KojiCall) (w : World) : World :=
  mkWorld (mashed_dir_isdir w) (mash_stage_isdir w) (MASHING w) (koji_calls w ++ [c])
          (mash_cmds w) (fs_ops w) (started w) (reports w) (logged w).
Definition add_mash_cmd (c : string) (w : World) : World :=
  mkWorld (mashed_dir_isdir w) (mash_stage_isdir w) (MASHING w) (koji_calls w)
          (mash_cmds w ++ [c]) (fs_ops w) (started w) (reports w) (logged w).
Definition add_fs_op (o : FsOp) (w : World) : World :=
  mkWorld (mashed_dir_isdir w) (mash_stage_isdir w) (MASHING w) (koji_calls w)
          (mash_cmds w) (fs_ops w ++ [o]) (started w) (reports w) (logged w).
Definition add_started (th : MashTask.t) (w : World) : World :=
  mkWorld (mashed_dir_isdir w) (mash_stage_isdir w) (MASHING w) (koji_calls w)
          (mash_cmds w) (fs_ops w) (started w ++ [th]) (reports w) (logged w).
Definition add_report (i : nat) (w : World) : World :=
  mkWorld (mashed_dir_isdir w) (mash_stage_isdir w) (MASHING w) (koji_calls w)
          (mash_cmds w) (fs_ops w) (started w) (reports w ++ [i]) (logged w).
Definition add_log (l : LogLevel) (msg : string) (w : World) : World :=
  mkWorld (mashed_dir_isdir w) (mash_stage_isdir w) (MASHING w) (koji_calls w)
          (mash_cmds w) (fs_ops w) (started w) (reports w) (logged w ++ [(l, msg)]).

(** What the code reads from its surroundings: the configuration, the
    update database, the build system's answers, the clock, and the results
    of the external stages.  File system reads depend on the changes made so
    far, so they take the trace of those changes. *)
Record Env := {
  mashed_dir : string;                 (* config.get('mashed_dir') *)
  mashed_stage_dir : string;           (* config.get('mashed_stage_dir') *)
  comps_dir : string;                  (* config.get('comps_dir') *)
  mash_conf : string;                  (* config.get('mash_conf') *)
  arches : list string;                (* config.get('arches').split() *)
  byTitle : string -> option PackageUpdate;   (* PackageUpdate.byTitle; None: SQLObjectNotFound *)
  listTagged : string -> list string;  (* nvrs of koji.listTagged(tag) *)
  wait_for_tasks : list KojiCall -> Z; (* koji.multiCall() then buildsys.wait_for_tasks *)
  strftime : string;                   (* time.strftime("%y%m%d.%H%M") *)
  mash_returncode : string -> Z;       (* p.returncode of the mash command *)
  os_listdir : list FsOp -> string -> list string;
  os_islink : list FsOp -> string -> bool;
  sanity_check_repodata : list FsOp -> string -> option Exn;
  update_comps_raises : option Exn;
  request_complete_raises : option Exn;    (* the post-request loop *)
  generate_updateinfo_raises : option Exn;
  cache_repodata_raises : option Exn;
  wait_for_sync_result : outcome unit;
  notices_raise : option Exn;              (* bugs, comments, notices, digest *)
  (* the class is declared in bodhi.exceptions: whether MashTaskException
     derives from Exception, so that [except Exception, e] catches it *)
  MashTaskException_is_Exception : bool
}.

(** The state a method of [MashTask] works on. *)
Definition TaskState : Type := MashTask.t * World.

Definition self_update (f : MashTask.t -> MashTask.t) : M TaskState unit :=
  modify (fun s => (f s.1, s.2)).
Definition world_update (f : World -> World) : M TaskState unit :=
  modify (fun s => (s.1, f s.2)).
Definition get_self : M TaskState MashTask.t := fun s => (Ok s.1, s).
Definition get_world : M TaskState World := fun s => (Ok s.2, s).

(** An external call that either returns or raises. *)
Definition external {S} (r : option Exn) : M S unit :=
  match r with
  | Some e => raise e
  | None => ret tt
  end.

(** ** [MashTask]: construction, locking, the target repositories *)

Section Pipeline.
Variable env : Env.

Definition mash_lock : string := join (mashed_dir env) "MASHING".

(** The body of the loop of [_lock] over the titles of the previous push. *)
Definition resume_title (up : string) : M TaskState unit :=
  match byTitle env up with
  | Some u =>
      self_update (fun s => MashTask.set_updates (set_add u (MashTask.updates s)) s)
  | None => world_update (add_log WARNING ("Cannot find " +:+ up))
  end.

(** [MashTask._lock]: write out what updates we are pushing to the MASHING
    lock, or pick up the ones of the previous push. *)
Definition _lock : M TaskState unit :=
  w ← get_world;
  when (negb (mashed_dir_isdir w))
    (world_update (add_log INFO ("Creating mashed_dir " +:+ mashed_dir env));;
     world_update (add_fs_op (Makedirs (mashed_dir env)));;
     world_update (set_mashed_dir_isdir true));;
  w ← get_world;
  when (negb (mash_stage_isdir w))
    (world_update (add_log INFO ("Creating mashed_stage_dir " +:+ mashed_stage_dir env));;
     world_update (add_fs_op (Makedirs (mashed_stage_dir env)));;
     world_update (set_mash_stage_isdir true));;
  w ← get_world;
  self ← get_self;
  match MASHING w with
  | Some ups =>
      if MashTask.resume self then for_each ups resume_title
      else
        world_update (add_log ERROR
          ("Previous mash not complete!  Either resume the last push, or remove "
           +:+ mash_lock));;
        raise (MashTaskException "")
  | None =>
      world_update (add_fs_op (WriteFile mash_lock));;
      world_update (set_MASHING (Some (map title (MashTask.updates self))))
  end.

(** [MashTask._unlock] *)
Definition _unlock : M TaskState unit :=
  w ← get_world;
  match MASHING w with
  | Some _ =>
      world_update (add_fs_op (Unlink mash_lock));;
      world_update (set_MASHING None)
  | None => world_update (add_log ERROR ("Cannot find MashTask lock at " +:+ mash_lock))
  end.

(** [MashTask.error_log] *)
Definition error_log (msg : string) : M TaskState unit :=
  world_update (add_log ERROR msg);;
  self_update (fun s => MashTask.set_errors (MashTask.errors s ++ [msg]) s);;
  self_update (MashTask.set_safe false);;
  self_update (MashTask.set_success false).

Definition repos_add (r : string) : M TaskState unit :=
  self_update (fun s => MashTask.set_repos (set_add r (MashTask.repos s)) s).

(** The body of the loop of [_find_repos]. *)
Definition find_repos_of (resume : bool) (update : PackageUpdate) : M TaskState unit :=
  let release := lower (name (release update)) in
  if resume then
    repos_add (release +:+ "-updates");;
    repos_add (release +:+ "-updates-testing")
  else if request_is update "stable" then
    repos_add (release +:+ "-updates");;
    when (status_is update "testing") (repos_add (release +:+ "-updates-testing"))
  else if request_is update "testing" then
    repos_add (release +:+ "-updates-testing")
  else if request_is update "obsolete" then
    if status_is update "testing" then repos_add (release +:+ "-updates-testing")
    else if status_is update "stable" then repos_add (release +:+ "-updates")
    else ret tt
  else ret tt.

(** [MashTask._find_repos] *)
Definition _find_repos : M TaskState unit :=
  self ← get_self;
  for_each (MashTask.updates self) (find_repos_of (MashTask.resume self)).

(** [MashTask.__init__]: the attributes as the constructor sets them, then
    [_lock] and [_find_repos].  An exception of either leaves no object. *)
Definition new_task (id : nat) (updates : list PackageUpdate)
    (repos : list string) (resume : bool) : MashTask.t :=
  {| MashTask.id := id;
     MashTask.tag := None;
     MashTask.updates := foldl (fun s u => set_add u s) [] updates;
     MashTask.repos := repos;
     MashTask.success := false;
     MashTask.actions := [];
     MashTask.mashing := false;
     MashTask.moving := false;
     MashTask.log := None;
     MashTask.mashed_repos := ∅;
     MashTask.errors := [];
     MashTask.safe := true;
     MashTask.genmd := false;
     MashTask.resume := resume |}.

Definition init_calls : M TaskState unit :=
  _lock;;
  _find_repos.

Definition MashTask_init (id : nat) (updates : list PackageUpdate)
    (repos : list string) (resume : bool) (w : World) : outcome MashTask.t * World :=
  match init_calls (new_task id updates repos resume, w) with
  | (Ok _, (self, w')) => (Ok self, w')
  | (Raise e, (_, w')) => (Raise e, w')
  | (Hang, (_, w')) => (Hang, w')
  end.

(** ** [MashTask.safe_to_move] *)

(** [d[k]] on a dictionary: a missing key raises [KeyError]. *)
Definition getitem {S} (d : gmap string (list string)) (k : string) : M S (list string) :=
  match d !! k with
  | Some v => ret v
  | None => raise (KeyError k)
  end.

(** The dictionaries [pending_nvrs], [testing_nvrs] and [stable_nvrs]. *)
Record NvrTables := {
  pending_nvrs : gmap string (list string);
  testing_nvrs : gmap string (list string);
  stable_nvrs : gmap string (list string)
}.

(** The body of the first loop: per release name, the builds tagged as
    candidate, testing and stable; a release name already seen is not
    queried again. *)
Definition populate_release (tb : NvrTables) (update : PackageUpdate) : NvrTables :=
  let r := release update in
  match pending_nvrs tb !! name r with
  | Some _ => tb
  | None =>
      {| pending_nvrs :=
           <[name r := listTagged env (dist_tag r +:+ "-updates-candidate")]> (pending_nvrs tb);
         testing_nvrs :=
           <[name r := listTagged env (dist_tag r +:+ "-updates-testing")]> (testing_nvrs tb);
         stable_nvrs :=
           <[name r := listTagged env (dist_tag r +:+ "-updates")]> (stable_nvrs tb) |}
  end.

Definition populate_nvrs (us : list PackageUpdate) : NvrTables :=
  foldl populate_release
    {| pending_nvrs := ∅; testing_nvrs := ∅; stable_nvrs := ∅ |} us.

(** [str(update.request)] *)
Definition str_request (u : PackageUpdate) : string :=
  match request u with
  | Some r => r
  | None => "None"
  end.

(** [if build.nvr not in table[update.release.name]: self.error_log(msg)] *)
Definition require_tagged (table : gmap string (list string)) (update : PackageUpdate)
    (build : Build) (what : string) : M TaskState unit :=
  l ← getitem table (name (release update));
  when (negb (str_in (nvr build) l))
    (error_log (nvr build +:+ " not tagged as " +:+ what)).

(** The body of the inner loop of [safe_to_move]. *)
Definition check_build (tb : NvrTables) (update : PackageUpdate) (build : Build)
    : M TaskState unit :=
  if request_is update "testing" then
    require_tagged (pending_nvrs tb) update build "candidate"
  else if request_is update "stable" then
    if status_is update "testing" then
      require_tagged (testing_nvrs tb) update build "testing"
    else if status_is update "pending" then
      require_tagged (pending_nvrs tb) update build "candidate"
    else ret tt
  else if request_is update "unpush" then
    if status_is update "testing" then
      require_tagged (testing_nvrs tb) update build "testing"
    else if status_is update "stable" then
      require_tagged (stable_nvrs tb) update build "stable"
    else ret tt
  else if request_is update "obsolete" then
    if status_is update "testing" then
      require_tagged (testing_nvrs tb) update build "testing"
    else if status_is update "stable" then
      require_tagged (stable_nvrs tb) update build "stable"
    else ret tt
  else
    error_log ("Unknown request '" +:+ str_request update +:+ "' for " +:+ title update).

Definition safe_to_move : M TaskState bool :=
  self ← get_self;
  let tb := populate_nvrs (MashTask.updates self) in
  for_each (MashTask.updates self) (fun update =>
    for_each (builds update) (fun build => check_build tb update build));;
  self ← get_self;
  ret (MashTask.safe self).

(** ** [MashTask.move_builds] *)

(** The first statements of the loop body: the destination tag is set for
    the requests [stable], [testing] and [obsolete], and left as it is for
    any other request. *)
Definition set_destination_tag (update : PackageUpdate) : M TaskState unit :=
  if request_is update "stable" then
    self_update (MashTask.set_tag (Some (dist_tag (release update) +:+ "-updates")))
  else if request_is update "testing" then
    self_update (MashTask.set_tag (Some (dist_tag (release update) +:+ "-updates-testing")))
  else if request_is update "obsolete" then
    self_update (MashTask.set_tag (Some (dist_tag (release update) +:+ "-updates-candidate")))
  else ret tt.

Definition move_build (current_tag : string) (build : Build) : M TaskState unit :=
  self ← get_self;
  (if inherited build then
     world_update (add_koji_call (tagBuild (MashTask.tag self) (nvr build)))
   else
     world_update (add_koji_call (moveBuild current_tag (MashTask.tag self) (nvr build))));;
  self_update (fun s =>
    MashTask.set_actions (MashTask.actions s ++ [(nvr build, current_tag, MashTask.tag s)]) s).

Definition move_update (update : PackageUpdate) : M TaskState unit :=
  set_destination_tag update;;
  let current_tag := get_build_tag update in
  for_each (builds update) (move_build current_tag).

Definition move_builds : M TaskState unit :=
  self_update (MashTask.set_success false);;
  self_update (MashTask.set_moving true);;
  w0 ← get_world;
  self ← get_self;
  for_each (MashTask.updates self) move_update;;
  w ← get_world;
  let results := drop (List.length (koji_calls w0)) (koji_calls w) in
  when (wait_for_tasks env results =? 0) (self_update (MashTask.set_success true));;
  self_update (MashTask.set_moving false);;
  self ← get_self;
  if negb (MashTask.success self) then raise (MashTaskException "Failed to move builds")
  else ret tt.

(** ** [MashTask.mash] *)

Definition nl : string := String (ascii_of_nat 10) EmptyString.

(** [repo.split('-')[0]] *)
Fixpoint before_dash (s : string) : string :=
  match s with
  | EmptyString => EmptyString
  | String c r => if Ascii.eqb c "-"%char then EmptyString else String c (before_dash r)
  end.

(** [s.endswith(suffix)] *)
Definition endswith (s suffix : string) : bool :=
  let n := String.length s in
  let k := String.length suffix in
  (Nat.leb k n && String.eqb (substring (n - k) k s) suffix)%bool.

(** [self.cmd % (mashdir, comps) + repo] *)
Definition mash_command (mashdir comps repo : string) : string :=
  "mash -o " +:+ mashdir +:+ " -c " +:+ mash_conf env +:+ " -f " +:+ comps +:+ " " +:+ repo.

Definition mash_repo (repo : string) : M TaskState unit :=
  let mashdir := join (mashed_dir env) (repo +:+ "-" +:+ strftime env) in
  self_update (fun s =>
    MashTask.set_mashed_repos (<[repo := mashdir]> (MashTask.mashed_repos s)) s);;
  let comps := join (comps_dir env) ("comps-" +:+ before_dash repo +:+ ".xml") in
  let mashcmd := mash_command mashdir comps repo in
  world_update (add_log INFO ("Running `" +:+ mashcmd +:+ "`"));;
  world_update (add_mash_cmd mashcmd);;
  if negb (mash_returncode env mashcmd =? 0) then
    self_update (MashTask.set_success false);;
    let failed_output := join (mashed_dir env) ("mash-failed-" +:+ strftime env) in
    world_update (add_fs_op (WriteFile failed_output));;
    world_update (add_log INFO ("Wrote failed mash output to " +:+ failed_output));;
    self_update (MashTask.set_log (Some failed_output));;
    raise (MashTaskException "Mash failed")
  else
    self_update (MashTask.set_success true);;
    let mash_output := mashdir +:+ "/mash.out" in
    world_update (add_fs_op (WriteFile mash_output));;
    world_update (add_log INFO ("Wrote mash output to " +:+ mash_output));;
    self_update (MashTask.set_log (Some mash_output)).

Definition mash : M TaskState unit :=
  self_update (MashTask.set_mashing true);;
  external (update_comps_raises env);;
  self ← get_self;
  for_each (MashTask.repos self) mash_repo;;
  self_update (MashTask.set_mashing false).

(** ** [MashTask.update_symlinks] *)

(** A loop whose body can execute the function's [return]: the body answers
    [true] when it did, and the loop stops there. *)
Fixpoint for_each_until {S A} (xs : list A) (body : A -> M S bool) : M S bool :=
  match xs with
  | [] => ret false
  | x :: rest =>
      returned ← body x;
      if (returned : bool) then ret true else for_each_until rest body
  end.

(** [a_list + a_string]: Python raises [TypeError]. *)
Definition list_plus_str {S} (l : list string) (s : string) : M S (list string) :=
  raise TypeError.

(** [a_list[0]] *)
Definition first_item {S} (l : list string) : M S string :=
  match l with
  | x :: _ => ret x
  | [] => raise IndexError
  end.

(** The loop over the configured arches: [true] when it returned from
    [update_symlinks]. *)
Definition check_arches (newrepo : string) (listed : list string) : M TaskState bool :=
  for_each_until (arches env) (fun arch =>
    known ← list_plus_str listed (arch +:+ ".newkey");
    if negb (str_in arch known) then
      error_log ("Cannot find arch " +:+ arch +:+ " in " +:+ newrepo);;
      ret true
    else
      w ← get_world;
      match sanity_check_repodata env (fs_ops w) (join (join newrepo arch) "repodata") with
      | Some e =>
          error_log ("Repodata sanity check failed!" +:+ nl +:+ str_exn e);;
          ret true
      | None => ret false
      end).

(** The loop over the packages of the first arch: it looks at the first
    name ending in [.rpm] and then breaks. *)
Fixpoint check_symlinked (dir : string) (pkgs : list string) : M TaskState bool :=
  match pkgs with
  | [] => ret false
  | pkg :: rest =>
      if endswith pkg ".rpm" then
        w ← get_world;
        if os_islink env (fs_ops w) (join dir pkg) then
          error_log "Mashed repository full of symlinks!";;
          ret true
        else ret false
      else check_symlinked dir rest
  end.

(** The body of the loop over [self.mashed_repos.items()]. *)
Definition stage_repo (item : string * string) : M TaskState bool :=
  let '(repo, mashdir) := item in
  let link := join (mashed_dir env) repo in
  let newrepo := join mashdir repo in
  w ← get_world;
  let listed := os_listdir env (fs_ops w) newrepo in
  for_each listed (fun arch =>
    world_update (add_fs_op (Move (join newrepo arch) (join newrepo (arch +:+ ".newkey")))));;
  w ← get_world;
  let listed := os_listdir env (fs_ops w) newrepo in
  returned ← check_arches newrepo listed;
  if (returned : bool) then ret true else
  arch0 ← first_item listed;
  w ← get_world;
  returned ← check_symlinked (join newrepo arch0)
               (os_listdir env (fs_ops w) (join newrepo arch0));
  if (returned : bool) then ret true else
  let stage_dir := mashed_stage_dir env in
  when (negb (String.eqb (mashed_dir env) (mashed_dir env)))
    (world_update (add_fs_op (Move mashdir (mashed_stage_dir env))));;
  w ← get_world;
  when (os_islink env (fs_ops w) link) (world_update (add_fs_op (Unlink link)));;
  world_update (add_fs_op (Symlink newrepo link));;
  ret false.

Definition update_symlinks : M TaskState unit :=
  self ← get_self;
  for_each_until (map_to_list (MashTask.mashed_repos self)) stage_repo;;
  ret tt.

(** ** The stages whose work is done by other modules *)

Definition complete_requests : M TaskState unit :=
  external (request_complete_raises env).

Definition generate_updateinfo : M TaskState unit :=
  self_update (MashTask.set_genmd true);;
  external (generate_updateinfo_raises env);;
  self_update (MashTask.set_genmd false).

Definition cache_repodata : M TaskState unit :=
  external (cache_repodata_raises env).

(** [wait_for_sync] returns at once without updates; otherwise it polls the
    master mirror until the checksums match, which may never happen. *)
Definition wait_for_sync : M TaskState unit :=
  self ← get_self;
  if bool_decide (MashTask.updates self = []) then ret tt
  else fun s => (wait_for_sync_result env, s).

Definition send_notices : M TaskState unit :=
  external (notices_raise env).

(** ** [Masher]: queueing and dispatching *)

Definition MasherState : Type := Masher.t * World.

Definition masher_update (f : Masher.t -> Masher.t) : M MasherState unit :=
  modify (fun s => (f s.1, s.2)).
Definition outside_update (f : World -> World) : M MasherState unit :=
  modify (fun s => (s.1, f s.2)).
Definition get_masher : M MasherState Masher.t := fun s => (Ok s.1, s).

(** [Masher.__init__] *)
Definition Masher_init : Masher.t :=
  {| Masher._queue := [];
     Masher._threads := [];
     Masher.thread_id := 0;
     Masher.mashing := false;
     Masher.last_log := None |}.

(** [Masher._mash]: dispatch a given MashTask.  An exception of the
    constructor leaves [_mash] before any thread exists. *)
Definition _mash (task : Request) : M MasherState unit :=
  fun s =>
    let '(id, updates, repos, resume) := task in
    match MashTask_init id updates repos resume s.2 with
    | (Ok thread, w) =>
        (masher_update (fun m =>
           Masher.set_threads (Masher._threads m ++ [MashTask.id thread]) m);;
         outside_update (add_started thread);;
         masher_update (Masher.set_mashing true)) (s.1, w)
    | (Raise e, w) => (Raise e, (s.1, w))
    | (Hang, w) => (Hang, (s.1, w))
    end.

(** [self._queue.pop()]: remove and return the last item. *)
Definition pop : M MasherState Request :=
  m ← get_masher;
  match reverse (Masher._queue m) with
  | [] => raise IndexError
  | item :: rest =>
      masher_update (Masher.set_queue (reverse rest));;
      ret item
  end.

(** The last three lines of [queue] and of [done]:
    [if len(self._threads) == 0: if len(self._queue): self._mash(self._queue.pop())] *)
Definition dispatch : M MasherState unit :=
  m ← get_masher;
  when (Nat.eqb (List.length (Masher._threads m)) 0)
    (when (negb (Nat.eqb (List.length (Masher._queue m)) 0))
       (task ← pop; _mash task)).

(** [Masher.queue] *)
Definition queue (updates : list PackageUpdate) (repos : list string) (resume : bool)
    : M MasherState unit :=
  masher_update (fun m =>
    Masher.set_queue (Masher._queue m ++ [(Masher.thread_id m, updates, repos, resume)]) m);;
  masher_update (fun m => Masher.set_thread_id (Masher.thread_id m + 1)%nat m);;
  dispatch.

(** [list.remove(x)]: drop the first occurrence. *)
Fixpoint remove_first (x : nat) (l : list nat) : list nat :=
  match l with
  | [] => []
  | y :: r => if Nat.eqb x y then r else y :: remove_first x r
  end.

(** [Masher.done]: called by each MashTask upon completion. *)
Definition done (thread : MashTask.t) : M MasherState unit :=
  outside_update (add_log INFO ("MashTask " +:+ pretty (MashTask.id thread) +:+ " done!"));;
  masher_update (Masher.set_mashing false);;
  masher_update (Masher.set_last_log (MashTask.log thread));;
  outside_update (add_report (MashTask.id thread));;
  m ← get_masher;
  (if bool_decide (MashTask.id thread ∈ Masher._threads m) then
     masher_update (Masher.set_threads (remove_first (MashTask.id thread) (Masher._threads m)))
   else raise ValueError);;
  dispatch.

(** ** [MashTask.run] *)

(** [run] works on its task, on the global [masher] and on the world. *)
Definition RunState : Type := MashTask.t * Masher.t * World.

Definition on_task {A} (c : M TaskState A) : M RunState A :=
  fun s =>
    let '(t, m, w) := s in
    match c (t, w) with
    | (o, (t', w')) => (o, (t', m, w'))
    end.

(** [masher.done(self)] *)
Definition masher_done : M RunState unit :=
  fun s =>
    let '(t, m, w) := s in
    match done t (m, w) with
    | (o, (m', w')) => (o, (t, m', w'))
    end.

(** The handlers of [run]'s try statement, tried in order:
    [except Exception, e] and then [except MashTaskException]. *)
Definition caught_as_Exception (e : Exn) : bool :=
  match e with
  | MashTaskException _ => MashTaskException_is_Exception env
  | _ => true
  end.

Definition handler (e : Exn) : M TaskState unit :=
  if caught_as_Exception e then
    self ← get_self;
    world_update (add_log ERROR
      ("Exception thrown in MashTask " +:+ pretty (MashTask.id self)));;
    error_log (str_exn e);;
    world_update (add_log ERROR (str_exn e))
  else
    self_update (MashTask.set_success false).

(** The try block of [run] past the consistency check: the stages in
    order.  It ends without executing a [return]. *)
Definition run_stages : M RunState bool :=
  self ← on_task get_self;
  when (negb (MashTask.resume self)
        && negb (Nat.eqb (List.length (MashTask.updates self)) 0))
    (on_task move_builds);;
  on_task mash;;
  on_task complete_requests;;
  on_task generate_updateinfo;;
  on_task update_symlinks;;
  on_task cache_repodata;;
  on_task wait_for_sync;;
  on_task send_notices;;
  ret false.

(** The try block of [run]; the answer is [true] when the [return] after a
    failed [safe_to_move] was executed. *)
Definition run_body : M RunState bool :=
  self ← on_task get_self;
  unsafe ← (if negb (MashTask.resume self)
            then safe ← on_task safe_to_move; ret (negb safe)
            else ret false);
  if (unsafe : bool) then
    on_task (world_update (add_log ERROR "safe_to_move failed! -- aborting"));;
    masher_done;;
    ret true
  else run_stages.

(** The try statement of [run], with its handlers. *)
Definition run_try : M RunState bool :=
  try_except run_body (fun e => on_task (handler e);; ret false).

(** [run] up to its last statement: [true] when it has returned already. *)
Definition run_unlock : M RunState bool :=
  on_task (self_update (MashTask.set_success true));;
  returned ← run_try;
  if (returned : bool) then ret true
  else
    self ← on_task get_self;
    when (MashTask.success self) (on_task _unlock);;
    ret false.

Definition run : M RunState unit :=
  returned ← run_unlock;
  if (returned : bool) then ret tt else masher_done.

(** ** The orchestrator under any sequence of calls *)

(** What happens to the orchestrator between two moments: a caller submits
    a request, a thread reports its completion, or the MASHING file changes
    (a pipeline removes its lock, an operator removes or restores it). *)
Inductive Call :=
| call_queue (updates : list PackageUpdate) (repos : list string) (resume : bool)
| call_done (thread : MashTask.t)
| lock_changes (marker : option (list string)).

Definition call (c : Call) : M MasherState unit :=
  match c with
  | call_queue updates repos resume => queue updates repos resume
  | call_done thread => done thread
  | lock_changes marker => outside_update (set_MASHING marker)
  end.

(** The state after a sequence of calls; an exception of a call goes to its
    caller and the orchestrator keeps the state the call left. *)
Definition calls (cs : list Call) (s : MasherState) : MasherState :=
  foldl (fun s c => (call c s).2) s cs.

(** ** The rest of [Masher] *)

(** [Masher.mash_tags]: run mash on a list of tags. *)
Definition mash_tags (tags : list string) : M MasherState unit :=
  queue [] tags false.

End Pipeline.

(** ** The default value of [repos]

    [def queue(self, updates, repos=set(), resume=False)]: the default of
    [repos] is one set object, created when the method is defined.  A
    request submitted without [repos] carries that object; [_mash] hands it
    to the constructor, which stores it in [self.repos], and [_find_repos]
    adds to it in place.  The state below is the content of that object
    together with the world: constructing the task of such a request starts
    from the content and leaves the task's repositories in it.  When [_lock]
    raises, [_find_repos] has not run and the object is as it was. *)
Definition MashTask_init_default (env : Env) (id : nat) (updates : list PackageUpdate)
    (resume : bool) (s : list string * World) : outcome MashTask.t * (list string * World) :=
  match MashTask_init env id updates s.1 resume s.2 with
  | (Ok self, w') => (Ok self, (MashTask.repos self, w'))
  | (o, w') => (o, (s.1, w'))
  end.

(** The truth value of a name that is [None] or a string. *)
Definition truthy (s : option string) : bool :=
  match s with
  | Some (String _ _) => true
  | _ => false
  end.

(** The files that [lastlog] looks for and reads. *)
Record Files := {
  file_exists : string -> bool;     (* os.path.exists *)
  file_read : string -> string      (* file(name, 'r').read() *)
}.

(** [Masher.lastlog]: return the most recent mash (log_filename, log_data). *)
Definition lastlog (fs : Files) (self : Masher.t) : option string * string :=
  let log := "Previous mash log not available" in
  let log :=
    if truthy (Masher.last_log self)
       && file_exists fs (default "" (Masher.last_log self))
    then file_read fs (default "" (Masher.last_log self))
    else log in
  (Masher.last_log self, log).

(** ** The digest of the updates pushed to testing

    [self.testing_digest] maps the long name of a release to a dictionary
    from build nvr to the text about the build: a
    [gmap string (gmap string string)]. *)

(** A message handed to [mail.send_mail]. *)
Record Mail := {
  mail_from : string;
  mail_to : string;
  mail_subject : string;
  mail_body : string
}.

(** The order of [list.sort] on strings. *)
Definition str_le (a b : string) : Prop := String.leb a b = true.

#[global] Instance str_le_dec a b : Decision (str_le a b).
Proof. unfold str_le. apply _. Defined.

Section DigestMail.
(** [mail.get_template(update, use_template=mail.maillist_template)]: the
    (subject, body) pairs of the update. *)
Variable get_template : PackageUpdate -> list (string * string).
(** [str.title], [config.get('bodhi_email')] and
    [config.get('test_announce_list')]. *)
Variable str_title : string -> string.
Variable bodhi_email : string.
Variable test_announce_list : string.

(** [self.testing_digest[prefix][update.builds[i].nvr] = subbody[1]] *)
Definition digest_part (prefix : string) (update : PackageUpdate)
    (part : nat * (string * string)) : M (gmap string (gmap string string)) unit :=
  match builds update !! part.1 with
  | Some b =>
      d ← get;
      match d !! prefix with
      | Some content => modify (<[prefix := <[nvr b := part.2.2]> content]>)
      | None => raise (KeyError prefix)
      end
  | None => raise IndexError
  end.

(** [MashTask.add_to_digest] *)
Definition add_to_digest (update : PackageUpdate)
    : M (gmap string (gmap string string)) unit :=
  let prefix := long_name (release update) in
  d ← get;
  when (negb (bool_decide (is_Some (d !! prefix)))) (modify (<[prefix := ∅]>));;
  for_each (imap pair (get_template update)) (digest_part prefix update).

(** [updlist = content.keys(); updlist.sort()] *)
Definition sorted_keys (content : gmap string string) : list string :=
  merge_sort str_le (map fst (map_to_list content)).

(** The text of one digest mail. *)
Definition maildata (prefix : string) (content : gmap string string) : string :=
  let updlist := sorted_keys content in
  let head := "The following builds have been pushed to " +:+ prefix
              +:+ " updates-testing" +:+ nl +:+ nl in
  let short := foldl (fun text pkg => text +:+ "    " +:+ pkg +:+ nl) head updlist in
  let spaced := short +:+ nl +:+ "Details about builds:" +:+ nl +:+ nl in
  foldl (fun text nvr => text +:+ nl +:+ default "" (content !! nvr)) spaced updlist.

(** [MashTask.send_digest_mail]: the mails sent, in order. *)
Definition send_digest_mail (d : gmap string (gmap string string)) : list Mail :=
  map (fun item : string * gmap string string =>
         {| mail_from := bodhi_email;
            mail_to := test_announce_list;
            mail_subject := str_title item.1 +:+ " updates-testing report";
            mail_body := maildata item.1 item.2 |})
      (map_to_list d).

End DigestMail.

(** * The comment service ([bodhi/services/comments.py]) *)

Module Comments.

(** What [new_comment] reads of the request and what it does to it:
    [request.user] ([None] when nobody is logged in), [request.errors] and
    [request.errors.status]. *)
Record Request := {
  user : option string;                      (* request.user.name *)
  errors : list (string * string * string);  (* location, name, description *)
  status : option Z
}.

Definition add_error (e : string * string * string) (r : Request) : Request :=
  {| user := user r; errors := errors r ++ [e]; status := status r |}.

Definition set_status (code : Z) (r : Request) : Request :=
  {| user := user r; errors := errors r; status := Some code |}.

Definition HTTPBadRequest_code : Z := 400.

Section NewComment.
(** The comment type, and [update.comment(author=..., anonymous=..., **data)]
    for the update and the remaining data of the request: the comment, or
    [None] when the call raises. *)
Variable Comment : Type.
Variable update_comment : string -> bool -> option Comment.

(** [email or (request.user and request.user.name)] *)
Definition author_of (email : option string) (request : Request) : option string :=
  if truthy email then email else user request.

(** [new_comment]: add a new comment to an update. *)
Definition new_comment (email : option string) (request : Request)
    : option Comment * Request :=
  let author := author_of email request in
  let anonymous := truthy email || negb (truthy author) in
  if negb (truthy author) then
    (None, set_status HTTPBadRequest_code
             (add_error ("body", "email", "You must provide an author") request))
  else
    match update_comment (default "" author) anonymous with
    | Some com => (Some com, request)
    | None => (None, add_error ("body", "comment", "Unable to create comment") request)
    end.

End NewComment.
End Comments.

(** * Properties of the masher *)

(** ** What the loops compute

    Each loop of the pipeline is compared below with a function that gives
    its result directly. *)

Section Plans.
Variable env : Env.

(** One round of the loop of [_lock] over the titles of the previous push. *)
Definition resume_title_step (s : TaskState) (up : string) : TaskState :=
  match byTitle env up with
  | Some u => (MashTask.set_updates (set_add u (MashTask.updates s.1)) s.1, s.2)
  | None => (s.1, add_log WARNING ("Cannot find " +:+ up) s.2)
  end.

(** The directories [_lock] creates. *)
Definition lock_dirs (w : World) : list FsOp :=
  (if mashed_dir_isdir w then [] else [Makedirs (mashed_dir env)]) ++
  (if mash_stage_isdir w then [] else [Makedirs (mashed_stage_dir env)]).

(** The repositories one update asks for. *)
Definition repos_for (resume : bool) (update : PackageUpdate) : list string :=
  let release := lower (name (release update)) in
  if resume then [release +:+ "-updates"; release +:+ "-updates-testing"]
  else if request_is update "stable" then
    (release +:+ "-updates") ::
      (if status_is update "testing" then [release +:+ "-updates-testing"] else [])
  else if request_is update "testing" then [release +:+ "-updates-testing"]
  else if request_is update "obsolete" then
    if status_is update "testing" then [release +:+ "-updates-testing"]
    else if status_is update "stable" then [release +:+ "-updates"]
    else []
  else [].

Definition find_repos_step (resume : bool) (s : TaskState) (u : PackageUpdate) : TaskState :=
  (MashTask.set_repos
     (foldl (fun rs r => set_add r rs) (MashTask.repos s.1) (repos_for resume u)) s.1,
   s.2).

(** The state after [error_log msg], and after a list of them. *)
Definition error_log_step (s : TaskState) (msg : string) : TaskState :=
  (MashTask.set_success false
     (MashTask.set_safe false
        (MashTask.set_errors (MashTask.errors s.1 ++ [msg]) s.1)),
   add_log ERROR msg s.2).

Definition record_errors (msgs : list string) (s : TaskState) : TaskState :=
  foldl error_log_step s msgs.

(** The verdict of the tag-consistency check on one build: the error it
    logs, if any. *)
Definition tagged_in (table : gmap string (list string)) (u : PackageUpdate) : list string :=
  default [] (table !! name (release u)).

Definition not_tagged (l : list string) (b : Build) (what : string) : option string :=
  if str_in (nvr b) l then None else Some (nvr b +:+ " not tagged as " +:+ what).

Definition build_error (tb : NvrTables) (u : PackageUpdate) (b : Build) : option string :=
  if request_is u "testing" then
    not_tagged (tagged_in (pending_nvrs tb) u) b "candidate"
  else if request_is u "stable" then
    if status_is u "testing" then not_tagged (tagged_in (testing_nvrs tb) u) b "testing"
    else if status_is u "pending" then not_tagged (tagged_in (pending_nvrs tb) u) b "candidate"
    else None
  else if request_is u "unpush" then
    if status_is u "testing" then not_tagged (tagged_in (testing_nvrs tb) u) b "testing"
    else if status_is u "stable" then not_tagged (tagged_in (stable_nvrs tb) u) b "stable"
    else None
  else if request_is u "obsolete" then
    if status_is u "testing" then not_tagged (tagged_in (testing_nvrs tb) u) b "testing"
    else if status_is u "stable" then not_tagged (tagged_in (stable_nvrs tb) u) b "stable"
    else None
  else Some ("Unknown request '" +:+ str_request u +:+ "' for " +:+ title u).

(** The errors of all failing checks, over every build of every update. *)
Definition failed_checks (us : list PackageUpdate) : list string :=
  flat_map (fun u => omap (build_error (populate_nvrs env us) u) (builds u)) us.

End Plans.

(** Whether [move_builds] sets the destination tag for the update, and the
    tag in force once the update has had its turn. *)
Definition recomputes (u : PackageUpdate) : bool :=
  request_is u "stable" || request_is u "testing" || request_is u "obsolete".

Definition destination (u : PackageUpdate) (tg : option string) : option string :=
  if request_is u "stable" then Some (dist_tag (release u) +:+ "-updates")
  else if request_is u "testing" then Some (dist_tag (release u) +:+ "-updates-testing")
  else if request_is u "obsolete" then Some (dist_tag (release u) +:+ "-updates-candidate")
  else tg.

Definition tag_after (us : list PackageUpdate) (tg : option string) : option string :=
  foldl (fun tg u => destination u tg) tg us.

(** The tag mutation issued for a build, and the entry of [actions] that
    goes with it. *)
Definition planned_call (tg : option string) (current_tag : string) (b : Build) : KojiCall :=
  if inherited b then tagBuild tg (nvr b) else moveBuild current_tag tg (nvr b).

Definition planned_action (tg : option string) (current_tag : string) (b : Build) : Action :=
  (nvr b, current_tag, tg).

Definition plan_update (u : PackageUpdate) (tg : option string) : list (KojiCall * Action) :=
  map (fun b => (planned_call (destination u tg) (get_build_tag u) b,
                 planned_action (destination u tg) (get_build_tag u) b)) (builds u).

Fixpoint plan (us : list PackageUpdate) (tg : option string) : list (KojiCall * Action) :=
  match us with
  | [] => []
  | u :: rest => plan_update u tg ++ plan rest (destination u tg)
  end.

Definition add_koji_calls (cs : list KojiCall) (w : World) : World :=
  foldl (fun w c => add_koji_call c w) w cs.

Definition moved (tg : option string) (pl : list (KojiCall * Action)) (s : TaskState)
    : TaskState :=
  (MashTask.set_actions (MashTask.actions s.1 ++ map snd pl) (MashTask.set_tag tg s.1),
   add_koji_calls (map fst pl) s.2).

(** An entry of [actions] records a tag mutation: same build, same
    destination, and for a move the same source. *)
Definition records (a : Action) (c : KojiCall) : Prop :=
  match c with
  | tagBuild tg n => a.1.1 = n /\ a.2 = tg
  | moveBuild cur tg n => a = (n, cur, tg)
  end.

(** The destination tag that an earlier update of the batch left behind:
    the one set for the last of them whose request is [stable], [testing]
    or [obsolete]; [None] when there is no such update. *)
Fixpoint left_by_earlier (earlier : list PackageUpdate) : option string :=
  match earlier with
  | [] => None
  | u :: rest =>
      match left_by_earlier rest with
      | Some tg => Some tg
      | None => if recomputes u then destination u None else None
      end
  end.

(** The statement ran to its end. *)
Definition returns {A} (o : outcome A) : bool :=
  match o with
  | Ok _ => true
  | _ => false
  end.

(** ** A small installation, used by the examples *)

Definition f8 : Release :=
  {| name := "F8"; dist_tag := "dist-f8"; long_name := "Fedora 8" |}.

Definition foo_build : Build := {| nvr := "foo-1.0-1.fc8"; inherited := false |}.
Definition bar_build : Build := {| nvr := "bar-2.0-1.fc8"; inherited := true |}.
Definition baz_build : Build := {| nvr := "baz-3.0-1.fc8"; inherited := false |}.

(** A pending update on its way to testing, its build tagged as candidate. *)
Definition foo_update : PackageUpdate :=
  {| title := "foo-1.0-1.fc8"; request := Some "testing"; status := "pending";
     release := f8; builds := [foo_build]; build_tag := "dist-f8-updates-candidate" |}.

(** An update in testing that is to be unpushed. *)
Definition bar_update : PackageUpdate :=
  {| title := "bar-2.0-1.fc8"; request := Some "unpush"; status := "testing";
     release := f8; builds := [bar_build]; build_tag := "dist-f8-updates-testing" |}.

(** A pending update on its way to testing whose build is not tagged. *)
Definition baz_update : PackageUpdate :=
  {| title := "baz-3.0-1.fc8"; request := Some "testing"; status := "pending";
     release := f8; builds := [baz_build]; build_tag := "dist-f8-updates-candidate" |}.

Definition example_mashdir : string := "/mashed/f8-updates-testing-081104.1200".

Definition example_env : Env :=
  {| mashed_dir := "/mashed";
     mashed_stage_dir := "/stage";
     comps_dir := "/comps";
     mash_conf := "/etc/bodhi/mash.conf";
     arches := [];
     byTitle := fun up =>
       if String.eqb up "foo-1.0-1.fc8" then Some foo_update
       else if String.eqb up "bar-2.0-1.fc8" then Some bar_update
       else None;
     listTagged := fun tg =>
       if String.eqb tg "dist-f8-updates-candidate" then ["foo-1.0-1.fc8"]
       else if String.eqb tg "dist-f8-updates-testing" then ["bar-2.0-1.fc8"]
       else [];
     wait_for_tasks := fun _ => 0;
     strftime := "081104.1200";
     mash_returncode := fun _ => 0;
     os_listdir := fun ops dir =>
       if String.eqb dir (join example_mashdir "f8-updates-testing") then
         match ops with
         | [] => ["i386"]
         | _ => ["i386.newkey"]
         end
       else ["foo-1.0-1.fc8.i386.rpm"];
     os_islink := fun _ _ => false;
     sanity_check_repodata := fun _ _ => None;
     update_comps_raises := None;
     request_complete_raises := None;
     generate_updateinfo_raises := None;
     cache_repodata_raises := None;
     wait_for_sync_result := Ok tt;
     notices_raise := None;
     MashTaskException_is_Exception := true |}.

(** A world with both directories and no lock, and one with the lock of an
    unfinished push whose second title no longer resolves. *)
Definition idle_world : World :=
  {| mashed_dir_isdir := true; mash_stage_isdir := true; MASHING := None;
     koji_calls := []; mash_cmds := []; fs_ops := []; started := [];
     reports := []; logged := [] |}.

Definition locked_world : World :=
  set_MASHING (Some ["foo-1.0-1.fc8"; "gone-0.1-1.fc8"]) idle_world.

(** The identifiers of started threads and of queued requests. *)
Definition started_ids (w : World) : list nat := map MashTask.id (started w).
Definition request_ids (q : list Request) : list nat := map (fun r : Request => r.1.1.1) q.
Definition queued_ids (m : Masher.t) : list nat := request_ids (Masher._queue m).


(** The thread of the first submission below, as [done] receives it. *)
Definition first_thread : MashTask.t := new_task 0 [foo_update] ["f8-updates-testing"] false.

(** A task whose composed repository awaits publishing. *)
Definition composed_task : MashTask.t :=
  MashTask.set_mashed_repos {[ "f8-updates-testing" := example_mashdir ]}
    (MashTask.set_success true first_thread).

(** A batch with one consistent and one inconsistent update, not resuming. *)
Definition mixed_task : MashTask.t := new_task 0 [foo_update; baz_update] [] false.

(** A batch whose second update has the request [unpush]. *)
Definition unpush_task : MashTask.t := new_task 0 [foo_update; bar_update] [] false.

(** The orchestrator while thread 0 runs and request 1 waits. *)
Definition busy_masher : Masher.t :=
  {| Masher._queue := [(1%nat, [bar_update], [], false)];
     Masher._threads := [0%nat];
     Masher.thread_id := 2;
     Masher.mashing := true;
     Masher.last_log := None |}.

(** ** Predicates on states and computations *)

(** What the loop over the titles leaves alone. *)
Definition resume_frame (s s' : TaskState) : Prop :=
  MashTask.resume s'.1 = MashTask.resume s.1 /\
  MashTask.safe s'.1 = MashTask.safe s.1 /\
  MashTask.tag s'.1 = MashTask.tag s.1 /\
  MASHING s'.2 = MASHING s.2 /\
  MashTask.id s'.1 = MashTask.id s.1 /\
  (forall e, e ∈ logged s.2 -> e ∈ logged s'.2).

(** A release name is covered when the three dictionaries have it. *)
Definition covered (tb : NvrTables) (k : string) : Prop :=
  is_Some (pending_nvrs tb !! k) /\
  is_Some (testing_nvrs tb !! k) /\
  is_Some (stable_nvrs tb !! k).

(** The three dictionaries have the same keys. *)
Definition same_keys (tb : NvrTables) : Prop :=
  forall k, is_Some (pending_nvrs tb !! k) -> covered tb k.

(** The computation keeps the property of the state, however it ends. *)
Definition preserves {S A} (P : S -> Prop) (c : M S A) : Prop :=
  forall s, P s -> P (c s).2.

(** A property of the world alone, on any state that carries the world. *)
Definition in_world {X} (Q : World -> Prop) : X * World -> Prop :=
  fun s => Q s.2.

(** A property of the world that the traces and the directory flags do not
    bear on. *)
Record trace_blind (Q : World -> Prop) : Prop := {
  blind_log : forall l msg w, Q w -> Q (add_log l msg w);
  blind_fs : forall o w, Q w -> Q (add_fs_op o w);
  blind_started : forall th w, Q w -> Q (add_started th w);
  blind_report : forall i w, Q w -> Q (add_report i w);
  blind_mashed_dir : forall b w, Q w -> Q (set_mashed_dir_isdir b w);
  blind_mash_stage : forall b w, Q w -> Q (set_mash_stage_isdir b w)
}.

(** The lock is in place, with these titles. *)
Definition locked (titles : list string) (w : World) : Prop :=
  MASHING w = Some titles.

(** No tag mutation and no composition beyond the given ones. *)
Definition quiet (kc : list KojiCall) (mc : list string) (w : World) : Prop :=
  koji_calls w = kc /\ mash_cmds w = mc.

(** The file system call has been made. *)
Definition done_op (o : FsOp) (w : World) : Prop :=
  o ∈ fs_ops w.

(** A computation that never answers [true]. *)
Definition never_true {S} (c : M S bool) : Prop :=
  forall s, (c s).1 <> Ok true.

(** The state in which [run] calls [masher.done] after a failed
    [safe_to_move]. *)
Definition aborting (env : Env) (t : MashTask.t) (m : Masher.t) (w : World) : RunState :=
  let s := record_errors (failed_checks env (MashTask.updates t))
             (MashTask.set_success true t, w) in
  (s.1, m, add_log ERROR "safe_to_move failed! -- aborting" s.2).

(** The threads started and the reports mailed so far. *)
Definition registry (st : list MashTask.t) (rp : list nat) (w : World) : Prop :=
  started w = st /\ reports w = rp.



(** ** Further functions used by the statements *)

(** [set()] filled by [map(s.add, l)]: the elements of [l], each once, in
    order of first occurrence. *)
Definition as_set `{EqDecision A} (l : list A) : list A :=
  foldl (fun s u => set_add u s) [] l.

(** The release part of a repository name: [update.release.name.lower()]. *)
Definition release_of (u : PackageUpdate) : string := lower (name (release u)).

(** The number of submissions in a sequence of calls. *)
Definition is_submission (c : Call) : bool :=
  match c with
  | call_queue _ _ _ => true
  | _ => false
  end.

Definition submissions (cs : list Call) : nat :=
  List.length (List.filter is_submission cs).

(** The identifiers handed out so far are all in use at most once, and
    below the counter. *)
Definition ids_in_order (s : MasherState) : Prop :=
  NoDup (queued_ids s.1 ++ started_ids s.2) /\
  Forall (fun i => (i < Masher.thread_id s.1)%nat) (queued_ids s.1 ++ started_ids s.2).

(** The [mashing] flag is only set while a thread is registered. *)
Definition mashing_means_running (m : Masher.t) : Prop :=
  Masher.mashing m = true -> Masher._threads m <> [].

(** The output directory and the command line of the composition of one
    repository. *)
Definition mashdir_of (env : Env) (repo : string) : string :=
  join (mashed_dir env) (repo +:+ "-" +:+ strftime env).

Definition mash_command_of (env : Env) (repo : string) : string :=
  mash_command env (mashdir_of env repo)
    (join (comps_dir env) ("comps-" +:+ before_dash repo +:+ ".xml")) repo.

(** The state after the composition of one repository went well. *)
Definition composed (env : Env) (s : TaskState) (repo : string) : TaskState :=
  (MashTask.set_log (Some (mashdir_of env repo +:+ "/mash.out"))
     (MashTask.set_success true
        (MashTask.set_mashed_repos
           (<[repo := mashdir_of env repo]> (MashTask.mashed_repos s.1)) s.1)),
   add_log INFO ("Wrote mash output to " +:+ mashdir_of env repo +:+ "/mash.out")
     (add_fs_op (WriteFile (mashdir_of env repo +:+ "/mash.out"))
        (add_mash_cmd (mash_command_of env repo)
           (add_log INFO ("Running `" +:+ mash_command_of env repo +:+ "`") s.2)))).

(** The file that receives the output of a failed composition. *)
Definition failed_output_of (env : Env) : string :=
  join (mashed_dir env) ("mash-failed-" +:+ strftime env).

(** The consistency check has nothing to say about the update: it has no
    build, or its request and status fall between the cases of the check. *)
Definition unchecked (u : PackageUpdate) : Prop :=
  builds u = [] \/
  (request u = Some "stable" /\ status u <> "testing" /\ status u <> "pending") \/
  ((request u = Some "unpush" \/ request u = Some "obsolete") /\
   status u <> "testing" /\ status u <> "stable").

(** The call renames a directory or a file. *)
Definition is_move (o : FsOp) : Prop :=
  match o with
  | Move _ _ => True
  | _ => False
  end.

(** The state after the composition of one repository failed. *)
Definition failed_composition (env : Env) (s : TaskState) (repo : string) : TaskState :=
  (MashTask.set_log (Some (failed_output_of env))
     (MashTask.set_success false
        (MashTask.set_mashed_repos
           (<[repo := mashdir_of env repo]> (MashTask.mashed_repos s.1)) s.1)),
   add_log INFO ("Wrote failed mash output to " +:+ failed_output_of env)
     (add_fs_op (WriteFile (failed_output_of env))
        (add_mash_cmd (mash_command_of env repo)
           (add_log INFO ("Running `" +:+ mash_command_of env repo +:+ "`") s.2)))).

(** The composition of the repository exits with code zero. *)
Definition composes (env : Env) (repo : string) : Prop :=
  mash_returncode env (mash_command_of env repo) = 0.

(** The call publishes a tree: it creates or removes a symlink. *)
Definition publishes (o : FsOp) : Prop :=
  match o with
  | Symlink _ _ | Unlink _ => True
  | _ => False
  end.

(** Whether [run] calls [move_builds]. *)
Definition moves (t : MashTask.t) : bool :=
  negb (MashTask.resume t) && negb (Nat.eqb (List.length (MashTask.updates t)) 0).

(** The state in which [run] calls [mash], when the consistency check
    passed or was skipped. *)
Definition at_mash (env : Env) (t : MashTask.t) (w : World) : TaskState :=
  if moves t then (move_builds env (MashTask.set_success true t, w)).2
  else (MashTask.set_success true t, w).

(** The try block of [run] from the call of [mash] on. *)
Definition from_mash (env : Env) : M RunState bool :=
  on_task (mash env);;
  on_task (complete_requests env);;
  on_task (generate_updateinfo env);;
  on_task (update_symlinks env);;
  on_task (cache_repodata env);;
  on_task (wait_for_sync env);;
  on_task (send_notices env);;
  mret false.

(** No tag mutation beyond the given ones. *)
Definition untagged (kc : list KojiCall) (w : World) : Prop :=
  koji_calls w = kc.

(** The task has this identifier, and the threads started and the reports
    mailed are these. *)
Definition reporting (i : nat) (st : list MashTask.t) (rp : list nat) (s : TaskState) : Prop :=
  MashTask.id s.1 = i /\ started s.2 = st /\ reports s.2 = rp.

(** A property of the task and the world, on the state of [run] with the
    orchestrator as given. *)
Definition on_run (P : TaskState -> Prop) (m : Masher.t) (s : RunState) : Prop :=
  P (s.1.1, s.2) /\ s.1.2 = m.

(** The entries stored one after the other in a dictionary: a later entry
    replaces an earlier one with the same key. *)
Definition stored (content : gmap string string) (entries : list (string * string))
    : gmap string string :=
  foldl (fun c e => <[e.1 := e.2]> c) content entries.

(** The entries that [add_to_digest] stores for an update: the text of each
    part of the template under the nvr of the build at the same position. *)
Definition digest_entries (update : PackageUpdate) (parts : list (string * string))
    : list (string * string) :=
  zip (map nvr (builds update)) (map snd parts).

(** ** More of the small installation *)

(** The installation with other arches configured, and with another exit
    code of the composition tool. *)
Definition with_arches (a : list string) (env : Env) : Env :=
  {| mashed_dir := mashed_dir env;
     mashed_stage_dir := mashed_stage_dir env;
     comps_dir := comps_dir env;
     mash_conf := mash_conf env;
     arches := a;
     byTitle := byTitle env;
     listTagged := listTagged env;
     wait_for_tasks := wait_for_tasks env;
     strftime := strftime env;
     mash_returncode := mash_returncode env;
     os_listdir := os_listdir env;
     os_islink := os_islink env;
     sanity_check_repodata := sanity_check_repodata env;
     update_comps_raises := update_comps_raises env;
     request_complete_raises := request_complete_raises env;
     generate_updateinfo_raises := generate_updateinfo_raises env;
     cache_repodata_raises := cache_repodata_raises env;
     wait_for_sync_result := wait_for_sync_result env;
     notices_raise := notices_raise env;
     MashTaskException_is_Exception := MashTaskException_is_Exception env |}.

Definition with_mash_returncode (code : string -> Z) (env : Env) : Env :=
  {| mashed_dir := mashed_dir env;
     mashed_stage_dir := mashed_stage_dir env;
     comps_dir := comps_dir env;
     mash_conf := mash_conf env;
     arches := arches env;
     byTitle := byTitle env;
     listTagged := listTagged env;
     wait_for_tasks := wait_for_tasks env;
     strftime := strftime env;
     mash_returncode := code;
     os_listdir := os_listdir env;
     os_islink := os_islink env;
     sanity_check_repodata := sanity_check_repodata env;
     update_comps_raises := update_comps_raises env;
     request_complete_raises := request_complete_raises env;
     generate_updateinfo_raises := generate_updateinfo_raises env;
     cache_repodata_raises := cache_repodata_raises env;
     wait_for_sync_result := wait_for_sync_result env;
     notices_raise := notices_raise env;
     MashTaskException_is_Exception := MashTaskException_is_Exception env |}.

(** An installation with the arch i386 configured, and one whose
    composition of the testing repository fails. *)
Definition arches_env : Env := with_arches ["i386"] example_env.

Definition broken_env : Env :=
  with_mash_returncode
    (fun cmd => if endswith cmd " f8-updates-testing" then 1 else 0) example_env.

(** A push that resumes, with two repositories to compose. *)
Definition resumed_task : MashTask.t :=
  new_task 0 [foo_update] ["f8-updates"; "f8-updates-testing"] true.

(** A stable update that is asked to become stable again. *)
Definition stale_update : PackageUpdate :=
  {| title := "foo-1.0-1.fc8"; request := Some "stable"; status := "stable";
     release := f8; builds := [foo_build]; build_tag := "dist-f8-updates" |}.

Definition stale_task : MashTask.t := new_task 0 [stale_update] [] false.

(** Files that are all there, with the same content. *)
Definition example_files : Files :=
  {| file_exists := fun _ => true; file_read := fun _ => "mash: failed" |}.

(** A template with two parts, and one with none. *)
Definition two_part_template (u : PackageUpdate) : list (string * string) :=
  [("subject 1", "text 1"); ("subject 2", "text 2")].

Definition empty_template (u : PackageUpdate) : list (string * string) := [].

(** The first push submitted without [repos], and the set it leaves. *)
Definition first_default : outcome MashTask.t * (list string * World) :=
  MashTask_init_default example_env 0 [foo_update] false ([], idle_world).

Definition first_default_task : MashTask.t :=
  match first_default.1 with
  | Ok th => th
  | _ => first_thread
  end.

(** The second one, for an update that asks for no repository. *)
Definition second_default : outcome MashTask.t * (list string * World) :=
  MashTask_init_default example_env 1 [bar_update] false (first_default.2.1, idle_world).

Definition second_default_task : MashTask.t :=
  match second_default.1 with
  | Ok th => th
  | _ => first_thread
  end.

(** ** Sets as lists and loops as folds *)

Lemma elem_of_set_add `{EqDecision A} (x y : A) (s : list A) :
  y ∈ set_add x s <-> y ∈ s \/ y = x.
Proof.
  unfold set_add. destruct (decide (x ∈ s)) as [Hin|Hin].
  - split; [auto | intros [?| ->]; auto].
  - rewrite elem_of_app, list_elem_of_singleton. tauto.
Qed.

Lemma elem_of_foldl_set_add `{EqDecision A} (xs s : list A) (y : A) :
  y ∈ foldl (fun s u => set_add u s) s xs <-> y ∈ s \/ y ∈ xs.
Proof.
  revert s. induction xs as [|x xs IH]; intros s; simpl.
  - rewrite elem_of_nil. tauto.
  - rewrite IH, elem_of_set_add, elem_of_cons. tauto.
Qed.


(** A loop whose body always completes is a fold of the body's effect. *)
Lemma for_each_fold_in {S A} (body : A -> M S unit) (f : S -> A -> S) (xs : list A) :
  (forall x, x ∈ xs -> forall s, body x s = (Ok tt, f s x)) ->
  forall s, for_each xs body s = (Ok tt, foldl f s xs).
Proof.
  induction xs as [|x xs IH]; intros Hb s; [done|].
  cbn [for_each foldl]. unfold mbind, M_bind, bind.
  rewrite Hb by left. apply IH. intros y Hy. apply Hb. by right.
Qed.

Lemma for_each_fold {S A} (body : A -> M S unit) (f : S -> A -> S) :
  (forall x s, body x s = (Ok tt, f s x)) ->
  forall xs s, for_each xs body s = (Ok tt, foldl f s xs).
Proof. intros Hb xs. apply for_each_fold_in. auto. Qed.

Ltac msimpl :=
  cbv [mbind M_bind bind mret M_ret ret when get_world get_self world_update
       self_update modify raise external get];
  cbn.

(** ** Construction: [_lock] and [_find_repos] *)

Section Construction.
Variable env : Env.

Lemma resume_title_eq up s : resume_title env up s = (Ok tt, resume_title_step env s up).
Proof. unfold resume_title, resume_title_step. by destruct (byTitle env up). Qed.

Lemma resume_titles_updates titles s u :
  u ∈ MashTask.updates (foldl (resume_title_step env) s titles).1 <->
  u ∈ MashTask.updates s.1 \/ exists up, up ∈ titles /\ byTitle env up = Some u.
Proof.
  revert s. induction titles as [|up titles IH]; intros s; cbn [foldl].
  - split; [auto|]. intros [?|(up & Hup & _)]; [done|]. by apply elem_of_nil in Hup.
  - rewrite IH. unfold resume_title_step.
    destruct (byTitle env up) as [u'|] eqn:E; cbn.
    + destruct s as [t w]; destruct t; cbn. rewrite elem_of_set_add.
      setoid_rewrite elem_of_cons. naive_solver.
    + setoid_rewrite elem_of_cons. naive_solver.
Qed.

Lemma resume_title_frame s up : resume_frame s (resume_title_step env s up).
Proof.
  unfold resume_frame, resume_title_step.
  destruct (byTitle env up); destruct s as [[] []]; cbn; repeat split; auto.
  intros e He. apply elem_of_app; auto.
Qed.

Lemma resume_titles_frame titles s : resume_frame s (foldl (resume_title_step env) s titles).
Proof.
  revert s. induction titles as [|up titles IH]; intros s; cbn [foldl]; [done|].
  destruct (IH (resume_title_step env s up)) as (H1 & H2 & H3 & H4 & H6 & H5).
  destruct (resume_title_frame s up) as (G1 & G2 & G3 & G4 & G6 & G5).
  repeat split; try congruence. auto.
Qed.

Lemma resume_titles_logged titles s up :
  up ∈ titles -> byTitle env up = None ->
  (WARNING, "Cannot find " +:+ up) ∈ logged (foldl (resume_title_step env) s titles).2.
Proof.
  revert s. induction titles as [|up' titles IH]; intros s Hin Hnone.
  - by apply elem_of_nil in Hin.
  - cbn [foldl]. apply elem_of_cons in Hin as [<-|Hin]; [|by apply IH].
    apply resume_titles_frame. unfold resume_title_step. rewrite Hnone. cbn.
    apply elem_of_app. right. by apply list_elem_of_singleton.
Qed.

Lemma find_repos_of_eq resume u s :
  find_repos_of resume u s = (Ok tt, find_repos_step resume s u).
Proof.
  unfold find_repos_of, find_repos_step, repos_for. destruct s as [[] w].
  repeat (match goal with |- context [if ?b then _ else _] => destruct b end;
          try reflexivity).
Qed.

Lemma find_repos_steps_frame resume us s :
  let s' := foldl (find_repos_step resume) s us in
  MashTask.updates s'.1 = MashTask.updates s.1 /\
  MashTask.safe s'.1 = MashTask.safe s.1 /\
  MashTask.tag s'.1 = MashTask.tag s.1 /\
  MashTask.id s'.1 = MashTask.id s.1 /\
  MashTask.resume s'.1 = MashTask.resume s.1 /\
  s'.2 = s.2.
Proof.
  revert s. induction us as [|u us IH]; intros s; cbn [foldl]; [done|].
  destruct (IH (find_repos_step resume s u)) as (H1 & H2 & H3 & H5 & H6 & H4). cbn zeta.
  rewrite H1, H2, H3, H4, H5, H6. by destruct s as [[] ?].
Qed.

Lemma find_repos_eq s :
  _find_repos s
  = (Ok tt, foldl (find_repos_step (MashTask.resume s.1)) s (MashTask.updates s.1)).
Proof.
  unfold _find_repos. msimpl. apply for_each_fold. intros. apply find_repos_of_eq.
Qed.

(** With a lock in place and [resume] set, the constructor's calls amount to
    the loop over the lock's titles followed by [_find_repos]. *)
Lemma init_calls_resume id updates repos w titles :
  MASHING w = Some titles ->
  exists w1,
    MASHING w1 = Some titles /\
    init_calls env (new_task id updates repos true, w)
    = _find_repos (foldl (resume_title_step env) (new_task id updates repos true, w1) titles).
Proof.
  intros HM. unfold init_calls, _lock.
  destruct w as [d1 d2 mk kc mc fo st rp lg]. simpl in HM. subst mk.
  destruct d1, d2; msimpl;
    rewrite (for_each_fold _ _ resume_title_eq); eexists; (split; [|reflexivity]); done.
Qed.

(** Construction without [resume] against a lock in place. *)
Lemma init_no_resume_locked id updates repos w titles :
  MASHING w = Some titles ->
  exists w',
    MashTask_init env id updates repos false w = (Raise (MashTaskException ""), w') /\
    MASHING w' = Some titles /\
    koji_calls w' = koji_calls w /\
    mash_cmds w' = mash_cmds w /\
    fs_ops w' = fs_ops w ++ lock_dirs env w /\
    started w' = started w /\
    reports w' = reports w.
Proof.
  intros HM. unfold MashTask_init, init_calls, _lock, lock_dirs.
  destruct w as [d1 d2 mk kc mc fo st rp lg]. simpl in HM. subst mk.
  destruct d1, d2; msimpl; eexists; (split; [reflexivity|]); cbn;
    rewrite ?app_nil_r, <- ?app_assoc; auto 10.
Qed.

(** C3: a task constructed with resume=false while the MASHING lock exists
    is not constructed: the constructor raises MashTaskException, having
    issued no tag mutation and run no composition, and having written no
    file: the lock keeps the titles it held, and the only file system calls
    are the [makedirs] of [_lock] for a missing directory. *)
Theorem C3_no_resume_with_lock_fails id updates repos w titles :
  MASHING w = Some titles ->
  exists w',
    MashTask_init env id updates repos false w = (Raise (MashTaskException ""), w') /\
    MASHING w' = Some titles /\
    koji_calls w' = koji_calls w /\
    mash_cmds w' = mash_cmds w /\
    fs_ops w' = fs_ops w ++ lock_dirs env w /\
    started w' = started w.
Proof.
  intros HM.
  destruct (init_no_resume_locked id updates repos w titles HM)
    as (w' & H1 & H2 & H3 & H4 & H5 & H6 & _).
  exists w'. auto 10.
Qed.

(** Construction with [resume] against a lock in place. *)
Lemma init_resume_locked id updates repos w titles :
  MASHING w = Some titles ->
  exists self w',
    MashTask_init env id updates repos true w = (Ok self, w') /\
    (forall u, u ∈ MashTask.updates self <->
               u ∈ updates \/ exists up, up ∈ titles /\ byTitle env up = Some u) /\
    (forall up, up ∈ titles -> byTitle env up = None ->
                (WARNING, "Cannot find " +:+ up) ∈ logged w') /\
    MASHING w' = Some titles /\
    MashTask.id self = id.
Proof.
  intros HM. unfold MashTask_init.
  destruct (init_calls_resume id updates repos w titles HM) as (w1 & HM1 & ->).
  rewrite find_repos_eq.
  set (s1 := foldl (resume_title_step env) _ titles).
  destruct (find_repos_steps_frame (MashTask.resume s1.1) (MashTask.updates s1.1) s1)
    as (F1 & _ & _ & F3 & _ & F2).
  destruct (foldl (find_repos_step _) s1 _) as [self w'] eqn:E. cbn in F1, F2, F3. subst w'.
  exists self, s1.2. split; [done|]. rewrite F1, F3.
  destruct (resume_titles_frame titles (new_task id updates repos true, w1))
    as (_ & _ & _ & H3 & H4 & _).
  fold s1 in H3, H4. split; [|split; [|split]].
  - intros u. subst s1. rewrite resume_titles_updates. cbn.
    rewrite elem_of_foldl_set_add, elem_of_nil. tauto.
  - intros up Hin Hn. by apply resume_titles_logged.
  - by rewrite H3.
  - by rewrite H4.
Qed.

(** C4: a task constructed with resume=true while the MASHING lock exists
    is constructed, and its updates are exactly the updates passed in
    together with the records the lock's titles resolve to; each title that
    does not resolve is logged as a warning and skipped. *)
Theorem C4_resume_unions_lock_titles id updates repos w titles :
  MASHING w = Some titles ->
  exists self w',
    MashTask_init env id updates repos true w = (Ok self, w') /\
    (forall u, u ∈ MashTask.updates self <->
               u ∈ updates \/ exists up, up ∈ titles /\ byTitle env up = Some u) /\
    (forall up, up ∈ titles -> byTitle env up = None ->
                (WARNING, "Cannot find " +:+ up) ∈ logged w') /\
    MASHING w' = Some titles.
Proof.
  intros HM.
  destruct (init_resume_locked id updates repos w titles HM)
    as (self & w' & H1 & H2 & H3 & H4 & _).
  exists self, w'. auto.
Qed.

(** A task that the constructor returns is marked safe, has no destination
    tag yet, and leaves the lock in place behind it. *)
Lemma constructed_task id updates repos resume w self w' :
  MashTask_init env id updates repos resume w = (Ok self, w') ->
  MashTask.safe self = true /\
  MashTask.tag self = None /\
  MashTask.resume self = resume /\
  MashTask.id self = id /\
  is_Some (MASHING w').
Proof.
  unfold MashTask_init.
  assert (forall s1 : TaskState,
            MashTask.safe s1.1 = true -> MashTask.tag s1.1 = None ->
            MashTask.resume s1.1 = resume -> MashTask.id s1.1 = id ->
            is_Some (MASHING s1.2) ->
            match _find_repos s1 with
            | (Ok _, (self0, w0)) => (Ok self0, w0)
            | (Raise e, (_, w0)) => (Raise e, w0)
            | (Hang, (_, w0)) => (Hang, w0)
            end = (Ok self, w') ->
            MashTask.safe self = true /\ MashTask.tag self = None /\
            MashTask.resume self = resume /\ MashTask.id self = id /\
            is_Some (MASHING w')) as Hfind.
  { intros s1 H1 H2 H3 H5 H4. rewrite find_repos_eq.
    destruct (find_repos_steps_frame (MashTask.resume s1.1) (MashTask.updates s1.1) s1)
      as (_ & F1 & F2 & F5 & F4 & F3).
    destruct (foldl _ s1 _) as [self0 w0]. cbn in *. intros [= <- <-].
    subst w0. rewrite F1, F2, F4, F5. auto. }
  unfold init_calls, _lock.
  destruct w as [d1 d2 mk kc mc fo st rp lg].
  destruct mk as [titles|]; destruct resume, d1, d2; msimpl;
    rewrite ?(for_each_fold _ _ resume_title_eq); try done.
  all: try (apply Hfind; cbn; eauto; fail).
  all: match goal with |- context [foldl (resume_title_step env) ?s ?ts] =>
         destruct (resume_titles_frame ts s) as (R1 & R2 & R3 & R4 & R5 & _);
         apply Hfind; rewrite ?R1, ?R2, ?R3, ?R4, ?R5; cbn; eauto end.
Qed.

End Construction.

(** ** [move_builds] *)

Lemma add_koji_calls_app cs1 cs2 w :
  add_koji_calls (cs1 ++ cs2) w = add_koji_calls cs2 (add_koji_calls cs1 w).
Proof. unfold add_koji_calls. apply foldl_app. Qed.

Lemma koji_calls_add_koji_calls cs w :
  koji_calls (add_koji_calls cs w) = koji_calls w ++ cs.
Proof.
  revert w. induction cs as [|c cs IH]; intros w; cbn.
  - by rewrite app_nil_r.
  - unfold add_koji_calls in IH. rewrite IH. destruct w; cbn. by rewrite <- app_assoc.
Qed.

(** Issuing tag mutations touches nothing else of the world. *)
Lemma add_koji_calls_frame cs w :
  MASHING (add_koji_calls cs w) = MASHING w /\
  mash_cmds (add_koji_calls cs w) = mash_cmds w /\
  fs_ops (add_koji_calls cs w) = fs_ops w /\
  started (add_koji_calls cs w) = started w /\
  reports (add_koji_calls cs w) = reports w.
Proof.
  revert w. induction cs as [|c cs IH]; intros w; [done|].
  cbn. unfold add_koji_calls in IH.
  destruct (IH (add_koji_call c w)) as (H1 & H2 & H3 & H4 & H5).
  rewrite H1, H2, H3, H4, H5. by destruct w.
Qed.

Lemma moved_moved tg1 tg2 pl1 pl2 s :
  moved tg2 pl2 (moved tg1 pl1 s) = moved tg2 (pl1 ++ pl2) s.
Proof.
  destruct s as [[] w]. unfold moved. cbn.
  by rewrite !map_app, add_koji_calls_app, app_assoc.
Qed.

Lemma moved_nil s : moved (MashTask.tag s.1) [] s = s.
Proof. destruct s as [[] w]. unfold moved. cbn. by rewrite app_nil_r. Qed.

Lemma move_build_eq cur b s :
  move_build cur b s
  = (Ok tt, moved (MashTask.tag s.1)
              [(planned_call (MashTask.tag s.1) cur b,
                planned_action (MashTask.tag s.1) cur b)] s).
Proof.
  destruct s as [[] w]. unfold move_build, moved, planned_call, planned_action.
  msimpl. by destruct (inherited b).
Qed.

Lemma move_builds_of_update_eq cur bs s :
  for_each bs (move_build cur) s
  = (Ok tt, moved (MashTask.tag s.1)
              (map (fun b => (planned_call (MashTask.tag s.1) cur b,
                              planned_action (MashTask.tag s.1) cur b)) bs) s).
Proof.
  revert s. induction bs as [|b bs IH]; intros s.
  - cbn. by rewrite moved_nil.
  - cbn [for_each]. unfold mbind, M_bind, bind. rewrite move_build_eq, IH.
    by rewrite moved_moved.
Qed.

Lemma set_destination_tag_eq u s :
  set_destination_tag u s = (Ok tt, moved (destination u (MashTask.tag s.1)) [] s).
Proof.
  destruct s as [[] w]. unfold set_destination_tag, destination, moved. cbn.
  rewrite app_nil_r.
  repeat (match goal with |- context [if ?b then _ else _] => destruct b end;
          try reflexivity).
Qed.

Lemma move_update_eq u s :
  move_update u s
  = (Ok tt, moved (destination u (MashTask.tag s.1)) (plan_update u (MashTask.tag s.1)) s).
Proof.
  unfold move_update. unfold mbind, M_bind, bind.
  rewrite set_destination_tag_eq, move_builds_of_update_eq, moved_moved.
  by destruct s as [[] w].
Qed.

Lemma move_updates_eq us s :
  for_each us move_update s
  = (Ok tt, moved (tag_after us (MashTask.tag s.1)) (plan us (MashTask.tag s.1)) s).
Proof.
  revert s. induction us as [|u us IH]; intros s.
  - cbn. by rewrite moved_nil.
  - cbn [for_each]. unfold mbind, M_bind, bind. rewrite move_update_eq, IH, moved_moved.
    by destruct s as [[] w].
Qed.

(** Every pair of the plan is a tag mutation and the entry that records it. *)
Lemma plan_records us tg : Forall (fun p => records p.2 p.1) (plan us tg).
Proof.
  revert tg. induction us as [|u us IH]; intros tg; cbn; [constructor|].
  apply Forall_app. split; [|apply IH].
  unfold plan_update. apply Forall_map, Forall_true. intros b.
  unfold planned_call, planned_action, records. by destruct (inherited b).
Qed.

Lemma Forall2_records_plan pl :
  Forall (fun p : KojiCall * Action => records p.2 p.1) pl ->
  Forall2 records (map snd pl) (map fst pl).
Proof. induction 1; cbn; constructor; auto. Qed.

Lemma destination_keeps u tg : recomputes u = false -> destination u tg = tg.
Proof.
  unfold recomputes, destination. intros H.
  destruct (request_is u "stable"), (request_is u "testing"), (request_is u "obsolete");
    cbn in H; congruence.
Qed.

Lemma destination_recomputes u tg :
  destination u tg = if recomputes u then destination u None else tg.
Proof.
  unfold recomputes, destination.
  by destruct (request_is u "stable"), (request_is u "testing"), (request_is u "obsolete").
Qed.

Lemma destination_is_Some u : recomputes u = true -> is_Some (destination u None).
Proof.
  unfold recomputes, destination.
  destruct (request_is u "stable"), (request_is u "testing"), (request_is u "obsolete");
    cbn; intros H; try congruence; eauto.
Qed.

(** The tag in force after the earlier updates is the one the last
    recomputing update among them set, or else the tag at entry. *)
Lemma tag_after_left_by_earlier us tg :
  tag_after us tg = match left_by_earlier us with
                    | Some x => Some x
                    | None => tg
                    end.
Proof.
  revert tg. induction us as [|u us IH]; intros tg; [done|].
  cbn. unfold tag_after in IH. rewrite IH.
  destruct (left_by_earlier us); [done|].
  rewrite destination_recomputes. destruct (recomputes u) eqn:E; [|done].
  by destruct (destination_is_Some u E) as [x ->].
Qed.

Lemma plan_app us1 us2 tg :
  plan (us1 ++ us2) tg = plan us1 tg ++ plan us2 (tag_after us1 tg).
Proof.
  revert tg. induction us1 as [|u us1 IH]; intros tg; [done|].
  cbn. by rewrite IH, app_assoc.
Qed.

Section MoveBuilds.
Variable env : Env.

(** [move_builds] as a whole: the plan is carried out, then the batch is
    awaited. *)
Lemma move_builds_eq t w :
  let pl := plan (MashTask.updates t) (MashTask.tag t) in
  let ok := wait_for_tasks env
              (drop (List.length (koji_calls w)) (koji_calls w ++ map fst pl)) =? 0 in
  move_builds env (t, w)
  = (if ok then Ok tt else Raise (MashTaskException "Failed to move builds"),
     (MashTask.set_moving false
        (MashTask.set_success ok
           (MashTask.set_actions (MashTask.actions t ++ map snd pl)
              (MashTask.set_tag (tag_after (MashTask.updates t) (MashTask.tag t))
                 (MashTask.set_moving true t)))),
      add_koji_calls (map fst pl) w)).
Proof.
  unfold move_builds. msimpl. rewrite move_updates_eq. cbn.
  rewrite koji_calls_add_koji_calls.
  destruct (wait_for_tasks env _ =? 0); by destruct t.
Qed.

(** C6: whatever the build system answers, [move_builds] appends to
    [actions] exactly one entry per tag mutation it issues, in the same
    order, and each entry records its mutation: the build, the destination
    tag and, for a move, the source tag. *)
Theorem C6_every_mutation_recorded_once t w :
  let pl := plan (MashTask.updates t) (MashTask.tag t) in
  let r := move_builds env (t, w) in
  koji_calls r.2.2 = koji_calls w ++ map fst pl /\
  MashTask.actions r.2.1 = MashTask.actions t ++ map snd pl /\
  Forall2 records (map snd pl) (map fst pl) /\
  List.length (map snd pl) = List.length (map fst pl).
Proof.
  cbn zeta. rewrite move_builds_eq. cbn [fst snd].
  rewrite koji_calls_add_koji_calls.
  split; [done|]. split; [by destruct t|]. split.
  - apply Forall2_records_plan, plan_records.
  - by rewrite !length_map.
Qed.

(** C10: in [move_builds], an update whose request is none of stable,
    testing and obsolete does not get a destination tag of its own: its
    builds are tagged or moved, and recorded, with the tag left by the
    earlier updates of the batch, which is [None] when no earlier update
    set one ([self.tag] is [None] when [move_builds] starts, as the
    constructor leaves it). *)
Theorem C10_other_requests_reuse_tag t w earlier u later :
  MashTask.updates t = earlier ++ u :: later ->
  recomputes u = false ->
  MashTask.tag t = None ->
  let r := move_builds env (t, w) in
  let tg := left_by_earlier earlier in
  MashTask.actions r.2.1
  = MashTask.actions t ++ map snd (plan earlier None)
      ++ map (fun b => (nvr b, get_build_tag u, tg)) (builds u)
      ++ map snd (plan later tg) /\
  koji_calls r.2.2
  = koji_calls w ++ map fst (plan earlier None)
      ++ map (planned_call tg (get_build_tag u)) (builds u)
      ++ map fst (plan later tg).
Proof.
  intros Hus Hu Htag. cbn zeta. rewrite move_builds_eq. cbn [fst snd].
  rewrite koji_calls_add_koji_calls, Hus, Htag.
  rewrite plan_app. cbn [plan].
  rewrite (tag_after_left_by_earlier earlier None).
  assert (match left_by_earlier earlier with Some x => Some x | None => None end
          = left_by_earlier earlier) as -> by (by destruct (left_by_earlier earlier)).
  rewrite destination_keeps by done.
  unfold plan_update. rewrite destination_keeps by done.
  rewrite !map_app, !map_map. cbn. split; [by destruct t|done].
Qed.

End MoveBuilds.

(** ** [safe_to_move] *)

Section SafeToMove.
Variable env : Env.

Lemma populate_release_covered tb u k :
  covered tb k -> covered (populate_release env tb u) k.
Proof.
  unfold covered, populate_release. intros (H1 & H2 & H3).
  destruct (pending_nvrs tb !! name (release u)); [done|]. cbn.
  rewrite !lookup_insert_is_Some. destruct (decide (name (release u) = k)); auto.
Qed.

Lemma populate_release_covers tb u :
  same_keys tb ->
  same_keys (populate_release env tb u) /\
  covered (populate_release env tb u) (name (release u)).
Proof.
  intros Hk. unfold populate_release.
  destruct (pending_nvrs tb !! name (release u)) eqn:E.
  - split; [done|]. apply Hk. by rewrite E.
  - split.
    + intros k. unfold covered. cbn. rewrite !lookup_insert_is_Some.
      intros [->|[Hne Hs]]; [auto|]. destruct (Hk k Hs) as (H1 & H2 & H3). auto 10.
    + unfold covered. cbn. rewrite !lookup_insert_eq. eauto.
Qed.

Lemma foldl_populate_covers us tb u :
  same_keys tb -> u ∈ us ->
  covered (foldl (populate_release env) tb us) (name (release u)).
Proof.
  revert tb. induction us as [|u' us IH]; intros tb Hk Hin.
  - by apply elem_of_nil in Hin.
  - cbn [foldl]. destruct (populate_release_covers tb u' Hk) as [Hk' Hc].
    apply elem_of_cons in Hin as [->|Hin]; [|by apply IH].
    clear IH Hk'. revert Hc. generalize (populate_release env tb u').
    induction us as [|u'' us IH]; intros tb' Hc; [done|].
    cbn [foldl]. apply IH. by apply populate_release_covered.
Qed.

(** The first loop of [safe_to_move] fills the dictionaries for every
    update of the batch, so the second loop never meets a missing key. *)
Lemma populate_nvrs_covers us u :
  u ∈ us -> covered (populate_nvrs env us) (name (release u)).
Proof.
  apply foldl_populate_covers. intros k. cbn. rewrite lookup_empty.
  by intros [? ?].
Qed.

Lemma error_log_eq msg s : error_log msg s = (Ok tt, error_log_step s msg).
Proof. by destruct s as [[] []]. Qed.

Lemma require_tagged_eq table u b what s :
  is_Some (table !! name (release u)) ->
  require_tagged table u b what s
  = (Ok tt, match not_tagged (tagged_in table u) b what with
            | Some msg => error_log_step s msg
            | None => s
            end).
Proof.
  intros [l Hl]. unfold require_tagged, getitem, not_tagged, tagged_in. rewrite Hl.
  msimpl. destruct (str_in (nvr b) l); [done|]. cbn. apply error_log_eq.
Qed.

Lemma check_build_eq tb u b s :
  covered tb (name (release u)) ->
  check_build tb u b s
  = (Ok tt, match build_error tb u b with
            | Some msg => error_log_step s msg
            | None => s
            end).
Proof.
  intros (H1 & H2 & H3). unfold check_build, build_error.
  repeat (match goal with |- context [if ?b then _ else _] => destruct b end;
          rewrite ?require_tagged_eq by done; try reflexivity).
  all: try apply error_log_eq.
Qed.

Lemma record_errors_app msgs1 msgs2 s :
  record_errors (msgs1 ++ msgs2) s = record_errors msgs2 (record_errors msgs1 s).
Proof. apply foldl_app. Qed.

Lemma check_builds_eq tb u bs s :
  covered tb (name (release u)) ->
  for_each bs (check_build tb u) s
  = (Ok tt, record_errors (omap (build_error tb u) bs) s).
Proof.
  intros Hc. revert s. induction bs as [|b bs IH]; intros s; [done|].
  cbn [for_each]. unfold mbind, M_bind, bind. rewrite check_build_eq by done.
  rewrite IH. cbn. by destruct (build_error tb u b).
Qed.

Lemma check_updates_eq tb us s :
  (forall u, u ∈ us -> covered tb (name (release u))) ->
  for_each us (fun update => for_each (builds update) (check_build tb update)) s
  = (Ok tt, record_errors (flat_map (fun u => omap (build_error tb u) (builds u)) us) s).
Proof.
  revert s. induction us as [|u us IH]; intros s Hc; [done|].
  cbn [for_each flat_map]. unfold mbind, M_bind, bind.
  rewrite check_builds_eq by (apply Hc; left).
  rewrite IH by (intros; apply Hc; by right).
  by rewrite record_errors_app.
Qed.

(** What a list of logged errors does to the task and to the world. *)
Lemma record_errors_task msgs s :
  let s' := record_errors msgs s in
  MashTask.errors s'.1 = MashTask.errors s.1 ++ msgs /\
  MashTask.safe s'.1 = (if msgs is [] then MashTask.safe s.1 else false) /\
  MashTask.success s'.1 = (if msgs is [] then MashTask.success s.1 else false) /\
  MashTask.updates s'.1 = MashTask.updates s.1 /\
  MashTask.resume s'.1 = MashTask.resume s.1 /\
  MashTask.id s'.1 = MashTask.id s.1 /\
  MashTask.actions s'.1 = MashTask.actions s.1.
Proof.
  revert s. induction msgs as [|msg msgs IH]; intros s.
  - cbn. by rewrite app_nil_r.
  - cbn zeta. unfold record_errors. cbn [foldl].
    destruct (IH (error_log_step s msg)) as (H1 & H2 & H3 & H4 & H5 & H6 & H7).
    unfold record_errors in *. rewrite H1, H2, H3, H4, H5, H6, H7.
    destruct s as [[] ?]. cbn. rewrite <- app_assoc. by destruct msgs.
Qed.

Lemma record_errors_world msgs s :
  let w' := (record_errors msgs s).2 in
  MASHING w' = MASHING s.2 /\
  koji_calls w' = koji_calls s.2 /\
  mash_cmds w' = mash_cmds s.2 /\
  fs_ops w' = fs_ops s.2 /\
  started w' = started s.2 /\
  reports w' = reports s.2.
Proof.
  revert s. induction msgs as [|msg msgs IH]; intros s; [done|].
  cbn zeta. unfold record_errors. cbn [foldl].
  destruct (IH (error_log_step s msg)) as (H1 & H2 & H3 & H4 & H5 & H6).
  unfold record_errors in *. rewrite H1, H2, H3, H4, H5, H6. by destruct s as [? []].
Qed.

(** [safe_to_move] logs the error of every failing check and answers
    with the flag the errors leave. *)
Lemma safe_to_move_eq s :
  let s' := record_errors (failed_checks env (MashTask.updates s.1)) s in
  safe_to_move env s = (Ok (MashTask.safe s'.1), s').
Proof.
  cbn zeta. unfold safe_to_move. msimpl.
  rewrite check_updates_eq by (intros u Hu; by apply populate_nvrs_covers).
  done.
Qed.

End SafeToMove.

(** ** Properties of the state that a computation keeps *)

Lemma preserves_ret {S A} (P : S -> Prop) (a : A) : preserves P (mret a : M S A).
Proof. by intros s. Qed.

Lemma preserves_raise {S A} (P : S -> Prop) e : preserves P (raise e : M S A).
Proof. by intros s. Qed.

Lemma preserves_modify {S} (P : S -> Prop) f :
  (forall s, P s -> P (f s)) -> preserves P (modify f).
Proof. intros Hf s. apply Hf. Qed.

Lemma preserves_bind {S A B} (P : S -> Prop) (c : M S A) (k : A -> M S B) :
  preserves P c -> (forall a, preserves P (k a)) -> preserves P (c ≫= k).
Proof.
  intros Hc Hk s Hs. unfold mbind, M_bind, bind.
  specialize (Hc s Hs). destruct (c s) as [[a|e|] s']; cbn in *; auto.
  by apply Hk.
Qed.

Lemma preserves_when {S} (P : S -> Prop) (b : bool) (c : M S unit) :
  preserves P c -> preserves P (when b c).
Proof. destruct b; [done|]. intros _. apply preserves_ret. Qed.

Lemma preserves_for_each {S A} (P : S -> Prop) (xs : list A) (body : A -> M S unit) :
  (forall x, preserves P (body x)) -> preserves P (for_each xs body).
Proof.
  intros Hb. induction xs as [|x xs IH]; cbn [for_each].
  - apply preserves_ret.
  - apply preserves_bind; auto.
Qed.

Lemma preserves_for_each_until {S A} (P : S -> Prop) (xs : list A) (body : A -> M S bool) :
  (forall x, preserves P (body x)) -> preserves P (for_each_until xs body).
Proof.
  intros Hb. induction xs as [|x xs IH]; cbn [for_each_until].
  - apply preserves_ret.
  - apply preserves_bind; [auto|]. intros []; [apply preserves_ret|done].
Qed.

Lemma preserves_try_except {S A} (P : S -> Prop) (c : M S A) (h : Exn -> M S A) :
  preserves P c -> (forall e, preserves P (h e)) -> preserves P (try_except c h).
Proof.
  intros Hc Hh s Hs. unfold try_except.
  specialize (Hc s Hs). destruct (c s) as [[a|e|] s']; cbn in *; auto.
  by apply Hh.
Qed.

Lemma preserves_external {S} (P : S -> Prop) r : preserves P (external r : M S unit).
Proof. destruct r; by intros s. Qed.

Lemma preserves_self_update (Q : World -> Prop) f : preserves (in_world Q) (self_update f).
Proof. by intros s. Qed.

Lemma preserves_masher_update (Q : World -> Prop) f :
  preserves (in_world Q) (masher_update f).
Proof. by intros s. Qed.

Lemma preserves_world_update (Q : World -> Prop) f :
  (forall w, Q w -> Q (f w)) -> preserves (in_world Q) (world_update f).
Proof. intros Hf s. apply Hf. Qed.

Lemma preserves_outside_update (Q : World -> Prop) f :
  (forall w, Q w -> Q (f w)) -> preserves (in_world Q) (outside_update f).
Proof. intros Hf s. apply Hf. Qed.

Lemma preserves_on_task {A} (Q : World -> Prop) (c : M TaskState A) :
  preserves (in_world Q) c -> preserves (in_world Q) (on_task c).
Proof.
  intros Hc [[t m] w] Hs. unfold on_task. specialize (Hc (t, w) Hs).
  by destruct (c (t, w)) as [o [t' w']].
Qed.

Lemma locked_trace_blind titles : trace_blind (locked titles).
Proof. split; intros; by destruct w. Qed.

Lemma quiet_trace_blind kc mc : trace_blind (quiet kc mc).
Proof. split; intros; by destruct w. Qed.

Ltac preserves_step :=
  lazymatch goal with
  | |- preserves _ (mbind _ _) => apply preserves_bind; [|intros ?]
  | |- preserves _ (mret _) => apply preserves_ret
  | |- preserves _ (ret _) => apply (preserves_ret _)
  | |- preserves _ (raise _) => apply preserves_raise
  | |- preserves _ (when _ _) => apply preserves_when
  | |- preserves _ (for_each _ _) => apply preserves_for_each; intros ?
  | |- preserves _ (for_each_until _ _) => apply preserves_for_each_until; intros ?
  | |- preserves _ (external _) => apply preserves_external
  | |- preserves _ (self_update _) =>
      first [ apply preserves_self_update | unfold self_update; apply preserves_modify ]
  | |- preserves _ (masher_update _) =>
      first [ apply preserves_masher_update | unfold masher_update; apply preserves_modify ]
  | |- preserves _ (world_update _) =>
      first [ apply preserves_world_update | unfold world_update; apply preserves_modify ]
  | |- preserves _ (outside_update _) =>
      first [ apply preserves_outside_update | unfold outside_update; apply preserves_modify ]
  | |- preserves _ (on_task _) => apply preserves_on_task
  | |- preserves _ get_self => by intros ?
  | |- preserves _ get_world => by intros ?
  | |- preserves _ get_masher => by intros ?
  | |- preserves _ (if ?b then _ else _) => destruct b
  | |- preserves _ (match ?x with _ => _ end) => destruct x
  end.

Ltac preserves_blind H :=
  repeat preserves_step;
  try (intros; first [ by apply (blind_log _ H) | by apply (blind_fs _ H)
                     | by apply (blind_started _ H) | by apply (blind_report _ H)
                     | by apply (blind_mashed_dir _ H)
                     | by apply (blind_mash_stage _ H) ]).

Section Frames.
Variable env : Env.
Variable Q : World -> Prop.
Hypothesis HQ : trace_blind Q.

Lemma error_log_blind msg : preserves (in_world Q) (error_log msg).
Proof. unfold error_log. preserves_blind HQ. Qed.

Lemma handler_blind e : preserves (in_world Q) (handler env e).
Proof. unfold handler. preserves_blind HQ. apply error_log_blind. Qed.

Lemma find_repos_blind : preserves (in_world Q) _find_repos.
Proof.
  unfold _find_repos. preserves_blind HQ. unfold find_repos_of, repos_add.
  preserves_blind HQ.
Qed.

Lemma safe_to_move_blind : preserves (in_world Q) (safe_to_move env).
Proof.
  unfold safe_to_move. preserves_blind HQ.
  unfold check_build, require_tagged, getitem.
  preserves_blind HQ; apply error_log_blind.
Qed.

Lemma check_symlinked_blind dir pkgs :
  preserves (in_world Q) (check_symlinked env dir pkgs).
Proof.
  induction pkgs as [|pkg pkgs IH]; cbn [check_symlinked].
  - preserves_blind HQ.
  - preserves_blind HQ; [apply error_log_blind|apply IH].
Qed.

Lemma update_symlinks_blind : preserves (in_world Q) (update_symlinks env).
Proof.
  unfold update_symlinks. preserves_blind HQ.
  unfold stage_repo. destruct x as [repo mashdir]. preserves_blind HQ.
  - unfold check_arches, list_plus_str. preserves_blind HQ; apply error_log_blind.
  - unfold first_item. preserves_blind HQ.
  - apply check_symlinked_blind.
Qed.

Lemma external_stages_blind :
  preserves (in_world Q) (complete_requests env) /\
  preserves (in_world Q) (generate_updateinfo env) /\
  preserves (in_world Q) (cache_repodata env) /\
  preserves (in_world Q) (wait_for_sync env) /\
  preserves (in_world Q) (send_notices env).
Proof.
  unfold complete_requests, generate_updateinfo, cache_repodata, wait_for_sync,
    send_notices.
  repeat split; preserves_blind HQ. by intros s.
Qed.

End Frames.

(** ** What the orchestrator keeps of the world *)

Section MasherFrames.
Variable env : Env.
Variable Q : World -> Prop.
Hypothesis HQ : trace_blind Q.
Hypothesis Hlock : preserves (in_world Q) (_lock env).

Lemma MashTask_init_keeps id updates repos resume w :
  Q w -> Q (MashTask_init env id updates repos resume w).2.
Proof.
  intros Hw. unfold MashTask_init.
  assert (preserves (in_world Q) (init_calls env)) as Hi.
  { unfold init_calls. preserves_blind HQ; [apply Hlock|by apply find_repos_blind]. }
  specialize (Hi (new_task id updates repos resume, w) Hw).
  by destruct (init_calls env _) as [[?|?|] [self w']].
Qed.

Lemma mash_task_keeps task : preserves (in_world Q) (_mash env task).
Proof.
  intros [m w] Hw. unfold _mash. destruct task as [[[id updates] repos] resume]. cbn.
  pose proof (MashTask_init_keeps id updates repos resume w Hw) as Hi.
  destruct (MashTask_init env id updates repos resume w) as [[th|e|] w']; cbn in *; auto.
  by apply (blind_started _ HQ).
Qed.

Lemma dispatch_keeps : preserves (in_world Q) (dispatch env).
Proof.
  unfold dispatch, pop. preserves_blind HQ. apply mash_task_keeps.
Qed.

Lemma queue_keeps updates repos resume :
  preserves (in_world Q) (queue env updates repos resume).
Proof. unfold queue. preserves_blind HQ. apply dispatch_keeps. Qed.

Lemma done_keeps thread : preserves (in_world Q) (done env thread).
Proof. unfold done. preserves_blind HQ. apply dispatch_keeps. Qed.

Lemma masher_done_keeps : preserves (in_world Q) (masher_done env).
Proof.
  intros [[t m] w] Hw. unfold masher_done.
  pose proof (done_keeps t (m, w) Hw) as Hd.
  by destruct (done env t (m, w)) as [o [m' w']].
Qed.

End MasherFrames.

Section Locks.
Variable env : Env.

Lemma lock_quiet kc mc : preserves (in_world (quiet kc mc)) (_lock env).
Proof.
  pose proof (quiet_trace_blind kc mc) as HQ.
  unfold _lock, resume_title. preserves_blind HQ; intros; by destruct w.
Qed.

(** A lock in place is left as it is by [_lock]. *)
Lemma lock_locked titles : preserves (in_world (locked titles)) (_lock env).
Proof.
  intros [t w] Hw. unfold in_world, locked in *. cbn in Hw. unfold _lock.
  destruct w as [d1 d2 mk kc mc fo st rp lg]. cbn in Hw. subst mk.
  destruct (MashTask.resume t) eqn:E; destruct d1, d2; msimpl; rewrite E; try done.
  all: rewrite (for_each_fold _ _ (resume_title_eq env)); cbn.
  all: match goal with |- MASHING (foldl _ ?s _).2 = _ =>
         destruct (resume_titles_frame env titles s) as (_ & _ & _ & H & _ & _) end.
  all: by rewrite H.
Qed.

Lemma done_quiet thread kc mc : preserves (in_world (quiet kc mc)) (done env thread).
Proof. apply done_keeps; [apply quiet_trace_blind|apply lock_quiet]. Qed.

Lemma done_locked thread titles : preserves (in_world (locked titles)) (done env thread).
Proof. apply done_keeps; [apply locked_trace_blind|apply lock_locked]. Qed.


Lemma masher_done_locked titles : preserves (in_world (locked titles)) (masher_done env).
Proof. apply masher_done_keeps; [apply locked_trace_blind|apply lock_locked]. Qed.

(** A file system call made stays in the trace. *)
Lemma done_op_trace_blind o : trace_blind (done_op o).
Proof.
  split; intros; destruct w; unfold done_op in *; cbn in *; try done.
  apply elem_of_app. by left.
Qed.

Lemma lock_done_op o : preserves (in_world (done_op o)) (_lock env).
Proof.
  pose proof (done_op_trace_blind o) as HQ.
  unfold _lock, resume_title. preserves_blind HQ; intros; by destruct w.
Qed.

Lemma masher_done_done_op o : preserves (in_world (done_op o)) (masher_done env).
Proof. apply masher_done_keeps; [apply done_op_trace_blind|apply lock_done_op]. Qed.

(** [masher.done(self)] does not touch the task that calls it. *)
Lemma masher_done_task s : (masher_done env s).2.1.1 = s.1.1.
Proof.
  destruct s as [[t m] w]. unfold masher_done.
  by destruct (done env t (m, w)) as [o [m' w']].
Qed.

End Locks.

(** ** [run] *)

Section Run.
Variable env : Env.

(** Either handler completes and leaves the task unsuccessful. *)
Lemma handler_result e s :
  (handler env e s).1 = Ok tt /\ MashTask.success (handler env e s).2.1 = false.
Proof.
  unfold handler. destruct (caught_as_Exception env e); destruct s as [[] []]; by msimpl.
Qed.

Lemma on_task_handler e s :
  exists t' w',
    on_task (handler env e) s = (Ok tt, (t', s.1.2, w')) /\
    MashTask.success t' = false /\
    (handler env e (s.1.1, s.2)).2 = (t', w').
Proof.
  destruct s as [[t m] w]. unfold on_task. cbn.
  destruct (handler_result e (t, w)) as [H1 H2].
  destruct (handler env e (t, w)) as [o [t' w']]. cbn in *. subst o. eauto.
Qed.

Lemma run_body_unsafe t m w :
  MashTask.resume t = false ->
  failed_checks env (MashTask.updates t) <> [] ->
  run_body env (MashTask.set_success true t, m, w)
  = (masher_done env;; mret true) (aborting env t m w).
Proof.
  intros Hr Hf. unfold run_body, aborting.
  unfold mbind at 1, M_bind at 1, bind at 1. cbn [on_task get_self fst snd].
  assert (MashTask.resume (MashTask.set_success true t) = false) as -> by by destruct t.
  cbn [negb].
  unfold mbind at 1, M_bind at 1, bind at 1.
  unfold mbind at 1, M_bind at 1, bind at 1.
  unfold on_task at 1. rewrite safe_to_move_eq. cbn [fst snd].
  assert (MashTask.updates (MashTask.set_success true t) = MashTask.updates t) as ->
    by by destruct t.
  set (s := record_errors _ _).
  destruct (record_errors_task (failed_checks env (MashTask.updates t))
              (MashTask.set_success true t, w)) as (_ & Hsafe & _).
  fold s in Hsafe. destruct s as [t1 w1] eqn:Es. cbn [fst snd] in *.
  rewrite Hsafe. destruct (failed_checks env (MashTask.updates t)); [done|].
  reflexivity.
Qed.

Lemma aborting_state t m w :
  failed_checks env (MashTask.updates t) <> [] ->
  let s := aborting env t m w in
  MashTask.success s.1.1 = false /\
  MashTask.errors s.1.1 = MashTask.errors t ++ failed_checks env (MashTask.updates t) /\
  MASHING s.2 = MASHING w /\
  koji_calls s.2 = koji_calls w /\
  mash_cmds s.2 = mash_cmds w.
Proof.
  intros Hf. unfold aborting. cbn zeta.
  set (s := record_errors _ _).
  destruct (record_errors_task (failed_checks env (MashTask.updates t))
              (MashTask.set_success true t, w)) as (H1 & _ & H3 & _).
  destruct (record_errors_world (failed_checks env (MashTask.updates t))
              (MashTask.set_success true t, w)) as (G1 & G2 & G3 & _).
  fold s in H1, H3, G1, G2, G3. destruct s as [t1 [] ] eqn:Es. cbn in *.
  rewrite H1, H3. destruct (failed_checks env (MashTask.updates t)); [done|].
  split; [done|]. split; [by destruct t|]. done.
Qed.

(** After a failed [safe_to_move], [run] does nothing but report to the
    orchestrator: once, or twice when the first report raises. *)
Lemma run_unsafe t m w :
  MashTask.resume t = false ->
  failed_checks env (MashTask.updates t) <> [] ->
  run env (t, m, w)
  = match masher_done env (aborting env t m w) with
    | (Ok _, s) => (Ok tt, s)
    | (Raise e, s) => masher_done env (on_task (handler env e) s).2
    | (Hang, s) => (Hang, s)
    end.
Proof.
  intros Hr Hf. unfold run, run_unlock, run_try.
  unfold mbind at 1, M_bind at 1, bind at 1.
  unfold mbind at 1, M_bind at 1, bind at 1.
  cbn [on_task self_update modify fst snd].
  unfold mbind at 1, M_bind at 1, bind at 1.
  unfold try_except. rewrite run_body_unsafe by done.
  unfold mbind at 1, M_bind at 1, bind at 1.
  destruct (masher_done env (aborting env t m w)) as [[[]|e|] s1]; [done| |done].
  unfold mbind at 1, M_bind at 1, bind at 1.
  destruct (on_task_handler e s1) as (t' & w' & -> & Hs & _).
  cbv [mbind M_bind bind on_task get_self ret when]. cbn. by rewrite Hs.
Qed.


(** The stages leave a lock in place where it is. *)
Lemma move_builds_locked titles : preserves (in_world (locked titles)) (move_builds env).
Proof.
  pose proof (locked_trace_blind titles) as HQ.
  unfold move_builds, move_update, set_destination_tag, move_build.
  preserves_blind HQ; intros; by destruct w.
Qed.

Lemma mash_locked titles : preserves (in_world (locked titles)) (mash env).
Proof.
  pose proof (locked_trace_blind titles) as HQ.
  unfold mash, mash_repo. preserves_blind HQ; intros; by destruct w.
Qed.

Lemma run_body_locked titles : preserves (in_world (locked titles)) (run_body env).
Proof.
  pose proof (locked_trace_blind titles) as HQ.
  destruct (external_stages_blind env (locked titles)) as (E1 & E2 & E3 & E4 & E5).
  unfold run_body, run_stages. preserves_blind HQ;
    first [ by apply safe_to_move_blind | by apply masher_done_locked
          | by apply move_builds_locked | by apply mash_locked
          | by apply update_symlinks_blind | done ].
Qed.

Lemma run_try_locked titles : preserves (in_world (locked titles)) (run_try env).
Proof.
  pose proof (locked_trace_blind titles) as HQ.
  unfold run_try. apply preserves_try_except; [apply run_body_locked|].
  intros e. preserves_blind HQ. by apply handler_blind.
Qed.

Lemma never_true_bind {S A} (c : M S A) (k : A -> M S bool) :
  (forall a, never_true (k a)) -> never_true (c ≫= k).
Proof.
  intros Hk s. unfold mbind, M_bind, bind.
  destruct (c s) as [[a|e|] s']; [apply Hk|done|done].
Qed.

Lemma never_true_ret_false {S} : never_true (mret false : M S bool).
Proof. by intros s. Qed.

Lemma run_stages_never_true : never_true (run_stages env).
Proof.
  unfold run_stages. repeat (apply never_true_bind; intros ?).
  apply never_true_ret_false.
Qed.

(** The try block executes the early [return] only with the task marked
    unsuccessful. *)
Lemma run_body_returned t m w s' :
  MashTask.safe t = true ->
  run_body env (MashTask.set_success true t, m, w) = (Ok true, s') ->
  MashTask.success s'.1.1 = false.
Proof.
  intros Hsafe Hb.
  destruct (MashTask.resume t) eqn:Hr.
  - exfalso. revert Hb. unfold run_body.
    unfold mbind at 1, M_bind at 1, bind at 1. cbn [on_task get_self fst snd].
    assert (MashTask.resume (MashTask.set_success true t) = true) as -> by by destruct t.
    cbn [negb]. unfold mbind at 1, M_bind at 1, bind at 1. cbn [mret M_ret ret].
    intros Hb. apply (run_stages_never_true (MashTask.set_success true t, m, w)). by rewrite Hb.
  - destruct (decide (failed_checks env (MashTask.updates t) = [])) as [Hf|Hf].
    + exfalso. revert Hb. unfold run_body.
      unfold mbind at 1, M_bind at 1, bind at 1. cbn [on_task get_self fst snd].
      assert (MashTask.resume (MashTask.set_success true t) = false) as -> by by destruct t.
      cbn [negb].
      unfold mbind at 1, M_bind at 1, bind at 1.
      unfold mbind at 1, M_bind at 1, bind at 1.
      unfold on_task at 1. rewrite safe_to_move_eq. cbn [fst snd].
      assert (MashTask.updates (MashTask.set_success true t) = MashTask.updates t) as ->
        by by destruct t.
      rewrite Hf. cbn [record_errors foldl fst snd mret M_ret ret].
      assert (MashTask.safe (MashTask.set_success true t) = true) as ->
        by (by destruct t).
      cbn [negb]. intros Hb. apply (run_stages_never_true (MashTask.set_success true t, m, w)). by rewrite Hb.
    + rewrite run_body_unsafe in Hb by done.
      revert Hb. unfold mbind, M_bind, bind.
      pose proof (masher_done_task env (aborting env t m w)) as Ht.
      destruct (masher_done env (aborting env t m w)) as [[[]|e|] s1]; [|done|done].
      intros [= <-]. cbn [fst snd] in Ht. rewrite Ht.
      by destruct (aborting_state t m w Hf) as (H & _).
Qed.

Lemma unlock_locked titles t w :
  MASHING w = Some titles ->
  exists w', _unlock env (t, w) = (Ok tt, (t, w')) /\ MASHING w' = None /\
             Unlink (mash_lock env) ∈ fs_ops w'.
Proof.
  intros Hw. unfold _unlock. msimpl. rewrite Hw. msimpl.
  eexists. split; [done|]. split; [done|].
  apply elem_of_app. right. by apply list_elem_of_singleton.
Qed.

(** [run] up to its last statement, by the result of the try statement. *)
Lemma run_unlock_eq t m w :
  run_unlock env (t, m, w)
  = match run_try env (MashTask.set_success true t, m, w) with
    | (Ok true, s) => (Ok true, s)
    | (Ok false, s) =>
        if MashTask.success s.1.1
        then (on_task (_unlock env);; mret false) s
        else (Ok false, s)
    | (Raise e, s) => (Raise e, s)
    | (Hang, s) => (Hang, s)
    end.
Proof.
  unfold run_unlock. unfold mbind at 1, M_bind at 1, bind at 1.
  cbn [on_task self_update modify fst snd].
  unfold mbind at 1, M_bind at 1, bind at 1.
  destruct (run_try env _) as [[[]|e|] [[t' m'] w']]; try done.
  cbv [mbind M_bind bind on_task get_self ret when]. cbn.
  by destruct (MashTask.success t').
Qed.

(** An exception of the try block is handled: the try statement completes
    and the task is unsuccessful. *)
Lemma run_try_of_raise s0 e :
  (run_body env s0).1 = Raise e ->
  exists s2, run_try env s0 = (Ok false, s2) /\ MashTask.success s2.1.1 = false.
Proof.
  intros Hb. unfold run_try, try_except.
  destruct (run_body env s0) as [o s1]. cbn in Hb. subst o.
  unfold mbind, M_bind, bind.
  destruct (on_task_handler e s1) as (t' & w' & -> & Hs & _).
  eexists. split; [reflexivity|done].
Qed.

Lemma run_try_returned t m w s :
  MashTask.safe t = true ->
  run_try env (MashTask.set_success true t, m, w) = (Ok true, s) ->
  MashTask.success s.1.1 = false.
Proof.
  intros Hsafe. unfold run_try, try_except.
  destruct (run_body env _) as [[[]|e|] s0] eqn:Eb; try done.
  - intros [= <-]. by eapply run_body_returned.
  - unfold mbind, M_bind, bind.
    by destruct (on_task_handler e s0) as (t' & w' & -> & Hs & _).
Qed.

Lemma run_try_never_raises s0 e s : run_try env s0 <> (Raise e, s).
Proof.
  unfold run_try, try_except.
  destruct (run_body env s0) as [[b|e'|] s1]; try done.
  unfold mbind, M_bind, bind.
  by destruct (on_task_handler e' s1) as (t' & w' & -> & Hs & _).
Qed.

Lemma run_eq s0 :
  run env s0
  = match run_unlock env s0 with
    | (Ok true, s) => (Ok tt, s)
    | (Ok false, s) => masher_done env s
    | (Raise e, s) => (Raise e, s)
    | (Hang, s) => (Hang, s)
    end.
Proof.
  unfold run, mbind, M_bind, bind.
  by destruct (run_unlock env s0) as [[[]|e|] s].
Qed.

(** C8: for a run that starts with the MASHING lock in place and the
    [safe] flag set (the state the constructor leaves), the lock is
    removed exactly when the run reaches its last statement with
    [success] set: then the lock is gone when [masher.done] is called, and
    its [unlink] stays in the trace (after it, [masher.done] may construct
    the next task, which writes a lock of its own); in every other case (a
    failed check, an error logged by a stage, an exception in any stage, a
    stage that never returns) the lock is still in place, with its titles,
    at the last statement and after it.  An exception in the try block
    always leaves [success] unset. *)
Theorem C8_lock_removed_iff_success t m w titles :
  MASHING w = Some titles ->
  MashTask.safe t = true ->
  let r1 := run_unlock env (t, m, w) in
  let r := run env (t, m, w) in
  MashTask.success r.2.1.1 = MashTask.success r1.2.1.1 /\
  (if returns r1.1 && MashTask.success r1.2.1.1
   then MASHING r1.2.2 = None /\ Unlink (mash_lock env) ∈ fs_ops r.2.2
   else MASHING r1.2.2 = Some titles /\ MASHING r.2.2 = Some titles) /\
  (forall e, (run_body env (MashTask.set_success true t, m, w)).1 = Raise e ->
             MashTask.success r1.2.1.1 = false).
Proof.
  intros HM Hsafe. cbn zeta. rewrite run_eq, run_unlock_eq.
  assert (in_world (locked titles) (MashTask.set_success true t, m, w)) as HM' by done.
  pose proof (run_try_locked titles _ HM') as Hl.
  pose proof (run_try_returned t m w) as Hret.
  pose proof (run_try_never_raises (MashTask.set_success true t, m, w)) as Hnr.
  pose proof (run_try_of_raise (MashTask.set_success true t, m, w)) as Hraise.
  destruct (run_try env _) as [[[]|e|] s] eqn:Etry; cbn [fst snd] in *.
  - rewrite (Hret s Hsafe eq_refl). cbn. repeat split; try done.
  - destruct (MashTask.success s.1.1) eqn:Es.
    + destruct s as [[t' m'] w']. cbn [fst snd] in *.
      destruct (unlock_locked titles t' w' Hl) as (w'' & Hu & Hnone & Hop).
      unfold mbind, M_bind, bind. unfold on_task. rewrite Hu.
      cbn [returns fst snd mret M_ret ret]. rewrite Es. cbn [andb].
      split; [|split; [split; [done|]|]].
      * by rewrite masher_done_task.
      * by apply (masher_done_done_op env (Unlink (mash_lock env)) (t', m', w'')).
      * intros e He. destruct (Hraise e He) as (s2 & [= <-] & Hs2). cbn in Hs2.
        congruence.
    + cbn [returns fst snd]. rewrite Es. cbn [andb].
      split; [by rewrite masher_done_task|]. split; [|done].
      split; [done|]. by apply masher_done_locked.
  - by destruct (Hnr e s).
  - cbn. repeat split; try done.
    intros e He. destruct (Hraise e He) as (s2 & [=] & _).
Qed.

End Run.

(** ** The orchestrator *)

Ltac msimpl_masher :=
  cbv [mbind M_bind bind mret M_ret ret when get_masher masher_update
       outside_update modify raise get];
  cbn.

Lemma length_remove_first x l : (List.length (remove_first x l) <= List.length l)%nat.
Proof.
  induction l as [|y l IH]; cbn; [lia|].
  destruct (Nat.eqb x y); cbn; lia.
Qed.

Lemma remove_first_singleton x : remove_first x [x] = [].
Proof. cbn. by rewrite Nat.eqb_refl. Qed.

Section Orchestrator.
Variable env : Env.

(** Constructing a task starts no thread and mails no report. *)
Lemma MashTask_init_registry id updates repos resume w :
  let w' := (MashTask_init env id updates repos resume w).2 in
  started w' = started w /\ reports w' = reports w.
Proof.
  cbn zeta. unfold MashTask_init.
  assert (preserves (in_world (registry (started w) (reports w))) (init_calls env)) as Hi.
  { unfold init_calls, _lock, resume_title, _find_repos, find_repos_of, repos_add.
    repeat preserves_step; try (intros; by destruct w0). }
  specialize (Hi (new_task id updates repos resume, w) (conj eq_refl eq_refl)).
  by destruct (init_calls env _) as [[?|?|] [self w']].
Qed.

(** [_mash] either starts the thread it constructed and registers it, or
    passes the constructor's exception on and registers nothing. *)
Lemma mash_task_cases task m w :
  let r := _mash env task (m, w) in
  (exists th,
     r.1 = Ok tt /\
     Masher._threads r.2.1 = Masher._threads m ++ [MashTask.id th] /\
     started r.2.2 = started w ++ [th]) \/
  (r.1 <> Ok tt /\
   Masher._threads r.2.1 = Masher._threads m /\
   started r.2.2 = started w).
Proof.
  cbn zeta. unfold _mash. destruct task as [[[id updates] repos] resume]. cbn [snd fst].
  destruct (MashTask_init_registry id updates repos resume w) as [Hs _].
  destruct (MashTask_init env id updates repos resume w) as [[th|e|] w']; cbn in Hs.
  - left. exists th. msimpl_masher. by rewrite Hs.
  - right. by cbn.
  - right. by cbn.
Qed.

Lemma mash_task_frame task m w :
  let r := _mash env task (m, w) in
  Masher._queue r.2.1 = Masher._queue m /\
  Masher.thread_id r.2.1 = Masher.thread_id m /\
  reports r.2.2 = reports w.
Proof.
  cbn zeta. unfold _mash. destruct task as [[[id updates] repos] resume]. cbn [snd fst].
  destruct (MashTask_init_registry id updates repos resume w) as [_ Hr].
  destruct (MashTask_init env id updates repos resume w) as [[th|e|] w']; cbn in Hr;
    msimpl_masher; by destruct w'.
Qed.

(** With no thread registered and a request queued, [dispatch] takes the
    request at the end of the queue, the one queued last. *)
Lemma dispatch_idle m w q r :
  Masher._threads m = [] ->
  Masher._queue m = q ++ [r] ->
  dispatch env (m, w) = _mash env r (Masher.set_queue q m, w).
Proof.
  intros Ht Hq. unfold dispatch, pop.
  cbv [mbind M_bind bind mret M_ret ret when get_masher masher_update modify raise].
  cbn [fst snd]. rewrite Ht, Hq, length_app. cbn [List.length Nat.eqb negb].
  replace (List.length q + 1)%nat with (S (List.length q)) by lia.
  cbn [Nat.eqb negb fst snd]. rewrite Hq, reverse_snoc, reverse_involutive. done.
Qed.

Lemma dispatch_busy m w :
  Masher._threads m <> [] -> dispatch env (m, w) = (Ok tt, (m, w)).
Proof.
  intros Ht. unfold dispatch. msimpl_masher. by destruct (Masher._threads m).
Qed.

Lemma dispatch_empty m w :
  Masher._queue m = [] -> dispatch env (m, w) = (Ok tt, (m, w)).
Proof.
  intros Hq. unfold dispatch. msimpl_masher. rewrite Hq.
  by destruct (Masher._threads m).
Qed.

(** [dispatch] starts a thread only when none is registered, and then the
    new thread is the only one. *)
Lemma dispatch_cases m w :
  let r := dispatch env (m, w) in
  (Masher._threads r.2.1 = Masher._threads m /\ started r.2.2 = started w) \/
  (Masher._threads m = [] /\
   exists th, Masher._threads r.2.1 = [MashTask.id th] /\ started r.2.2 = started w ++ [th]).
Proof.
  cbn zeta. destruct (decide (Masher._threads m = [])) as [Ht|Ht].
  - destruct (Masher._queue m) as [|r0 q0] eqn:Hq.
    + rewrite dispatch_empty by done. by left.
    + destruct (exists_last (l := r0 :: q0)) as (q & r & Hqr); [done|].
      rewrite Hqr in Hq. rewrite (dispatch_idle m w q r Ht Hq).
      destruct (mash_task_cases r (Masher.set_queue q m) w)
        as [(th & _ & H1 & H2)|(_ & H1 & H2)].
      * right. split; [done|]. exists th. rewrite H1, H2. split; [|done].
        destruct m. cbn in *. by subst.
      * left. rewrite H1, H2. split; [|done]. by destruct m.
  - rewrite dispatch_busy by done. by left.
Qed.

(** One call: the threads registered after it, and the threads started. *)
Lemma call_cases c s :
  let s' := (call env c s).2 in
  ((List.length (Masher._threads s'.1) <= List.length (Masher._threads s.1))%nat /\
   started s'.2 = started s.2) \/
  (exists th, Masher._threads s'.1 = [MashTask.id th] /\ started s'.2 = started s.2 ++ [th]).
Proof.
  cbn zeta. destruct s as [m w]. destruct c as [updates repos resume|thread|marker]; cbn [call].
  - unfold queue. msimpl_masher.
    match goal with |- context [dispatch env (?m1, ?w1)] =>
      destruct (dispatch_cases m1 w1) as [[H1 H2]|(H0 & th & H1 & H2)] end.
    + left. rewrite H1, H2. by destruct m.
    + right. exists th. rewrite H1, H2. by destruct m, w.
  - unfold done. msimpl_masher.
    destruct (bool_decide (MashTask.id thread ∈ Masher._threads m)) eqn:E; cbn.
    + match goal with |- context [dispatch env (?m1, ?w1)] =>
        destruct (dispatch_cases m1 w1) as [[H1 H2]|(H0 & th & H1 & H2)] end.
      * left. rewrite H1, H2. destruct m, w; cbn. split; [|done].
        apply length_remove_first.
      * right. exists th. rewrite H1, H2. by destruct m, w.
    + left. by destruct m, w.
  - left. by destruct m, w.
Qed.

Lemma calls_snoc cs c s : calls env (cs ++ [c]) s = (call env c (calls env cs s)).2.
Proof. unfold calls. by rewrite foldl_app. Qed.

(** C2: from the orchestrator as constructed, after any sequence of
    [queue] and [done] calls (with any arguments, the lock file changing in
    between in any way) at most one thread is registered as running; and a
    call starts a thread only with no thread registered, so that the new
    thread is then the only one. *)
Theorem C2_at_most_one_running cs w :
  let s := calls env cs (Masher_init, w) in
  (List.length (Masher._threads s.1) <= 1)%nat /\
  forall c,
    let s' := (call env c s).2 in
    started s'.2 = started s.2 \/
    exists th, started s'.2 = started s.2 ++ [th] /\
               Masher._threads s'.1 = [MashTask.id th].
Proof.
  cbn zeta. split.
  - induction cs as [|c cs IH] using rev_ind; [cbn; lia|].
    rewrite calls_snoc.
    destruct (call_cases c (calls env cs (Masher_init, w))) as [[H1 _]|(th & H1 & _)].
    + lia.
    + rewrite H1. cbn. lia.
  - intros c.
    destruct (call_cases c (calls env cs (Masher_init, w))) as [[_ H2]|(th & H1 & H2)];
      eauto.
Qed.

End Orchestrator.

(** ** The order of dispatch *)

(** C1: three requests are submitted; the first starts at once and the
    other two wait, the older one ahead in the queue.  When the first thread
    reports its completion, the request started is the third one, not the
    second: [pop()] takes the last item of the queue.  The same happens
    when the first thread's [run] is carried out in full (it succeeds,
    removes its lock and calls [masher.done]). *)
Example C1_dispatch_takes_newest :
  let submitted := calls example_env
                     [call_queue [foo_update] [] false;
                      call_queue [bar_update] [] false;
                      call_queue [baz_update] [] false]
                     (Masher_init, idle_world) in
  let s := calls example_env [lock_changes None; call_done first_thread] submitted in
  let r := run example_env (first_thread, submitted.1, submitted.2) in
  started_ids submitted.2 = [0%nat] /\ queued_ids submitted.1 = [1; 2]%nat /\
  started_ids s.2 = [0; 2]%nat /\ queued_ids s.1 = [1%nat] /\
  Masher._threads s.1 = [2%nat] /\
  r.1 = Ok tt /\ MashTask.success r.2.1.1 = true /\
  started_ids r.2.2 = [0; 2]%nat /\ queued_ids r.2.1.2 = [1%nat].
Proof. vm_compute. repeat split. Qed.

(** ** Publishing *)

(** The guard of the relocation compares [mashed_dir] with itself. *)
Lemma relocation_guard (env : Env) :
  negb (String.eqb (mashed_dir env) (mashed_dir env)) = false.
Proof. by rewrite String.eqb_refl. Qed.

(** With any arch configured, the membership test of the arch loop raises
    before any check is made. *)
Lemma check_arches_raises (env : Env) newrepo listed s :
  arches env <> [] -> check_arches env newrepo listed s = (Raise TypeError, s).
Proof.
  unfold check_arches. destruct (arches env) as [|arch rest]; [done|]. intros _.
  reflexivity.
Qed.

(** C7: a composed repository that passes every check, with a staging
    root different from the mashing directory.  [update_symlinks] renames
    the arch directory and points the live symlink at the tree inside the
    mashing directory; the tree is not moved to the staging root. *)
Example C7_tree_is_not_relocated :
  let r := update_symlinks example_env (composed_task, idle_world) in
  r.1 = Ok tt /\
  MashTask.errors r.2.1 = [] /\
  String.eqb (mashed_dir example_env) (mashed_stage_dir example_env) = false /\
  fs_ops r.2.2
  = [ Move "/mashed/f8-updates-testing-081104.1200/f8-updates-testing/i386"
           "/mashed/f8-updates-testing-081104.1200/f8-updates-testing/i386.newkey";
      Symlink "/mashed/f8-updates-testing-081104.1200/f8-updates-testing"
              "/mashed/f8-updates-testing" ].
Proof. vm_compute. repeat split. Qed.

(** ** A request whose pipeline cannot be constructed *)

Section FailedDispatch.
Variable env : Env.

(** [done] for the only running thread, with the lock still in place and a
    request without [resume] at the end of the queue. *)
Lemma done_dispatch_fails thread m w q k us rs titles :
  MASHING w = Some titles ->
  Masher._queue m = q ++ [(k, us, rs, false)] ->
  Masher._threads m = [MashTask.id thread] ->
  exists w1,
    done env thread (m, w)
    = (Raise (MashTaskException ""),
       (Masher.set_queue q
          (Masher.set_threads []
             (Masher.set_last_log (MashTask.log thread) (Masher.set_mashing false m))),
        w1)) /\
    MASHING w1 = Some titles /\
    started w1 = started w /\
    reports w1 = reports w ++ [MashTask.id thread].
Proof.
  intros HM Hq Ht. unfold done.
  cbv [mbind M_bind bind mret M_ret ret get_masher masher_update outside_update
       modify raise]. cbn [fst snd].
  assert (Masher._threads
            (Masher.set_last_log (MashTask.log thread) (Masher.set_mashing false m))
          = [MashTask.id thread]) as -> by (by destruct m).
  rewrite bool_decide_true by (by apply list_elem_of_singleton).
  rewrite remove_first_singleton.
  match goal with |- context [dispatch env (?m1, ?w1)] =>
    rewrite (dispatch_idle env m1 w1 q (k, us, rs, false)) by (by destruct m) end.
  unfold _mash. cbn [fst snd].
  match goal with |- context [MashTask_init env k us rs false ?w1] =>
    destruct (init_no_resume_locked env k us rs w1 titles)
      as (w' & -> & H1 & _ & _ & _ & H2 & H3); [by destruct w|] end.
  exists w'. split; [by destruct m|]. split; [done|]. rewrite H2, H3. by destruct w.
Qed.



(** [_mash] starts at most the thread of the request it was given. *)
Lemma mash_task_started task m w :
  let r := _mash env task (m, w) in
  started_ids r.2.2 = started_ids w \/
  started_ids r.2.2 = started_ids w ++ [task.1.1.1].
Proof.
  cbn zeta. unfold _mash. destruct task as [[[id updates] repos] resume]. cbn [snd fst].
  destruct (MashTask_init_registry env id updates repos resume w) as [Hs _].
  pose proof (constructed_task env id updates repos resume w) as Hc.
  destruct (MashTask_init env id updates repos resume w) as [[th|e|] w']; cbn in Hs.
  - right. destruct (Hc th w' eq_refl) as (_ & _ & _ & Hid & _).
    unfold started_ids. msimpl_masher. by rewrite Hs, map_app, <- Hid.
  - left. unfold started_ids. cbn. by rewrite Hs.
  - left. unfold started_ids. cbn. by rewrite Hs.
Qed.





End FailedDispatch.


(** ** The theorems at the small installation *)

(** C3 at the small installation: a push without [resume] against the lock
    of an unfinished push. *)
Lemma C3_witness :
  MASHING locked_world = Some ["foo-1.0-1.fc8"; "gone-0.1-1.fc8"] /\
  exists w',
    MashTask_init example_env 1 [baz_update] [] false locked_world
    = (Raise (MashTaskException ""), w') /\
    MASHING w' = Some ["foo-1.0-1.fc8"; "gone-0.1-1.fc8"] /\
    koji_calls w' = koji_calls locked_world /\
    mash_cmds w' = mash_cmds locked_world /\
    fs_ops w' = fs_ops locked_world ++ lock_dirs example_env locked_world /\
    started w' = started locked_world.
Proof.
  split; [reflexivity|].
  apply (C3_no_resume_with_lock_fails example_env 1 [baz_update] [] locked_world
           ["foo-1.0-1.fc8"; "gone-0.1-1.fc8"]).
  reflexivity.
Defined.

(** C4 at the small installation: the lock names one update that resolves
    and one that does not. *)
Lemma C4_witness :
  MASHING locked_world = Some ["foo-1.0-1.fc8"; "gone-0.1-1.fc8"] /\
  exists self w',
    MashTask_init example_env 1 [baz_update] [] true locked_world = (Ok self, w') /\
    (forall u, u ∈ MashTask.updates self <->
               u ∈ [baz_update] \/
               exists up, up ∈ ["foo-1.0-1.fc8"; "gone-0.1-1.fc8"] /\
                          byTitle example_env up = Some u) /\
    (forall up, up ∈ ["foo-1.0-1.fc8"; "gone-0.1-1.fc8"] ->
                byTitle example_env up = None ->
                (WARNING, "Cannot find " +:+ up) ∈ logged w') /\
    MASHING w' = Some ["foo-1.0-1.fc8"; "gone-0.1-1.fc8"].
Proof.
  split; [reflexivity|].
  apply (C4_resume_unions_lock_titles example_env 1 [baz_update] [] locked_world
           ["foo-1.0-1.fc8"; "gone-0.1-1.fc8"]).
  reflexivity.
Defined.


(** C8 at the small installation: the run of the first thread, with the
    lock in place. *)
Lemma C8_witness :
  MASHING locked_world = Some ["foo-1.0-1.fc8"; "gone-0.1-1.fc8"] /\
  MashTask.safe first_thread = true /\
  let r1 := run_unlock example_env (first_thread, busy_masher, locked_world) in
  let r := run example_env (first_thread, busy_masher, locked_world) in
  MashTask.success r.2.1.1 = MashTask.success r1.2.1.1 /\
  (if returns r1.1 && MashTask.success r1.2.1.1
   then MASHING r1.2.2 = None /\ Unlink (mash_lock example_env) ∈ fs_ops r.2.2
   else MASHING r1.2.2 = Some ["foo-1.0-1.fc8"; "gone-0.1-1.fc8"] /\
        MASHING r.2.2 = Some ["foo-1.0-1.fc8"; "gone-0.1-1.fc8"]) /\
  (forall e,
     (run_body example_env (MashTask.set_success true first_thread, busy_masher,
                            locked_world)).1 = Raise e ->
     MashTask.success r1.2.1.1 = false).
Proof.
  split; [reflexivity|]. split; [reflexivity|].
  apply (C8_lock_removed_iff_success example_env first_thread busy_masher locked_world
           ["foo-1.0-1.fc8"; "gone-0.1-1.fc8"]); reflexivity.
Defined.


(** C10 at the small installation: an update to unpush, processed after an
    update on its way to testing, is tagged with the testing tag. *)
Lemma C10_witness :
  MashTask.updates unpush_task = [foo_update] ++ bar_update :: [] /\
  recomputes bar_update = false /\
  MashTask.tag unpush_task = None /\
  left_by_earlier [foo_update] = Some "dist-f8-updates-testing" /\
  let r := move_builds example_env (unpush_task, idle_world) in
  let tg := left_by_earlier [foo_update] in
  MashTask.actions r.2.1
  = MashTask.actions unpush_task ++ map snd (plan [foo_update] None)
      ++ map (fun b => (nvr b, get_build_tag bar_update, tg)) (builds bar_update)
      ++ map snd (plan [] tg) /\
  koji_calls r.2.2
  = koji_calls idle_world ++ map fst (plan [foo_update] None)
      ++ map (planned_call tg (get_build_tag bar_update)) (builds bar_update)
      ++ map fst (plan [] tg).
Proof.
  split; [reflexivity|]. split; [reflexivity|]. split; [reflexivity|].
  split; [reflexivity|].
  apply (C10_other_requests_reuse_tag example_env unpush_task idle_world
           [foo_update] bar_update []); reflexivity.
Defined.

(** * Further properties of the code *)

(** ** Sets kept as lists *)

Lemma NoDup_set_add `{EqDecision A} (x : A) (s : list A) :
  NoDup s -> NoDup (set_add x s).
Proof.
  intros Hs. unfold set_add. destruct (decide (x ∈ s)) as [Hin|Hin]; [done|].
  apply NoDup_app. split; [done|]. split.
  - intros y Hy Hy'. apply list_elem_of_singleton in Hy'. by subst.
  - apply NoDup_singleton.
Qed.

Lemma foldl_set_add_extends `{EqDecision A} (xs s : list A) :
  exists added, foldl (fun s u => set_add u s) s xs = s ++ added.
Proof.
  revert s. induction xs as [|x xs IH]; intros s; cbn.
  - exists []. by rewrite app_nil_r.
  - destruct (IH (set_add x s)) as [added ->]. unfold set_add.
    destruct (decide (x ∈ s)); [by exists added|].
    exists ([x] ++ added). by rewrite app_assoc.
Qed.

Lemma NoDup_foldl_set_add `{EqDecision A} (xs s : list A) :
  NoDup s -> NoDup (foldl (fun s u => set_add u s) s xs).
Proof.
  revert s. induction xs as [|x xs IH]; intros s Hs; cbn; [done|].
  by apply IH, NoDup_set_add.
Qed.


Lemma elem_of_as_set `{EqDecision A} (l : list A) (x : A) : x ∈ as_set l <-> x ∈ l.
Proof. unfold as_set. rewrite elem_of_foldl_set_add, elem_of_nil. tauto. Qed.

(** ** [_find_repos] *)

Lemma find_repos_steps_repos resume us s r :
  r ∈ MashTask.repos (foldl (find_repos_step resume) s us).1 <->
  r ∈ MashTask.repos s.1 \/ exists u, u ∈ us /\ r ∈ repos_for resume u.
Proof.
  revert s. induction us as [|u us IH]; intros s; cbn [foldl].
  - split; [auto|]. intros [?|(u & Hu & _)]; [done|]. by apply elem_of_nil in Hu.
  - rewrite IH. unfold find_repos_step. cbn [fst snd].
    assert (MashTask.repos
              (MashTask.set_repos
                 (foldl (fun rs r0 => set_add r0 rs) (MashTask.repos s.1) (repos_for resume u))
                 s.1)
            = foldl (fun rs r0 => set_add r0 rs) (MashTask.repos s.1) (repos_for resume u))
      as -> by (by destruct s as [[] ?]).
    rewrite elem_of_foldl_set_add. setoid_rewrite elem_of_cons. naive_solver.
Qed.

Lemma find_repos_steps_extend resume us s :
  exists added,
    MashTask.repos (foldl (find_repos_step resume) s us).1 = MashTask.repos s.1 ++ added /\
    (NoDup (MashTask.repos s.1) ->
     NoDup (MashTask.repos (foldl (find_repos_step resume) s us).1)).
Proof.
  revert s. induction us as [|u us IH]; intros s; cbn [foldl].
  - exists []. by rewrite app_nil_r.
  - destruct (IH (find_repos_step resume s u)) as (added & -> & Hnd).
    unfold find_repos_step in Hnd |- *. cbn [fst snd] in *.
    assert (forall l, MashTask.repos (MashTask.set_repos l s.1) = l) as E
      by (by destruct s as [[] ?]).
    rewrite E in Hnd |- *.
    destruct (foldl_set_add_extends (repos_for resume u) (MashTask.repos s.1)) as [a1 Ha].
    rewrite Ha in Hnd |- *. exists (a1 ++ added). split; [by rewrite app_assoc|].
    intros Hs. apply Hnd. rewrite <- Ha. by apply NoDup_foldl_set_add.
Qed.

(** X1: [_find_repos] completes; it keeps the repositories the task was given,
    in their order, adds the ones the updates ask for behind them, and
    introduces no duplicate.  It touches nothing else. *)
Theorem find_repos_keeps_given s :
  let r := _find_repos s in
  r.1 = Ok tt /\
  (exists added, MashTask.repos r.2.1 = MashTask.repos s.1 ++ added) /\
  (NoDup (MashTask.repos s.1) -> NoDup (MashTask.repos r.2.1)) /\
  MashTask.updates r.2.1 = MashTask.updates s.1 /\
  r.2.2 = s.2.
Proof.
  cbn zeta. rewrite find_repos_eq. cbn [fst snd].
  destruct (find_repos_steps_extend (MashTask.resume s.1) (MashTask.updates s.1) s)
    as (added & Ha & Hnd).
  destruct (find_repos_steps_frame (MashTask.resume s.1) (MashTask.updates s.1) s)
    as (Hu & _ & _ & _ & _ & Hw).
  split; [done|]. split; [by exists added|]. auto.
Qed.

(** X2: When resuming, the repositories to compose are the ones given and, for
    every update, both the updates and the updates-testing repository of its
    release, whatever the update's request and status. *)
Theorem find_repos_resume s r :
  MashTask.resume s.1 = true ->
  r ∈ MashTask.repos (_find_repos s).2.1 <->
  r ∈ MashTask.repos s.1 \/
  exists u, u ∈ MashTask.updates s.1 /\
            (r = release_of u +:+ "-updates" \/ r = release_of u +:+ "-updates-testing").
Proof.
  intros Hr. rewrite find_repos_eq. cbn [fst snd]. rewrite find_repos_steps_repos, Hr.
  unfold repos_for, release_of. setoid_rewrite elem_of_cons.
  setoid_rewrite list_elem_of_singleton. naive_solver.
Qed.

Lemma repos_for_no_resume u r :
  r ∈ repos_for false u <->
  (r = release_of u +:+ "-updates" /\
   (request u = Some "stable" \/ (request u = Some "obsolete" /\ status u = "stable"))) \/
  (r = release_of u +:+ "-updates-testing" /\
   (request u = Some "testing" \/
    (status u = "testing" /\ (request u = Some "stable" \/ request u = Some "obsolete")))).
Proof.
  unfold repos_for, release_of, request_is, status_is.
  repeat case_bool_decide;
    rewrite ?elem_of_cons, ?list_elem_of_singleton, ?elem_of_nil;
    split; intros H'; repeat first [destruct_or! | destruct_and!];
    try congruence; try done; subst; auto 6.
Qed.

(** X3: When not resuming, the updates repository of a release is composed for
    an update requested stable, or obsoleted from stable; the
    updates-testing repository for an update requested testing, or
    requested stable or obsoleted while in testing.  An update with any
    other request ([unpush], none) asks for no repository. *)
Theorem find_repos_no_resume s r :
  MashTask.resume s.1 = false ->
  r ∈ MashTask.repos (_find_repos s).2.1 <->
  r ∈ MashTask.repos s.1 \/
  exists u, u ∈ MashTask.updates s.1 /\
    ((r = release_of u +:+ "-updates" /\
      (request u = Some "stable" \/
       (request u = Some "obsolete" /\ status u = "stable"))) \/
     (r = release_of u +:+ "-updates-testing" /\
      (request u = Some "testing" \/
       (status u = "testing" /\
        (request u = Some "stable" \/ request u = Some "obsolete"))))).
Proof.
  intros Hr. rewrite find_repos_eq. cbn [fst snd]. rewrite find_repos_steps_repos, Hr.
  by setoid_rewrite repos_for_no_resume.
Qed.

(** ** Construction without a lock; [_unlock] *)

Section MoreConstruction.
Variable env : Env.

(** Construction with no lock in place. *)
Lemma init_no_lock id us rs resume w :
  MASHING w = None ->
  exists self w',
    MashTask_init env id us rs resume w = (Ok self, w') /\
    MashTask.updates self = as_set us /\
    MashTask.id self = id /\
    MashTask.resume self = resume /\
    MASHING w' = Some (map title (as_set us)) /\
    fs_ops w' = fs_ops w ++ lock_dirs env w ++ [WriteFile (mash_lock env)] /\
    koji_calls w' = koji_calls w /\
    started w' = started w /\
    reports w' = reports w.
Proof.
  intros HM. unfold MashTask_init, init_calls.
  assert (exists w1,
            (_lock env (new_task id us rs resume, w)) = (Ok tt, (new_task id us rs resume, w1)) /\
            MASHING w1 = Some (map title (as_set us)) /\
            fs_ops w1 = fs_ops w ++ lock_dirs env w ++ [WriteFile (mash_lock env)] /\
            koji_calls w1 = koji_calls w /\ started w1 = started w /\ reports w1 = reports w)
    as (w1 & Hl & H1 & H2 & H3 & H4 & H5).
  { unfold _lock, lock_dirs. destruct w as [d1 d2 mk kc mc fo st rp lg]. cbn in HM. subst mk.
    destruct d1, d2; msimpl; eexists; (split; [reflexivity|]); cbn;
      rewrite <- ?app_assoc; auto 10. }
  unfold mbind, M_bind, bind. rewrite Hl, find_repos_eq.
  destruct (find_repos_steps_frame resume (as_set us) (new_task id us rs resume, w1))
    as (F1 & _ & _ & F2 & F3 & F4).
  cbn [fst snd new_task MashTask.resume MashTask.updates] in *.
  fold (as_set us).
  destruct (foldl (find_repos_step resume) _ (as_set us)) as [self w'].
  cbn [fst snd] in *. subst w'. exists self, w1. auto 10.
Qed.


(** X5: The lock round trip: a push that is constructed writes a lock from
    which a later push with [resume] gets the same updates back, provided
    every title still resolves to its update. *)
Theorem lock_resume_round_trip i j us rs rs' resume w :
  MASHING w = None ->
  (forall u, u ∈ us -> byTitle env (title u) = Some u) ->
  exists a w1 b w2,
    MashTask_init env i us rs resume w = (Ok a, w1) /\
    MashTask_init env j [] rs' true w1 = (Ok b, w2) /\
    (forall u, u ∈ MashTask.updates b <-> u ∈ MashTask.updates a) /\
    (forall u, u ∈ MashTask.updates b <-> u ∈ us) /\
    MASHING w2 = MASHING w1.
Proof.
  intros HM Hres.
  destruct (init_no_lock i us rs resume w HM)
    as (a & w1 & E & Hu & _ & _ & H1 & _).
  destruct (init_resume_locked env j [] rs' w1 _ H1) as (b & w2 & E2 & Hb & _ & H2 & _).
  exists a, w1, b, w2. split; [done|]. split; [done|].
  assert (forall u, u ∈ MashTask.updates b <-> u ∈ us) as Hbu.
  { intros u. rewrite Hb, elem_of_nil. split.
    - intros [[]|(up & Hup & Hr)].
      apply list_elem_of_fmap in Hup as (u0 & -> & Hu0).
      rewrite elem_of_as_set in Hu0. rewrite (Hres u0 Hu0) in Hr. by simplify_eq.
    - intros Hin. right. exists (title u). split; [|by apply Hres].
      apply list_elem_of_fmap. exists u. split; [done|]. by rewrite elem_of_as_set. }
  split; [|split; [done|congruence]].
  intros u. rewrite Hbu, Hu. symmetry. apply elem_of_as_set.
Qed.


End MoreConstruction.

(** ** Submitting and reporting *)

Section Submissions.
Variable env : Env.

(** X7: A submission while a thread is registered is queued behind the
    waiting requests, with the next identifier, and nothing else happens:
    no task is constructed, no thread starts, the world is untouched. *)
Theorem queue_while_busy us rs resume m w :
  Masher._threads m <> [] ->
  queue env us rs resume (m, w)
  = (Ok tt,
     (Masher.set_thread_id (Masher.thread_id m + 1)%nat
        (Masher.set_queue (Masher._queue m ++ [(Masher.thread_id m, us, rs, resume)]) m),
      w)).
Proof.
  intros Ht. unfold queue.
  cbv [mbind M_bind bind mret M_ret ret get_masher masher_update outside_update
       modify raise]. cbn [fst snd].
  rewrite dispatch_busy; [done|]. by destruct m.
Qed.

Lemma queue_idle_no_lock us rs resume m w :
  Masher._threads m = [] ->
  MASHING w = None ->
  exists th w',
    MashTask_init env (Masher.thread_id m) us rs resume w = (Ok th, w') /\
    queue env us rs resume (m, w)
    = (Ok tt,
       (Masher.set_mashing true
          (Masher.set_threads [Masher.thread_id m]
             (Masher.set_thread_id (Masher.thread_id m + 1)%nat m)),
        add_started th w')).
Proof.
  intros Ht HM. unfold queue.
  cbv [mbind M_bind bind mret M_ret ret get_masher masher_update outside_update
       modify raise]. cbn [fst snd].
  match goal with |- context [dispatch env (?m1, ?w1)] =>
    rewrite (dispatch_idle env m1 w1 (Masher._queue m)
               (Masher.thread_id m, us, rs, resume)) by (by destruct m) end.
  unfold _mash. cbn [fst snd].
  destruct (init_no_lock env (Masher.thread_id m) us rs resume w HM)
    as (th & w' & E & _ & Hid & _).
  exists th, w'. split; [done|]. rewrite E.
  cbv [mbind M_bind bind mret M_ret ret get_masher masher_update outside_update
       modify raise]. cbn [fst snd].
  destruct m. cbn in *. by subst.
Qed.

(** X8: A submission to an idle orchestrator with no lock in place is started at
    once, whatever its [resume] flag: its thread is the only one registered,
    the requests already waiting stay where they are, and the lock holds the
    titles of its updates. *)
Theorem queue_while_idle_starts us rs resume m w :
  Masher._threads m = [] ->
  MASHING w = None ->
  let r := queue env us rs resume (m, w) in
  r.1 = Ok tt /\
  Masher._threads r.2.1 = [Masher.thread_id m] /\
  Masher._queue r.2.1 = Masher._queue m /\
  Masher.thread_id r.2.1 = (Masher.thread_id m + 1)%nat /\
  Masher.mashing r.2.1 = true /\
  started_ids r.2.2 = started_ids w ++ [Masher.thread_id m] /\
  MASHING r.2.2 = Some (map title (as_set us)).
Proof.
  intros Ht HM. cbn zeta.
  destruct (queue_idle_no_lock us rs resume m w Ht HM) as (th & w' & E & ->).
  destruct (init_no_lock env (Masher.thread_id m) us rs resume w HM)
    as (th' & w'' & E' & _ & Hid & _ & H1 & _ & _ & H2 & _).
  rewrite E in E'. injection E' as <- <-.
  cbn [fst snd]. unfold started_ids.
  repeat (split; [by destruct m|]). split.
  - destruct w'. cbn in *. by rewrite map_app, H2, <- Hid.
  - by destruct w'.
Qed.

(** [done] for a thread that is not registered. *)
Lemma done_unregistered thread m w :
  MashTask.id thread ∉ Masher._threads m ->
  done env thread (m, w)
  = (Raise ValueError,
     (Masher.set_last_log (MashTask.log thread) (Masher.set_mashing false m),
      add_report (MashTask.id thread)
        (add_log INFO ("MashTask " +:+ pretty (MashTask.id thread) +:+ " done!") w))).
Proof.
  intros Hin. unfold done.
  cbv [mbind M_bind bind mret M_ret ret get_masher masher_update outside_update
       modify raise]. cbn [fst snd].
  assert (Masher._threads
            (Masher.set_last_log (MashTask.log thread) (Masher.set_mashing false m))
          = Masher._threads m) as -> by (by destruct m).
  by rewrite bool_decide_false.
Qed.

(** X9: [done] for a thread that is not registered (a second report of the
    same thread, for one) raises ValueError from [list.remove] and
    dispatches nothing, even with requests waiting and no thread running;
    by then it has already reset the [mashing] flag, replaced [last_log]
    and mailed the report. *)
Theorem done_twice_raises thread m w :
  MashTask.id thread ∉ Masher._threads m ->
  done env thread (m, w)
  = (Raise ValueError,
     (Masher.set_last_log (MashTask.log thread) (Masher.set_mashing false m),
      add_report (MashTask.id thread)
        (add_log INFO ("MashTask " +:+ pretty (MashTask.id thread) +:+ " done!") w))).
Proof. apply done_unregistered. Qed.

(** Every call of [done] mails exactly one report, for the thread it is
    called with, whatever happens afterwards. *)
Lemma done_reports thread s :
  reports (done env thread s).2.2 = reports s.2 ++ [MashTask.id thread].
Proof.
  destruct s as [m w]. unfold done.
  cbv [mbind M_bind bind mret M_ret ret get_masher masher_update outside_update
       modify raise]. cbn [fst snd].
  destruct (bool_decide _); [|by destruct w].
  match goal with |- context [dispatch env (?m1, ?w1)] =>
    assert (in_world (registry (started w) (reports w ++ [MashTask.id thread])) (m1, w1))
      as Hq by (by destruct w) end.
  match goal with |- context [dispatch env ?s1] =>
    destruct (decide (Masher._threads s1.1 = [])) as [Ht|Ht];
      [|by rewrite dispatch_busy; [destruct w|]];
    destruct (Masher._queue s1.1) as [|r0 q0] eqn:Eq;
      [by rewrite dispatch_empty; [destruct w|]|];
    destruct (exists_last (l := r0 :: q0)) as (q & r & Hqr); [done|];
    rewrite Hqr in Eq; rewrite (dispatch_idle env _ _ q r Ht Eq) end.
  match goal with |- context [_mash env r (?m1, ?w1)] =>
    destruct (mash_task_frame env r m1 w1) as (_ & _ & ->) end.
  by destruct w.
Qed.

Lemma dispatch_mashing s :
  mashing_means_running s.1 -> mashing_means_running (dispatch env s).2.1.
Proof.
  destruct s as [m w]. intros Hinv.
  destruct (decide (Masher._threads m = [])) as [Ht|Ht]; [|by rewrite dispatch_busy].
  destruct (Masher._queue m) as [|r0 q0] eqn:Eq; [by rewrite dispatch_empty|].
  destruct (exists_last (l := r0 :: q0)) as (q & r & Hqr); [done|].
  rewrite Hqr in Eq. rewrite (dispatch_idle env m w q r Ht Eq).
  unfold _mash. destruct r as [[[id us] rs] resume]. cbn [fst snd].
  destruct (MashTask_init env id us rs resume w) as [[th|e|] w']; cbn.
  - intros _. msimpl_masher. by destruct (Masher._threads m).
  - unfold mashing_means_running in *. by destruct m.
  - unfold mashing_means_running in *. by destruct m.
Qed.

Lemma call_mashing c s :
  mashing_means_running s.1 -> mashing_means_running (call env c s).2.1.
Proof.
  destruct s as [m w]. intros Hinv.
  destruct c as [us rs resume|thread|marker]; cbn [call].
  - unfold queue.
    cbv [mbind M_bind bind mret M_ret ret get_masher masher_update outside_update
         modify raise]. cbn [fst snd].
    apply dispatch_mashing. unfold mashing_means_running in *. by destruct m.
  - unfold done.
    cbv [mbind M_bind bind mret M_ret ret get_masher masher_update outside_update
         modify raise]. cbn [fst snd].
    destruct (bool_decide _).
    + apply dispatch_mashing. unfold mashing_means_running. by destruct m.
    + unfold mashing_means_running. by destruct m.
  - done.
Qed.

(** X10: From the orchestrator as constructed, after any sequence of calls: when
    the [mashing] flag is set, a thread is registered. *)
Theorem mashing_flag_means_running cs w :
  let s := calls env cs (Masher_init, w) in
  Masher.mashing s.1 = true -> Masher._threads s.1 <> [].
Proof.
  cbn zeta. induction cs as [|c cs IH] using rev_ind; [done|].
  rewrite calls_snoc. by apply call_mashing.
Qed.

End Submissions.

(** ** Request identifiers *)

Section Identifiers.
Variable env : Env.

(** [dispatch] leaves the identifiers alone, or takes the last one of the
    queue and hands it to a started thread or drops it. *)
Lemma dispatch_ids s :
  let s' := (dispatch env s).2 in
  Masher.thread_id s'.1 = Masher.thread_id s.1 /\
  ((queued_ids s'.1 = queued_ids s.1 /\ started_ids s'.2 = started_ids s.2) \/
   exists k, queued_ids s.1 = queued_ids s'.1 ++ [k] /\
             (started_ids s'.2 = started_ids s.2 \/
              started_ids s'.2 = started_ids s.2 ++ [k])).
Proof.
  destruct s as [m w]. cbn zeta.
  destruct (decide (Masher._threads m = [])) as [Ht|Ht];
    [|rewrite dispatch_busy by done; auto].
  destruct (Masher._queue m) as [|r0 q0] eqn:Eq;
    [rewrite dispatch_empty by done; auto|].
  destruct (exists_last (l := r0 :: q0)) as (q & r & Hqr); [done|].
  rewrite Hqr in Eq. rewrite (dispatch_idle env m w q r Ht Eq).
  destruct (mash_task_frame env r (Masher.set_queue q m) w) as (F1 & F2 & _).
  split; [rewrite F2; by destruct m|].
  right. exists r.1.1.1. unfold queued_ids, request_ids. cbn [fst snd].
  rewrite F1, Eq, map_app. split; [by destruct m|].
  apply (mash_task_started env r (Masher.set_queue q m) w).
Qed.

Lemma ids_in_order_dispatch s : ids_in_order s -> ids_in_order (dispatch env s).2.
Proof.
  intros [Hnd Hlt]. unfold ids_in_order.
  destruct (dispatch_ids s) as (-> & [[-> ->]|(k & Hq & [-> | ->])]); [done| |].
  - rewrite Hq in Hnd, Hlt. split.
    + rewrite <- app_assoc in Hnd. apply NoDup_app in Hnd as (H1 & H2 & H3).
      apply NoDup_app in H3 as (_ & _ & H3). apply NoDup_app. split; [done|].
      split; [|done]. intros x Hx Hx'. apply (H2 x Hx). by right.
    + rewrite <- app_assoc in Hlt. apply Forall_app in Hlt as [H1 H2].
      apply Forall_app. split; [done|]. by apply Forall_cons in H2 as [_ H2].
  - rewrite Hq in Hnd, Hlt. split.
    + rewrite <- app_assoc in Hnd.
      by rewrite (Permutation_app_comm (started_ids s.2) [k]).
    + rewrite <- app_assoc in Hlt.
      by rewrite (Permutation_app_comm (started_ids s.2) [k]).
Qed.

Lemma ids_in_order_call c s :
  ids_in_order s ->
  ids_in_order (call env c s).2 /\
  Masher.thread_id (call env c s).2.1
  = (Masher.thread_id s.1 + (if is_submission c then 1 else 0))%nat.
Proof.
  destruct s as [m w]. intros [Hnd Hlt].
  destruct c as [us rs resume|thread|marker]; cbn [call is_submission].
  - unfold queue.
    cbv [mbind M_bind bind mret M_ret ret get_masher masher_update outside_update
         modify raise]. cbn [fst snd].
    match goal with |- context [dispatch env ?s1] =>
      assert (ids_in_order s1) as Hs1; [|split; [by apply ids_in_order_dispatch|];
        destruct (dispatch_ids s1) as [-> _]; by destruct m] end.
    unfold ids_in_order, queued_ids, request_ids in *. cbn [fst snd] in *.
    destruct m as [q ths tid ms ll]. cbn in *. rewrite map_app. cbn. split.
    + rewrite <- app_assoc. rewrite (Permutation_app_comm [tid]), app_assoc.
      apply NoDup_app. split; [done|]. split; [|apply NoDup_singleton].
      intros x Hx Hx'. apply list_elem_of_singleton in Hx'. subst.
      rewrite Forall_forall in Hlt. specialize (Hlt _ Hx). lia.
    + rewrite <- app_assoc. apply Forall_app. apply Forall_app in Hlt as [H1 H2].
      split; [eapply Forall_impl; [exact H1|]; cbn; intros; lia|].
      constructor; [lia|]. eapply Forall_impl; [exact H2|]. cbn. intros. lia.
  - unfold done.
    cbv [mbind M_bind bind mret M_ret ret get_masher masher_update outside_update
         modify raise]. cbn [fst snd].
    destruct (bool_decide _).
    + match goal with |- context [dispatch env ?s1] =>
        assert (ids_in_order s1) as Hs1
          by (unfold ids_in_order, queued_ids, started_ids in *; by destruct m, w);
        split; [by apply ids_in_order_dispatch|];
        destruct (dispatch_ids s1) as [-> _]; destruct m; cbn; lia end.
    + split; [|destruct m; cbn; lia].
      unfold ids_in_order, queued_ids, started_ids in *. by destruct m, w.
  - split; [|cbn; lia]. unfold ids_in_order, queued_ids, started_ids in *. by destruct w.
Qed.

(** X11: From a fresh orchestrator, after any sequence of calls: the counter
    equals the number of submissions, and the identifiers of the requests
    waiting and of the threads started are pairwise distinct and below the
    counter: no two requests ever share an identifier. *)
Theorem request_ids_unique cs w :
  started w = [] ->
  let s := calls env cs (Masher_init, w) in
  Masher.thread_id s.1 = submissions cs /\
  NoDup (queued_ids s.1 ++ started_ids s.2) /\
  (forall i, i ∈ queued_ids s.1 ++ started_ids s.2 -> (i < Masher.thread_id s.1)%nat).
Proof.
  intros Hw. cbn zeta.
  assert (ids_in_order (calls env cs (Masher_init, w)) /\
          Masher.thread_id (calls env cs (Masher_init, w)).1 = submissions cs)
    as [[Hnd Hlt] Hid].
  { induction cs as [|c cs IH] using rev_ind.
    - split; [|done]. unfold ids_in_order, queued_ids, started_ids. cbn. rewrite Hw. cbn.
      split; [apply NoDup_nil_2|constructor].
    - destruct IH as [IH1 IH2]. rewrite calls_snoc.
      destruct (ids_in_order_call c _ IH1) as [H1 H2]. split; [done|].
      rewrite H2, IH2. unfold submissions. rewrite List.filter_app, length_app. cbn.
      by destruct (is_submission c). }
  split; [done|]. split; [done|]. by apply Forall_forall.
Qed.

End Identifiers.

(** ** More on [move_builds] *)

Section MoreMoveBuilds.
Variable env : Env.

(** X12: [move_builds] raises MashTaskException exactly when the wait for the
    batch answers non-zero, and sets [success] accordingly; either way every
    tag mutation of the batch has been issued and stays issued (nothing is
    rolled back), the [moving] flag is cleared, and no error is logged. *)
Theorem move_builds_outcome t w :
  let batch := map fst (plan (MashTask.updates t) (MashTask.tag t)) in
  let ok := wait_for_tasks env batch =? 0 in
  let r := move_builds env (t, w) in
  r.1 = (if ok then Ok tt else Raise (MashTaskException "Failed to move builds")) /\
  MashTask.success r.2.1 = ok /\
  MashTask.moving r.2.1 = false /\
  MashTask.errors r.2.1 = MashTask.errors t /\
  koji_calls r.2.2 = koji_calls w ++ batch /\
  MASHING r.2.2 = MASHING w.
Proof.
  cbn zeta. rewrite move_builds_eq. cbn [fst snd].
  rewrite drop_app_length, koji_calls_add_koji_calls.
  destruct (add_koji_calls_frame
              (map fst (plan (MashTask.updates t) (MashTask.tag t))) w) as (-> & _).
  by destruct t.
Qed.

(** X13: An update whose request is stable, testing or obsolete is tagged with
    the tag of its own release and request, whatever tag the earlier
    updates of the batch left and whatever [self.tag] was at entry. *)
Theorem recognised_requests_set_tag t w earlier u later :
  MashTask.updates t = earlier ++ u :: later ->
  recomputes u = true ->
  let r := move_builds env (t, w) in
  let own :=
    if request_is u "stable" then dist_tag (release u) +:+ "-updates"
    else if request_is u "testing" then dist_tag (release u) +:+ "-updates-testing"
    else dist_tag (release u) +:+ "-updates-candidate" in
  MashTask.actions r.2.1
  = MashTask.actions t ++ map snd (plan earlier (MashTask.tag t))
      ++ map (fun b => (nvr b, get_build_tag u, Some own)) (builds u)
      ++ map snd (plan later (Some own)) /\
  koji_calls r.2.2
  = koji_calls w ++ map fst (plan earlier (MashTask.tag t))
      ++ map (planned_call (Some own) (get_build_tag u)) (builds u)
      ++ map fst (plan later (Some own)).
Proof.
  intros Hus Hu. cbn zeta. rewrite move_builds_eq. cbn [fst snd].
  rewrite koji_calls_add_koji_calls, Hus, plan_app. cbn [plan].
  assert (forall tg, destination u tg
            = Some (if request_is u "stable" then dist_tag (release u) +:+ "-updates"
                    else if request_is u "testing"
                         then dist_tag (release u) +:+ "-updates-testing"
                         else dist_tag (release u) +:+ "-updates-candidate")) as Hd.
  { intros tg. unfold destination, recomputes in *.
    destruct (request_is u "stable"), (request_is u "testing"),
      (request_is u "obsolete"); cbn in Hu; congruence. }
  unfold plan_update. rewrite !Hd, !map_app, !map_map. cbn.
  split; [by destruct t|done].
Qed.

End MoreMoveBuilds.

(** ** More on [safe_to_move] *)

Lemma build_error_unchecked tb u b : unchecked u -> b ∈ builds u -> build_error tb u b = None.
Proof.
  intros [Hb|[(Hr & H1 & H2)|([Hr|Hr] & H1 & H2)]] Hin.
  - rewrite Hb in Hin. by apply elem_of_nil in Hin.
  - unfold build_error, request_is, status_is. rewrite Hr.
    repeat case_bool_decide; congruence.
  - unfold build_error, request_is, status_is. rewrite Hr.
    repeat case_bool_decide; congruence.
  - unfold build_error, request_is, status_is. rewrite Hr.
    repeat case_bool_decide; congruence.
Qed.

Lemma omap_None_in {A B} (f : A -> option B) (l : list A) :
  (forall x, x ∈ l -> f x = None) -> omap f l = [].
Proof.
  induction l as [|x l IH]; intros Hf; [done|].
  cbn. rewrite Hf by left. apply IH. intros y Hy. apply Hf. by right.
Qed.

(** X14: The consistency check passes over some updates without asking the
    build system anything about their builds: an update with no build (even
    with an unknown request), a stable request from a status other than
    testing and pending, an unpush or obsolete request from a status other
    than testing and stable.  A batch of such updates is found safe whatever
    the tags are, and nothing is logged. *)
Theorem safe_to_move_blind_spots (env : Env) t w :
  Forall unchecked (MashTask.updates t) ->
  safe_to_move env (t, w) = (Ok (MashTask.safe t), (t, w)).
Proof.
  intros Hun. rewrite safe_to_move_eq. cbn [fst snd].
  assert (failed_checks env (MashTask.updates t) = []) as ->; [|done].
  unfold failed_checks. generalize (populate_nvrs env (MashTask.updates t)). intros tb.
  induction Hun as [|u us Hu Hus IH]; [done|].
  cbn. rewrite IH, app_nil_r. apply omap_None_in. intros b Hb.
  by apply build_error_unchecked.
Qed.

(** ** [mash] *)

Section Mash.
Variable env : Env.

Lemma mash_repo_eq repo s :
  mash_repo env repo s
  = if mash_returncode env (mash_command_of env repo) =? 0
    then (Ok tt, composed env s repo)
    else (Raise (MashTaskException "Mash failed"), failed_composition env s repo).
Proof.
  destruct s as [t w]. unfold mash_repo, composed, failed_composition, mash_command_of,
    mashdir_of, failed_output_of. msimpl.
  by destruct (mash_returncode env _ =? 0).
Qed.

Lemma composed_all_eq repos s :
  Forall (composes env) repos ->
  for_each repos (mash_repo env) s = (Ok tt, foldl (composed env) s repos).
Proof.
  intros Hok. apply for_each_fold_in. intros repo Hin s'.
  rewrite mash_repo_eq. rewrite Forall_forall in Hok.
  specialize (Hok repo Hin). unfold composes in Hok. by rewrite Hok.
Qed.

Lemma for_each_app {S A} (xs ys : list A) (body : A -> M S unit) s :
  for_each (xs ++ ys) body s
  = match for_each xs body s with
    | (Ok _, s') => for_each ys body s'
    | r => r
    end.
Proof.
  revert s. induction xs as [|x xs IH]; intros s; cbn [app for_each].
  - reflexivity.
  - unfold mbind, M_bind, bind. destruct (body x s) as [[[]|?|] s']; [apply IH|done|done].
Qed.

(** What a run of successful compositions leaves. *)
Lemma composed_all_frame repos s :
  let s' := foldl (composed env) s repos in
  mash_cmds s'.2 = mash_cmds s.2 ++ map (mash_command_of env) repos /\
  fs_ops s'.2
  = fs_ops s.2 ++ map (fun repo => WriteFile (mashdir_of env repo +:+ "/mash.out")) repos /\
  koji_calls s'.2 = koji_calls s.2 /\
  MASHING s'.2 = MASHING s.2 /\
  MashTask.mashing s'.1 = MashTask.mashing s.1 /\
  MashTask.errors s'.1 = MashTask.errors s.1 /\
  MashTask.updates s'.1 = MashTask.updates s.1 /\
  MashTask.repos s'.1 = MashTask.repos s.1 /\
  MashTask.success s'.1 = (if repos is [] then MashTask.success s.1 else true) /\
  (forall repo, MashTask.mashed_repos s'.1 !! repo
     = if bool_decide (repo ∈ repos) then Some (mashdir_of env repo)
       else MashTask.mashed_repos s.1 !! repo).
Proof.
  cbn zeta. revert s. induction repos as [|repo repos IH] using rev_ind; intros s.
  - cbn. rewrite !app_nil_r. repeat split; done.
  - rewrite foldl_app. cbn [foldl].
    destruct (IH s) as (H1 & H2 & H3 & H4 & H5 & H6 & H7 & H8 & H9 & H10).
    destruct (foldl (composed env) s repos) as [t' w'] eqn:E. cbn [fst snd] in *.
    unfold composed. cbn [fst snd].
    split; [destruct w'; cbn in *; by rewrite H1, map_app, app_assoc|].
    split; [destruct w'; cbn in *; by rewrite H2, map_app, app_assoc|].
    split; [by destruct w'|]. split; [by destruct w'|].
    split; [by destruct t'|]. split; [by destruct t'|].
    split; [by destruct t'|]. split; [by destruct t'|].
    split; [destruct t'; cbn; by destruct repos|].
    intros r. destruct t'. cbn in *.
    destruct (decide (r = repo)) as [->|Hne].
    + rewrite lookup_insert_eq. rewrite bool_decide_eq_true_2; [done|].
      apply elem_of_app. right. by apply list_elem_of_singleton.
    + rewrite lookup_insert_ne by done. rewrite H10.
      repeat case_bool_decide; try done.
      * exfalso. apply H0. apply elem_of_app. by left.
      * exfalso. apply elem_of_app in H0 as [|Hin]; [done|].
        apply list_elem_of_singleton in Hin. done.
Qed.

(** [mash] with every composition exiting with code zero. *)
Lemma mash_ok_eq t w :
  update_comps_raises env = None ->
  Forall (composes env) (MashTask.repos t) ->
  mash env (t, w)
  = (Ok tt, (MashTask.set_mashing false
               (foldl (composed env) (MashTask.set_mashing true t, w) (MashTask.repos t)).1,
             (foldl (composed env) (MashTask.set_mashing true t, w) (MashTask.repos t)).2)).
Proof.
  intros Hc Hok. unfold mash.
  unfold mbind at 1, M_bind at 1, bind at 1. cbn [self_update modify fst snd].
  unfold mbind at 1, M_bind at 1, bind at 1. rewrite Hc. cbn [external mret M_ret ret].
  unfold mbind at 1, M_bind at 1, bind at 1. cbn [get_self fst snd].
  unfold mbind at 1, M_bind at 1, bind at 1.
  assert (MashTask.repos (MashTask.set_mashing true t) = MashTask.repos t) as ->
    by by destruct t.
  rewrite composed_all_eq by done.
  by destruct (foldl _ _ _).
Qed.

(** [mash] with a composition that exits with a non-zero code. *)
Lemma mash_failed_eq t w before bad after :
  update_comps_raises env = None ->
  MashTask.repos t = before ++ bad :: after ->
  Forall (composes env) before ->
  ~ composes env bad ->
  mash env (t, w)
  = (Raise (MashTaskException "Mash failed"),
     failed_composition env
       (foldl (composed env) (MashTask.set_mashing true t, w) before) bad).
Proof.
  intros Hc Hrs Hok Hbad. unfold mash.
  unfold mbind at 1, M_bind at 1, bind at 1. cbn [self_update modify fst snd].
  unfold mbind at 1, M_bind at 1, bind at 1. rewrite Hc. cbn [external mret M_ret ret].
  unfold mbind at 1, M_bind at 1, bind at 1. cbn [get_self fst snd].
  unfold mbind at 1, M_bind at 1, bind at 1.
  assert (MashTask.repos (MashTask.set_mashing true t) = MashTask.repos t) as ->
    by by destruct t.
  rewrite Hrs, for_each_app, composed_all_eq by done.
  cbn [for_each]. unfold mbind at 1, M_bind at 1, bind at 1.
  rewrite mash_repo_eq. unfold composes in Hbad.
  destruct (mash_returncode env (mash_command_of env bad) =? 0) eqn:E; [|done].
  apply Z.eqb_eq in E. done.
Qed.

(** X15: [mash] composes the repositories in order and stops at the first
    composition that exits with a non-zero code: it raises
    MashTaskException, the later repositories are not composed, [success]
    is unset and [log] names the file with the failed output.  The failed
    repository is already in [mashed_repos], and [mashing] is still set. *)
Theorem mash_stops_at_first_failure t w before bad after :
  update_comps_raises env = None ->
  MashTask.repos t = before ++ bad :: after ->
  Forall (composes env) before ->
  ~ composes env bad ->
  let r := mash env (t, w) in
  r.1 = Raise (MashTaskException "Mash failed") /\
  mash_cmds r.2.2 = mash_cmds w ++ map (mash_command_of env) (before ++ [bad]) /\
  MashTask.success r.2.1 = false /\
  MashTask.log r.2.1 = Some (failed_output_of env) /\
  MashTask.mashing r.2.1 = true /\
  MashTask.mashed_repos r.2.1 !! bad = Some (mashdir_of env bad) /\
  koji_calls r.2.2 = koji_calls w.
Proof.
  intros Hc Hrs Hok Hbad. cbn zeta. rewrite (mash_failed_eq t w before bad after) by done.
  destruct (composed_all_frame before (MashTask.set_mashing true t, w))
    as (H1 & H2 & H3 & H4 & H5 & _).
  destruct (foldl (composed env) _ before) as [t' w'] eqn:E. cbn [fst snd] in *.
  unfold failed_composition. cbn [fst snd].
  split; [done|]. split; [destruct w'; cbn in *; by rewrite H1, map_app, app_assoc|].
  split; [by destruct t'|]. split; [by destruct t'|].
  split; [destruct t'; cbn in *; rewrite H5; by destruct t|].
  split; [destruct t'; cbn; by rewrite lookup_insert_eq|].
  by destruct w'.
Qed.

(** X16: When every composition exits with code zero, [mash] completes: each
    repository was composed once, in order, each is mapped to its output
    directory in [mashed_repos], [mashing] is cleared, and [success] is set
    unless there was no repository at all, in which case it is left as it
    was. *)
Theorem mash_composes_every_repo t w :
  update_comps_raises env = None ->
  Forall (composes env) (MashTask.repos t) ->
  let r := mash env (t, w) in
  r.1 = Ok tt /\
  mash_cmds r.2.2 = mash_cmds w ++ map (mash_command_of env) (MashTask.repos t) /\
  (forall repo, repo ∈ MashTask.repos t ->
     MashTask.mashed_repos r.2.1 !! repo = Some (mashdir_of env repo)) /\
  (forall repo, repo ∉ MashTask.repos t ->
     MashTask.mashed_repos r.2.1 !! repo = MashTask.mashed_repos t !! repo) /\
  MashTask.mashing r.2.1 = false /\
  MashTask.success r.2.1
  = (if MashTask.repos t is [] then MashTask.success t else true).
Proof.
  intros Hc Hok. cbn zeta. rewrite mash_ok_eq by done. cbn [fst snd].
  destruct (composed_all_frame (MashTask.repos t) (MashTask.set_mashing true t, w))
    as (H1 & _ & _ & _ & _ & _ & _ & _ & H9 & H10).
  destruct (foldl (composed env) _ (MashTask.repos t)) as [t' w'] eqn:E.
  cbn [fst snd] in *.
  split; [done|]. split; [done|].
  split; [|split; [|split]].
  - intros repo Hin. specialize (H10 repo). rewrite bool_decide_eq_true_2 in H10 by done.
    by destruct t'.
  - intros repo Hin. specialize (H10 repo). rewrite bool_decide_eq_false_2 in H10 by done.
    destruct t', t. done.
  - by destruct t'.
  - destruct t'. cbn in *. rewrite H9. by destruct t.
Qed.

End Mash.

(** ** [run], stage by stage *)

Lemma preserves_on_run {A} (P : TaskState -> Prop) m0 (c : M TaskState A) :
  preserves P c -> preserves (on_run P m0) (on_task c).
Proof.
  intros Hc [[t m] w] [Hs Hm]. unfold on_task, on_run in *. cbn in Hs, Hm.
  specialize (Hc (t, w) Hs).
  by destruct (c (t, w)) as [o [t' w']].
Qed.

Section RunStages.
Variable env : Env.

Lemma run_stages_eq t m w :
  run_stages env (t, m, w) = (when (moves t) (on_task (move_builds env));; from_mash env) (t, m, w).
Proof. reflexivity. Qed.

(** When the consistency check is skipped or passes, the try block is the
    sequence of stages. *)
Lemma run_body_safe t m w :
  MashTask.safe t = true ->
  MashTask.resume t = true \/ failed_checks env (MashTask.updates t) = [] ->
  run_body env (MashTask.set_success true t, m, w)
  = run_stages env (MashTask.set_success true t, m, w).
Proof.
  intros Hsafe Hc. unfold run_body.
  unfold mbind at 1, M_bind at 1, bind at 1. cbn [on_task get_self fst snd].
  destruct (MashTask.resume t) eqn:Hr.
  - assert (MashTask.resume (MashTask.set_success true t) = true) as -> by by destruct t.
    reflexivity.
  - destruct Hc as [|Hf]; [done|].
    assert (MashTask.resume (MashTask.set_success true t) = false) as -> by by destruct t.
    cbn [negb].
    unfold mbind at 1, M_bind at 1, bind at 1.
    unfold mbind at 1, M_bind at 1, bind at 1.
    unfold on_task at 1. rewrite safe_to_move_eq. cbn [fst snd].
    assert (MashTask.updates (MashTask.set_success true t) = MashTask.updates t) as ->
      by by destruct t.
    rewrite Hf. cbn [record_errors foldl fst snd mret M_ret ret].
    assert (MashTask.safe (MashTask.set_success true t) = true) as ->
      by (by destruct t).
    reflexivity.
Qed.

(** The try block up to the call of [mash]. *)
Lemma run_stages_to_mash t m w :
  (moves t = true ->
   wait_for_tasks env (map fst (plan (MashTask.updates t) (MashTask.tag t))) = 0) ->
  run_stages env (MashTask.set_success true t, m, w)
  = from_mash env ((at_mash env t w).1, m, (at_mash env t w).2).
Proof.
  intros Hw. rewrite run_stages_eq. unfold at_mash.
  assert (moves (MashTask.set_success true t) = moves t) as -> by by destruct t.
  destruct (moves t); [|reflexivity].
  cbn [when]. unfold mbind at 1, M_bind at 1, bind at 1. unfold on_task at 1.
  rewrite move_builds_eq. cbn [fst snd].
  rewrite drop_app_length.
  assert (MashTask.updates (MashTask.set_success true t) = MashTask.updates t) as ->
    by by destruct t.
  assert (MashTask.tag (MashTask.set_success true t) = MashTask.tag t) as ->
    by by destruct t.
  by rewrite Hw.
Qed.

Lemma at_mash_frame t w :
  (moves t = true ->
   wait_for_tasks env (map fst (plan (MashTask.updates t) (MashTask.tag t))) = 0) ->
  let s := at_mash env t w in
  MashTask.success s.1 = true /\
  MashTask.repos s.1 = MashTask.repos t /\
  MashTask.errors s.1 = MashTask.errors t /\
  MashTask.id s.1 = MashTask.id t /\
  MashTask.mashed_repos s.1 = MashTask.mashed_repos t /\
  koji_calls s.2
  = koji_calls w ++ (if moves t then map fst (plan (MashTask.updates t) (MashTask.tag t))
                     else []) /\
  mash_cmds s.2 = mash_cmds w /\
  fs_ops s.2 = fs_ops w /\
  MASHING s.2 = MASHING w /\
  reports s.2 = reports w /\
  started s.2 = started w.
Proof.
  intros Hw. cbn zeta. unfold at_mash. destruct (moves t).
  - rewrite move_builds_eq. cbn [fst snd]. rewrite drop_app_length.
    assert (MashTask.updates (MashTask.set_success true t) = MashTask.updates t) as ->
      by by destruct t.
    assert (MashTask.tag (MashTask.set_success true t) = MashTask.tag t) as ->
      by by destruct t.
    rewrite Hw by done. rewrite koji_calls_add_koji_calls.
    destruct (add_koji_calls_frame
                (map fst (plan (MashTask.updates t) (MashTask.tag t))) w)
      as (H1 & H2 & H3 & H4 & H5).
    destruct t. cbn. repeat split; done.
  - cbn. rewrite app_nil_r. by destruct t.
Qed.

End RunStages.

Section FailedComposition.
Variable env : Env.

(** The handlers log and mark the task; they make no call. *)
Lemma handler_frame e s :
  let s' := (handler env e s).2 in
  koji_calls s'.2 = koji_calls s.2 /\
  mash_cmds s'.2 = mash_cmds s.2 /\
  fs_ops s'.2 = fs_ops s.2 /\
  MASHING s'.2 = MASHING s.2 /\
  reports s'.2 = reports s.2 /\
  started s'.2 = started s.2 /\
  MashTask.id s'.1 = MashTask.id s.1 /\
  MashTask.errors s'.1
  = MashTask.errors s.1 ++ (if caught_as_Exception env e then [str_exn e] else []) /\
  MashTask.log s'.1 = MashTask.log s.1.
Proof.
  cbn zeta. unfold handler, error_log. destruct s as [t w].
  destruct (caught_as_Exception env e); msimpl.
  - destruct t, w. cbn. repeat split; done.
  - rewrite app_nil_r. by destruct t, w.
Qed.

(** [run] when a composition fails. *)
Lemma run_unlock_failed_composition t m w before bad after :
  MashTask.safe t = true ->
  MashTask.resume t = true \/ failed_checks env (MashTask.updates t) = [] ->
  (moves t = true ->
   wait_for_tasks env (map fst (plan (MashTask.updates t) (MashTask.tag t))) = 0) ->
  update_comps_raises env = None ->
  MashTask.repos t = before ++ bad :: after ->
  Forall (composes env) before ->
  ~ composes env bad ->
  let failed :=
    failed_composition env
      (foldl (composed env)
         (MashTask.set_mashing true (at_mash env t w).1, (at_mash env t w).2) before) bad in
  let handled := (handler env (MashTaskException "Mash failed") failed).2 in
  run_unlock env (t, m, w) = (Ok false, (handled.1, m, handled.2)).
Proof.
  intros Hsafe Hc Hw Hu Hrs Hok Hbad. cbn zeta.
  rewrite run_unlock_eq. unfold run_try, try_except.
  rewrite run_body_safe, run_stages_to_mash by done.
  destruct (at_mash_frame env t w Hw) as (_ & Hrepos & _).
  destruct (at_mash env t w) as [t1 w1]. cbn [fst snd] in *.
  unfold from_mash. unfold mbind at 1, M_bind at 1, bind at 1.
  unfold on_task at 1.
  rewrite (mash_failed_eq env t1 w1 before bad after) by (done || congruence).
  set (failed := failed_composition _ _ _).
  destruct failed as [t2 w2] eqn:Ef.
  unfold mbind at 1, M_bind at 1, bind at 1.
  destruct (on_task_handler env (MashTaskException "Mash failed") (t2, m, w2))
    as (t' & w' & -> & Hs & Hh).
  cbn [fst snd] in *. rewrite Hh. cbn [mret M_ret ret fst snd]. by rewrite Hs.
Qed.


End FailedComposition.

(** ** More on [update_symlinks] *)

Section MorePublishing.
Variable env : Env.

Lemma rename_all_eq newrepo listed s :
  for_each listed (fun arch =>
    world_update (add_fs_op (Move (join newrepo arch) (join newrepo (arch +:+ ".newkey"))))) s
  = (Ok tt, (s.1, foldl (fun w arch =>
       add_fs_op (Move (join newrepo arch) (join newrepo (arch +:+ ".newkey"))) w) s.2 listed)).
Proof.
  rewrite (for_each_fold _ (fun (s : TaskState) arch =>
    (s.1, add_fs_op (Move (join newrepo arch) (join newrepo (arch +:+ ".newkey"))) s.2)))
    by done.
  f_equal. revert s. induction listed as [|arch listed IH]; intros s; [by destruct s|].
  cbn [foldl]. by rewrite IH.
Qed.

Lemma rename_all_fs_ops newrepo listed w :
  fs_ops (foldl (fun w arch =>
       add_fs_op (Move (join newrepo arch) (join newrepo (arch +:+ ".newkey"))) w) w listed)
  = fs_ops w ++ map (fun arch =>
       Move (join newrepo arch) (join newrepo (arch +:+ ".newkey"))) listed.
Proof.
  revert w. induction listed as [|arch listed IH]; intros w; cbn [foldl map].
  - by rewrite app_nil_r.
  - rewrite IH. destruct w. cbn. by rewrite <- app_assoc.
Qed.

(** X18: With any arch configured, [update_symlinks] publishes nothing: when a
    repository was composed it renames the arch directories of the first
    one and raises TypeError at the membership test of the arch loop,
    before any check; no symlink is created or removed and the task is left
    as it was. *)
Theorem configured_arches_block_publishing t w :
  arches env <> [] ->
  let r := update_symlinks env (t, w) in
  (MashTask.mashed_repos t <> ∅ -> r.1 = Raise TypeError) /\
  (MashTask.mashed_repos t = ∅ -> r = (Ok tt, (t, w))) /\
  r.2.1 = t /\
  exists renames, fs_ops r.2.2 = fs_ops w ++ renames /\ Forall is_move renames.
Proof.
  intros Ha. cbn zeta.
  assert (update_symlinks env (t, w)
          = match for_each_until (map_to_list (MashTask.mashed_repos t))
                    (stage_repo env) (t, w) with
            | (Ok _, s) => (Ok tt, s)
            | (Raise e, s) => (Raise e, s)
            | (Hang, s) => (Hang, s)
            end) as ->.
  { unfold update_symlinks, mbind, M_bind, bind. cbn [get_self fst snd].
    by destruct (for_each_until _ _ _) as [[?|?|] ?]. }
  destruct (map_to_list (MashTask.mashed_repos t)) as [|[repo mashdir] rest] eqn:E.
  - apply map_to_list_empty_iff in E. cbn.
    split; [by intros H0|]. split; [done|]. split; [done|].
    exists []. by rewrite app_nil_r.
  - assert (MashTask.mashed_repos t <> ∅) as Hne.
    { intros H0. apply map_to_list_empty_iff in H0. congruence. }
    assert (stage_repo env (repo, mashdir) (t, w)
            = (Raise TypeError,
               (t, foldl (fun w arch =>
                  add_fs_op (Move (join (join mashdir repo) arch)
                                  (join (join mashdir repo) (arch +:+ ".newkey"))) w)
                  w (os_listdir env (fs_ops w) (join mashdir repo))))) as Hs.
    { unfold stage_repo.
      unfold mbind at 1, M_bind at 1, bind at 1. cbn [get_world fst snd].
      unfold mbind at 1, M_bind at 1, bind at 1.
      rewrite rename_all_eq. cbn [fst snd].
      unfold mbind at 1, M_bind at 1, bind at 1. cbn [get_world fst snd].
      unfold mbind at 1, M_bind at 1, bind at 1.
      by rewrite check_arches_raises. }
    cbn [for_each_until]. unfold mbind, M_bind, bind. rewrite Hs. cbn [fst snd].
    split; [done|]. split; [by intros H0|]. split; [done|].
    eexists. split; [apply rename_all_fs_ops|].
    apply Forall_map. by apply Forall_true.
Qed.

(** X19: The symlink check looks at one package only: the first name that ends
    in [.rpm].  When that file is a symlink the check logs its error and
    makes [update_symlinks] return; otherwise, or when no name ends in
    [.rpm], the check passes, whatever the other packages are. *)
Theorem symlink_check_reads_first_rpm dir pkgs t w :
  check_symlinked env dir pkgs (t, w)
  = match List.find (fun pkg => endswith pkg ".rpm") pkgs with
    | Some pkg =>
        if os_islink env (fs_ops w) (join dir pkg)
        then (Ok true, error_log_step (t, w) "Mashed repository full of symlinks!")
        else (Ok false, (t, w))
    | None => (Ok false, (t, w))
    end.
Proof.
  induction pkgs as [|pkg pkgs IH]; [done|].
  cbn [check_symlinked List.find]. destruct (endswith pkg ".rpm"); [|exact IH].
  unfold mbind at 1, M_bind at 1, bind at 1. cbn [get_world fst snd].
  destruct (os_islink env (fs_ops w) (join dir pkg)); [|done].
  unfold mbind, M_bind, bind. by rewrite error_log_eq.
Qed.

End MorePublishing.

(** ** What [run] reports *)

Ltac preserves_reporting :=
  repeat preserves_step;
  try (intros [t0 w0] (? & ? & ?); split; [by destruct t0|split; by destruct w0]).

Section Reports.
Variable env : Env.
Variable i : nat.
Variable st : list MashTask.t.
Variable rp : list nat.

Lemma error_log_reporting msg : preserves (reporting i st rp) (error_log msg).
Proof. unfold error_log. preserves_reporting. Qed.

Lemma handler_reporting e : preserves (reporting i st rp) (handler env e).
Proof. unfold handler. preserves_reporting. Qed.

Lemma unlock_reporting : preserves (reporting i st rp) (_unlock env).
Proof. unfold _unlock. preserves_reporting. Qed.

Lemma move_builds_reporting : preserves (reporting i st rp) (move_builds env).
Proof.
  unfold move_builds, move_update, set_destination_tag, move_build. preserves_reporting.
Qed.

Lemma mash_reporting : preserves (reporting i st rp) (mash env).
Proof. unfold mash, mash_repo. preserves_reporting. Qed.

Lemma check_symlinked_reporting dir pkgs :
  preserves (reporting i st rp) (check_symlinked env dir pkgs).
Proof.
  induction pkgs as [|pkg pkgs IH]; cbn [check_symlinked].
  - preserves_reporting.
  - preserves_reporting. apply IH.
Qed.

Lemma update_symlinks_reporting : preserves (reporting i st rp) (update_symlinks env).
Proof.
  unfold update_symlinks. preserves_reporting.
  unfold stage_repo. destruct x as [repo mashdir]. preserves_reporting.
  - unfold check_arches, list_plus_str. preserves_reporting.
  - unfold first_item. preserves_reporting.
  - apply check_symlinked_reporting.
Qed.

Lemma from_mash_reporting m : preserves (on_run (reporting i st rp) m) (from_mash env).
Proof.
  unfold from_mash. repeat preserves_step; try apply preserves_on_run.
  - apply mash_reporting.
  - unfold complete_requests. preserves_reporting.
  - unfold generate_updateinfo. preserves_reporting.
  - apply update_symlinks_reporting.
  - unfold cache_repodata. preserves_reporting.
  - unfold wait_for_sync. preserves_reporting.
  - unfold send_notices. preserves_reporting.
Qed.

End Reports.

Section RunReports.
Variable env : Env.

Lemma masher_done_reports s :
  reports (masher_done env s).2.2 = reports s.2 ++ [MashTask.id s.1.1].
Proof.
  destruct s as [[t m] w]. unfold masher_done.
  pose proof (done_reports env t (m, w)) as H.
  by destruct (done env t (m, w)) as [o [m' w']].
Qed.

Lemma run_stages_reporting i st rp m :
  preserves (on_run (reporting i st rp) m) (run_stages env).
Proof.
  intros [[t m'] w] Hs. rewrite run_stages_eq.
  revert Hs. apply preserves_bind.
  - apply preserves_when. apply preserves_on_run, move_builds_reporting.
  - intros _. apply from_mash_reporting.
Qed.

(** [run] up to its last statement, when the consistency check is skipped
    or passes: the stages never report, and they end or hang. *)
Lemma run_unlock_reporting t m w :
  MashTask.safe t = true ->
  MashTask.resume t = true \/ failed_checks env (MashTask.updates t) = [] ->
  let r1 := run_unlock env (t, m, w) in
  on_run (reporting (MashTask.id t) (started w) (reports w)) m r1.2 /\
  (r1.1 = Ok false \/ r1.1 = Hang).
Proof.
  intros Hsafe Hc. cbn zeta. rewrite run_unlock_eq. unfold run_try, try_except.
  rewrite run_body_safe by done.
  assert (on_run (reporting (MashTask.id t) (started w) (reports w)) m (MashTask.set_success true t, m, w))
    as H0 by (by destruct t).
  pose proof (run_stages_reporting _ _ _ _ _ H0) as H1.
  pose proof (run_stages_never_true env (MashTask.set_success true t, m, w)) as Hn.
  destruct (run_stages env _) as [[[]|e|] s1]; cbn [fst snd] in *.
  - done.
  - destruct (MashTask.success s1.1.1); [|by auto].
    unfold mbind, M_bind, bind.
    pose proof (preserves_on_run _ m _ (unlock_reporting env (MashTask.id t) (started w) (reports w)) s1 H1)
      as H2.
    destruct (on_task (_unlock env) s1) as [[[]|?|] s2] eqn:E; cbn [fst snd] in *.
    + by auto.
    + exfalso. destruct s1 as [[t1 m1] w1]. unfold on_task, _unlock in E.
      revert E. msimpl. by destruct (MASHING w1).
    + exfalso. destruct s1 as [[t1 m1] w1]. unfold on_task, _unlock in E.
      revert E. msimpl. by destruct (MASHING w1).
  - unfold mbind, M_bind, bind.
    pose proof (preserves_on_run _ m _
                  (handler_reporting env (MashTask.id t) (started w) (reports w) e) s1 H1) as H2.
    destruct (on_task_handler env e s1) as (t' & w' & E & Hs & _).
    rewrite E in *. cbn [fst snd mret M_ret ret] in *. rewrite Hs. by auto.
  - by auto.
Qed.

(** X20: When the consistency check is skipped or passes, [run] reports to the
    orchestrator exactly once, as its last statement, whatever the stages
    did (they may have raised; the handlers swallow every exception), and
    it does not touch the orchestrator before.  The one exception is a run
    that never returns from a stage: it never reports. *)
Theorem run_reports_once t m w :
  MashTask.safe t = true ->
  MashTask.resume t = true \/ failed_checks env (MashTask.updates t) = [] ->
  let r1 := run_unlock env (t, m, w) in
  let r := run env (t, m, w) in
  r1.2.1.2 = m /\
  reports r1.2.2 = reports w /\
  ((r1.1 = Ok false /\ r = masher_done env r1.2 /\
    reports r.2.2 = reports w ++ [MashTask.id t]) \/
   (r1.1 = Hang /\ r.1 = Hang /\ reports r.2.2 = reports w)).
Proof.
  intros Hsafe Hc. cbn zeta. rewrite run_eq.
  destruct (run_unlock_reporting t m w Hsafe Hc) as ([(Hid & Hst & Hrp) Hm] & Ho).
  destruct (run_unlock env (t, m, w)) as [o s1]. cbn [fst snd] in *.
  split; [done|]. split; [done|].
  destruct Ho as [->| ->]; [left|right].
  - split; [done|]. split; [done|]. by rewrite masher_done_reports, Hrp, Hid.
  - done.
Qed.

(** X21: After a failed consistency check, with the lock in place and a request
    without [resume] at the end of the queue, [run] calls [masher.done]
    twice: the first call, inside the try block, fails to construct the
    waiting request, which is dropped; the handler swallows that exception,
    and the second call raises ValueError out of [run], the thread being
    no longer registered.  The report is mailed twice and the lock stays. *)
Theorem abort_reports_twice t m w q k us rs titles :
  MashTask.resume t = false ->
  failed_checks env (MashTask.updates t) <> [] ->
  MASHING w = Some titles ->
  Masher._queue m = q ++ [(k, us, rs, false)] ->
  Masher._threads m = [MashTask.id t] ->
  let r := run env (t, m, w) in
  r.1 = Raise ValueError /\
  reports r.2.2 = reports w ++ [MashTask.id t; MashTask.id t] /\
  Masher._queue r.2.1.2 = q /\
  Masher._threads r.2.1.2 = [] /\
  started r.2.2 = started w /\
  MASHING r.2.2 = Some titles.
Proof.
  intros Hr Hf HM Hq Ht. cbn zeta.
  assert (exists t' m' w',
            run env (t, m, w) = (Raise ValueError, (t', m', w')) /\
            reports w' = reports w ++ [MashTask.id t; MashTask.id t] /\
            Masher._queue m' = q /\ Masher._threads m' = [] /\
            started w' = started w /\ MASHING w' = Some titles)
    as (t' & m' & w' & -> & H); [|done].
  rewrite run_unsafe by done.
  unfold aborting.
  destruct (record_errors_task (failed_checks env (MashTask.updates t))
              (MashTask.set_success true t, w)) as (_ & _ & _ & _ & _ & Hid & _).
  destruct (record_errors_world (failed_checks env (MashTask.updates t))
              (MashTask.set_success true t, w)) as (G1 & _ & _ & _ & G5 & G6).
  destruct (record_errors _ _) as [t1 w1]. cbn [fst snd] in *.
  assert (MashTask.id t1 = MashTask.id t) as Hid' by (by destruct t).
  unfold masher_done at 1.
  destruct (done_dispatch_fails env t1 m
              (add_log ERROR "safe_to_move failed! -- aborting" w1) q k us rs titles)
    as (w2 & -> & H1 & H2 & H3); [by destruct w1; cbn in *; congruence|done|congruence|].
  destruct (on_task_handler env (MashTaskException "") (t1, Masher.set_queue q
          (Masher.set_threads []
             (Masher.set_last_log (MashTask.log t1) (Masher.set_mashing false m))), w2))
    as (t' & w' & -> & _ & Hh).
  destruct (handler_frame env (MashTaskException "") (t1, w2))
    as (_ & _ & _ & F4 & F5 & F6 & F7 & _).
  cbn [fst snd] in *. rewrite Hh in *. cbn [fst snd] in *.
  unfold masher_done. rewrite done_unregistered.
  2:{ destruct m. cbn. apply not_elem_of_nil. }
  assert (reports w1 = reports w /\ started w1 = started w /\ MASHING w1 = Some titles)
    as (G6' & G5' & G1') by (by rewrite G1, G5, G6).
  clear G1 G5 G6.
  assert (reports w2 = reports w ++ [MashTask.id t] /\ started w2 = started w)
    as (H3' & H2').
  { rewrite H3, H2, Hid'. destruct w1. cbn in *. by subst. }
  eexists _, _, _. split; [reflexivity|].
  split.
  { destruct w'. cbn in *. rewrite F5, H3', F7, Hid', <- app_assoc. done. }
  split; [by destruct m|]. split; [by destruct m|].
  split.
  { destruct w'. cbn in *. congruence. }
  destruct w'. cbn in *. congruence.
Qed.

End RunReports.

(** ** Runs that move no build *)

Section NoMove.
Variable env : Env.

Lemma untagged_trace_blind kc : trace_blind (untagged kc).
Proof. split; intros; by destruct w. Qed.

Lemma lock_untagged kc : preserves (in_world (untagged kc)) (_lock env).
Proof.
  pose proof (untagged_trace_blind kc) as HQ.
  unfold _lock, resume_title. preserves_blind HQ; intros; by destruct w.
Qed.

Lemma unlock_untagged kc : preserves (in_world (untagged kc)) (_unlock env).
Proof.
  pose proof (untagged_trace_blind kc) as HQ.
  unfold _unlock. preserves_blind HQ; intros; by destruct w.
Qed.

Lemma mash_untagged kc : preserves (in_world (untagged kc)) (mash env).
Proof.
  pose proof (untagged_trace_blind kc) as HQ.
  unfold mash, mash_repo. preserves_blind HQ; intros; by destruct w.
Qed.

Lemma masher_done_untagged kc : preserves (in_world (untagged kc)) (masher_done env).
Proof. apply masher_done_keeps; [apply untagged_trace_blind|apply lock_untagged]. Qed.

Lemma from_mash_untagged kc : preserves (in_world (untagged kc)) (from_mash env).
Proof.
  pose proof (untagged_trace_blind kc) as HQ.
  destruct (external_stages_blind env (untagged kc)) as (E1 & E2 & E3 & E4 & E5).
  unfold from_mash. preserves_blind HQ;
    first [ by apply mash_untagged | by apply update_symlinks_blind | done ].
Qed.

(** The try block of a run that has nothing to move. *)
Lemma run_body_untagged t m w :
  MashTask.resume t = true \/ MashTask.updates t = [] ->
  koji_calls (run_body env (t, m, w)).2.2 = koji_calls w.
Proof.
  intros Hc.
  assert (in_world (untagged (koji_calls w)) (t, m, w)) as H0 by done.
  assert (moves t = false) as Hm.
  { unfold moves. destruct Hc as [-> | ->]; [done|]. cbn. apply andb_false_r. }
  assert (in_world (untagged (koji_calls w)) (run_stages env (t, m, w)).2) as Hs.
  { rewrite run_stages_eq, Hm. by apply (from_mash_untagged (koji_calls w) (t, m, w)). }
  unfold run_body.
  unfold mbind at 1, M_bind at 1, bind at 1. cbn [on_task get_self fst snd].
  destruct (MashTask.resume t) eqn:Hr.
  - exact Hs.
  - destruct Hc as [|Hu]; [done|]. cbn [negb].
    unfold mbind at 1, M_bind at 1, bind at 1.
    unfold mbind at 1, M_bind at 1, bind at 1.
    unfold on_task at 1. rewrite safe_to_move_eq. cbn [fst snd].
    rewrite Hu. cbn [failed_checks flat_map record_errors foldl fst snd mret M_ret ret].
    destruct (MashTask.safe t); cbn [negb].
    + exact Hs.
    + unfold mbind at 1, M_bind at 1, bind at 1. cbn [on_task world_update modify fst snd].
      unfold mbind at 1, M_bind at 1, bind at 1.
      match goal with |- context [masher_done env ?s] =>
        assert (in_world (untagged (koji_calls w)) s) as H1 by (by destruct w);
        pose proof (masher_done_untagged (koji_calls w) s H1) as H2;
        destruct (masher_done env s) as [[[]|?|] s2] end; exact H2.
Qed.

Lemma run_untagged t m w :
  MashTask.resume t = true \/ MashTask.updates t = [] ->
  koji_calls (run env (t, m, w)).2.2 = koji_calls w.
Proof.
  intros Hc. rewrite run_eq, run_unlock_eq. unfold run_try, try_except.
  assert (MashTask.resume (MashTask.set_success true t) = true \/
          MashTask.updates (MashTask.set_success true t) = []) as Hc' by (by destruct t).
  pose proof (run_body_untagged (MashTask.set_success true t) m w Hc') as Hb.
  pose proof (untagged_trace_blind (koji_calls w)) as HQ.
  destruct (run_body env _) as [[[]|e|] s1]; cbn [fst snd] in *.
  - done.
  - destruct (MashTask.success s1.1.1).
    + unfold mbind, M_bind, bind.
      pose proof (preserves_on_task _ _ (unlock_untagged (koji_calls w)) s1 Hb) as H2.
      destruct (on_task (_unlock env) s1) as [[[]|?|] s2]; cbn [fst snd mret M_ret ret] in *;
        try exact H2.
      by apply (masher_done_untagged (koji_calls w)).
    + by apply (masher_done_untagged (koji_calls w)).
  - unfold mbind, M_bind, bind.
    pose proof (preserves_on_task _ _ (handler_blind env _ HQ e) s1 Hb) as H2.
    destruct (on_task_handler env e s1) as (t' & w' & E & Hs & _).
    rewrite E in *. cbn [fst snd mret M_ret ret] in *. rewrite Hs.
    by apply (masher_done_untagged (koji_calls w)).
  - done.
Qed.


(** X22: A run that resumes a push, or that has no update to push (the case of
    [mash_tags]), issues no tag mutation, however it ends and whatever the
    orchestrator dispatches when the run reports. *)
Theorem run_without_moves_tags_nothing t m w :
  MashTask.resume t = true \/ MashTask.updates t = [] ->
  koji_calls (run env (t, m, w)).2.2 = koji_calls w.
Proof. apply run_untagged. Qed.

End NoMove.

(** ** The hand-over to the next request *)

Section HandOver.
Variable env : Env.

(** [done] for the only running thread, with no lock in place and a
    request at the end of the queue. *)
Lemma done_dispatch_starts thread m w q k us rs resume :
  MASHING w = None ->
  Masher._queue m = q ++ [(k, us, rs, resume)] ->
  Masher._threads m = [MashTask.id thread] ->
  exists th m' w',
    done env thread (m, w) = (Ok tt, (m', w')) /\
    Masher._threads m' = [k] /\
    Masher._queue m' = q /\
    Masher.mashing m' = true /\
    Masher.last_log m' = MashTask.log thread /\
    started w' = started w ++ [th] /\
    MashTask.id th = k /\
    MashTask.updates th = as_set us /\
    MashTask.resume th = resume /\
    MASHING w' = Some (map title (as_set us)) /\
    reports w' = reports w ++ [MashTask.id thread].
Proof.
  intros HM Hq Ht. unfold done.
  cbv [mbind M_bind bind mret M_ret ret get_masher masher_update outside_update
       modify raise]. cbn [fst snd].
  assert (Masher._threads
            (Masher.set_last_log (MashTask.log thread) (Masher.set_mashing false m))
          = [MashTask.id thread]) as -> by (by destruct m).
  rewrite bool_decide_true by (by apply list_elem_of_singleton).
  rewrite remove_first_singleton.
  match goal with |- context [dispatch env (?m1, ?w1)] =>
    rewrite (dispatch_idle env m1 w1 q (k, us, rs, resume)) by (by destruct m) end.
  unfold _mash. cbn [fst snd].
  match goal with |- context [MashTask_init env k us rs resume ?w1] =>
    destruct (init_no_lock env k us rs resume w1)
      as (th & w' & -> & Hu & Hid & Hres & H1 & _ & _ & H2 & H3); [by destruct w|] end.
  cbv [mbind M_bind bind mret M_ret ret get_masher masher_update outside_update
       modify raise]. cbn [fst snd].
  exists th. eexists _, _. split; [reflexivity|].
  split; [destruct m; cbn; by rewrite Hid|]. split; [by destruct m|].
  split; [by destruct m|]. split; [by destruct m|].
  split; [destruct w'; cbn in *; rewrite H2; by destruct w|].
  split; [done|]. split; [done|]. split; [done|].
  split; [by destruct w'|].
  destruct w'; cbn in *. rewrite H3. by destruct w.
Qed.

(** X23: A run that ends with [success] set has removed its lock before it
    reports, so the request waiting at the end of the queue is always
    started by that report, with or without [resume]: its thread becomes the
    only one registered and a new lock holds the titles of its updates. *)
Theorem successful_run_hands_over t m w titles q k us rs resume :
  MASHING w = Some titles ->
  MashTask.safe t = true ->
  MashTask.resume t = true \/ failed_checks env (MashTask.updates t) = [] ->
  MashTask.success (run_unlock env (t, m, w)).2.1.1 = true ->
  (run_unlock env (t, m, w)).1 = Ok false ->
  Masher._queue m = q ++ [(k, us, rs, resume)] ->
  Masher._threads m = [MashTask.id t] ->
  let r := run env (t, m, w) in
  r.1 = Ok tt /\
  Masher._threads r.2.1.2 = [k] /\
  Masher._queue r.2.1.2 = q /\
  started_ids r.2.2 = started_ids w ++ [k] /\
  reports r.2.2 = reports w ++ [MashTask.id t] /\
  MASHING r.2.2 = Some (map title (as_set us)).
Proof.
  intros HM Hsafe Hc Hsucc Hok Hq Ht. cbn zeta.
  assert (exists m' w', run env (t, m, w) = (Ok tt, ((run_unlock env (t, m, w)).2.1.1, m', w')) /\
            Masher._threads m' = [k] /\ Masher._queue m' = q /\
            started_ids w' = started_ids w ++ [k] /\
            reports w' = reports w ++ [MashTask.id t] /\
            MASHING w' = Some (map title (as_set us)))
    as (m' & w' & -> & H); [|done].
  rewrite run_eq.
  destruct (run_unlock_reporting env t m w Hsafe Hc) as ([(Hid & Hst & Hrp) Hm] & _).
  assert (MASHING (run_unlock env (t, m, w)).2.2 = None) as Hnone.
  { revert Hsucc Hok. rewrite run_unlock_eq.
    assert (in_world (locked titles) (MashTask.set_success true t, m, w)) as HM' by done.
    pose proof (run_try_locked env titles _ HM') as Hl.
    destruct (run_try env _) as [[[]|e|] [[t' m1] w1]]; cbn [fst snd] in *; try done.
    destruct (MashTask.success t') eqn:Es; [|cbn [fst snd]; congruence].
    destruct (unlock_locked env titles t' w1 Hl) as (w2 & Hu & Hn & _).
    unfold mbind, M_bind, bind, on_task. by rewrite Hu. }
  destruct (run_unlock env (t, m, w)) as [o [[t1 m1] w1]]. cbn [fst snd] in *. subst o m1.
  unfold masher_done.
  destruct (done_dispatch_starts t1 m w1 q k us rs resume Hnone Hq)
    as (th & m' & w' & -> & G1 & G2 & _ & _ & G3 & G4 & _ & _ & G5 & G6); [congruence|].
  exists m', w'. split; [done|]. split; [done|]. split; [done|].
  unfold started_ids. rewrite G3, map_app, Hst. cbn. rewrite G4.
  split; [done|]. split; [congruence|done].
Qed.

End HandOver.

(** ** [mash_tags] *)

Section MashTags.
Variable env : Env.

(** The constructor with no update and no lock in place. *)
Lemma init_no_updates id rs resume w :
  MASHING w = None ->
  exists w',
    MashTask_init env id [] rs resume w = (Ok (new_task id [] rs resume), w') /\
    MASHING w' = Some [] /\
    koji_calls w' = koji_calls w /\
    mash_cmds w' = mash_cmds w /\
    started w' = started w.
Proof.
  intros HM. unfold MashTask_init, init_calls.
  assert (exists w1,
            (_lock env (new_task id [] rs resume, w)) = (Ok tt, (new_task id [] rs resume, w1)) /\
            MASHING w1 = Some [] /\
            koji_calls w1 = koji_calls w /\ mash_cmds w1 = mash_cmds w /\
            started w1 = started w)
    as (w1 & Hl & H1 & H2 & H3 & H4).
  { unfold _lock. destruct w as [d1 d2 mk kc mc fo st rp lg]. cbn in HM. subst mk.
    destruct d1, d2; msimpl; eexists; (split; [reflexivity|]); cbn; auto. }
  unfold mbind, M_bind, bind. rewrite Hl, find_repos_eq. cbn.
  exists w1. auto.
Qed.

(** X24: [mash_tags] on an idle orchestrator with no lock in place starts a
    push that has no update and composes exactly the tags given: the lock it
    writes names no update, and the run of that push issues no tag mutation
    in any situation. *)
Theorem mash_tags_starts_tag_only_push tags m w :
  Masher._threads m = [] ->
  MASHING w = None ->
  let r := mash_tags env tags (m, w) in
  let th := new_task (Masher.thread_id m) [] tags false in
  r.1 = Ok tt /\
  started r.2.2 = started w ++ [th] /\
  Masher._threads r.2.1 = [Masher.thread_id m] /\
  MashTask.repos th = tags /\
  MashTask.updates th = [] /\
  MASHING r.2.2 = Some [] /\
  koji_calls r.2.2 = koji_calls w /\
  (forall m' w', koji_calls (run env (th, m', w')).2.2 = koji_calls w').
Proof.
  intros Ht HM. cbn zeta. unfold mash_tags.
  destruct (queue_idle_no_lock env [] tags false m w Ht HM) as (th & w' & E & ->).
  destruct (init_no_updates (Masher.thread_id m) tags false w HM)
    as (w1 & E1 & H1 & H2 & _ & H4).
  rewrite E in E1. injection E1 as -> ->.
  cbn [fst snd].
  split; [done|]. split; [destruct w1; cbn in *; by rewrite H4|].
  split; [by destruct m|]. split; [done|]. split; [done|].
  split; [by destruct w1|]. split; [by destruct w1|].
  intros m' w'. apply run_untagged. by right.
Qed.

End MashTags.

(** ** [lastlog] *)

Section LastLog.
Variable env : Env.

Lemma dispatch_last_log s : Masher.last_log (dispatch env s).2.1 = Masher.last_log s.1.
Proof.
  destruct s as [m w].
  destruct (decide (Masher._threads m = [])) as [Ht|Ht]; [|by rewrite dispatch_busy].
  destruct (Masher._queue m) as [|r0 q0] eqn:Eq; [by rewrite dispatch_empty|].
  destruct (exists_last (l := r0 :: q0)) as (q & r & Hqr); [done|].
  rewrite Hqr in Eq. rewrite (dispatch_idle env m w q r Ht Eq).
  unfold _mash. destruct r as [[[id us] rs] resume]. cbn [fst snd].
  destruct (MashTask_init env id us rs resume w) as [[th|e|] w']; cbn; by destruct m.
Qed.

Lemma done_last_log thread s :
  Masher.last_log (done env thread s).2.1 = MashTask.log thread.
Proof.
  destruct s as [m w]. unfold done.
  cbv [mbind M_bind bind mret M_ret ret get_masher masher_update outside_update
       modify raise]. cbn [fst snd].
  destruct (bool_decide _); [|by destruct m].
  rewrite dispatch_last_log. by destruct m.
Qed.

Lemma truthy_join a b : truthy (Some (join a b)) = true.
Proof. unfold join. by destruct a. Qed.

(** X25: After a run whose composition failed, [lastlog] answers with the file
    that received the output of the failed composition, and with its
    content when the file is there; the outputs of the compositions that went
    well before are not what it shows.  This holds whatever [masher.done]
    did after recording the log (dispatching, raising). *)
Theorem lastlog_after_failed_composition fs t m w before bad after :
  MashTask.safe t = true ->
  MashTask.resume t = true \/ failed_checks env (MashTask.updates t) = [] ->
  (moves t = true ->
   wait_for_tasks env (map fst (plan (MashTask.updates t) (MashTask.tag t))) = 0) ->
  update_comps_raises env = None ->
  MashTask.repos t = before ++ bad :: after ->
  Forall (composes env) before ->
  ~ composes env bad ->
  lastlog fs (run env (t, m, w)).2.1.2
  = (Some (failed_output_of env),
     if file_exists fs (failed_output_of env) then file_read fs (failed_output_of env)
     else "Previous mash log not available").
Proof.
  intros Hsafe Hc Hw Hu Hrs Hok Hbad.
  rewrite run_eq.
  rewrite (run_unlock_failed_composition env t m w before bad after) by done.
  set (failed := failed_composition env _ bad).
  destruct (handler_frame env (MashTaskException "Mash failed") failed)
    as (_ & _ & _ & _ & _ & _ & _ & _ & Hlog).
  destruct (handler env (MashTaskException "Mash failed") failed) as [o [t3 w3]].
  cbn [fst snd] in *.
  assert (MashTask.log t3 = Some (failed_output_of env)) as Hl.
  { rewrite Hlog. unfold failed, failed_composition. cbn [fst snd].
    by destruct (foldl _ _ _) as [[] ?]. }
  unfold masher_done.
  pose proof (done_last_log t3 (m, w3)) as Hd.
  destruct (done env t3 (m, w3)) as [o' [m' w']]. cbn [fst snd] in *.
  unfold lastlog. rewrite Hd, Hl. cbn [default].
  unfold failed_output_of. by rewrite truthy_join.
Qed.

End LastLog.

(** ** The digest of the updates pushed to testing *)

Section DigestProperties.
Variable get_template : PackageUpdate -> list (string * string).
Variable str_title : string -> string.
Variable bodhi_email : string.
Variable test_announce_list : string.

Lemma digest_loop prefix u n parts d c :
  d !! prefix = Some c ->
  for_each (imap (fun i p => ((n + i)%nat, p)) parts) (digest_part prefix u) d
  = (if (List.length parts <=? List.length (drop n (builds u)))%nat
     then Ok tt else Raise IndexError,
     <[prefix := stored c (zip (map nvr (drop n (builds u))) (map snd parts))]> d).
Proof.
  revert n d c. induction parts as [|p parts IH]; intros n d c Hd.
  - cbn [map]. rewrite zip_with_nil_r. unfold stored. cbn [foldl].
    rewrite insert_id by done. reflexivity.
  - rewrite imap_cons. cbn [for_each]. unfold mbind at 1, M_bind at 1, bind at 1.
    unfold digest_part at 1. cbn [fst snd]. rewrite Nat.add_0_r.
    destruct (builds u !! n) as [b|] eqn:Eb.
    + rewrite (drop_S _ _ _ Eb).
      unfold mbind at 1, M_bind at 1, bind at 1. cbn [get]. rewrite Hd.
      cbn [modify].
      rewrite (imap_ext _ (fun i p => ((S n + i)%nat, p))).
      2:{ intros i x _. cbn. f_equal. lia. }
      rewrite (IH (S n) _ (<[nvr b := p.2]> c)) by by rewrite lookup_insert_eq.
      cbn [List.length map zip zip_with]. rewrite insert_insert_eq.
      reflexivity.
    + apply lookup_ge_None_1 in Eb. rewrite drop_ge by lia.
      unfold stored. cbn [map zip_with foldl List.length Nat.leb].
      rewrite insert_id by done. reflexivity.
Qed.

Lemma add_to_digest_eq u d :
  add_to_digest get_template u d
  = (if (List.length (get_template u) <=? List.length (builds u))%nat
     then Ok tt else Raise IndexError,
     <[long_name (release u) :=
         stored (default ∅ (d !! long_name (release u)))
           (digest_entries u (get_template u))]> d).
Proof.
  unfold add_to_digest, digest_entries.
  unfold mbind at 1, M_bind at 1, bind at 1. cbn [get].
  unfold mbind at 1, M_bind at 1, bind at 1.
  pose proof (digest_loop (long_name (release u)) u 0 (get_template u)) as Hl.
  rewrite drop_0 in Hl.
  destruct (d !! long_name (release u)) as [c|] eqn:Ed.
  - rewrite bool_decide_eq_true_2 by done. cbn [negb when ret default].
    by apply Hl.
  - rewrite bool_decide_eq_false_2 by (by intros [? ?]). cbn [negb when modify default].
    rewrite (Hl _ ∅) by by rewrite lookup_insert_eq.
    by rewrite insert_insert_eq.
Qed.

Lemma stored_snoc c es e : stored c (es ++ [e]) = <[e.1 := e.2]> (stored c es).
Proof. unfold stored. by rewrite foldl_app. Qed.

Lemma stored_is_Some c es k :
  k ∈ map fst es -> is_Some (stored c es !! k).
Proof.
  induction es as [|e es IH] using rev_ind; [by intros ?%elem_of_nil|].
  rewrite map_app, stored_snoc. intros Hin.
  destruct (decide (k = e.1)) as [->|Hne]; [by rewrite lookup_insert_eq|].
  rewrite lookup_insert_ne by done. apply IH.
  apply elem_of_app in Hin as [|Hin]; [done|].
  apply list_elem_of_singleton in Hin. done.
Qed.

Lemma stored_lookup_other c es k :
  k ∉ map fst es -> stored c es !! k = c !! k.
Proof.
  induction es as [|e es IH] using rev_ind; [done|].
  rewrite map_app, stored_snoc. intros Hin.
  apply not_elem_of_app in Hin as [H1 H2].
  rewrite lookup_insert_ne; [by apply IH|].
  intros <-. apply H2. by left.
Qed.

(** X26: [add_to_digest] for an update whose template has more parts than the
    update has builds raises IndexError, and by then it has stored a text for
    every build of the update: the digest keeps the entries written before
    the exception.  The digests of the other releases are untouched. *)
Theorem add_to_digest_keeps_partial_entries u d :
  (List.length (builds u) < List.length (get_template u))%nat ->
  let r := add_to_digest get_template u d in
  r.1 = Raise IndexError /\
  (exists content,
     r.2 !! long_name (release u) = Some content /\
     (forall b, b ∈ builds u -> is_Some (content !! nvr b)) /\
     (forall k, k ∉ map nvr (builds u) ->
        content !! k = default ∅ (d !! long_name (release u)) !! k)) /\
  (forall prefix, prefix <> long_name (release u) -> r.2 !! prefix = d !! prefix).
Proof.
  intros Hlen. cbn zeta. rewrite add_to_digest_eq. cbn [fst snd].
  assert (map fst (digest_entries u (get_template u)) = map nvr (builds u)) as Hk.
  { unfold digest_entries. rewrite fst_zip; [done|]. rewrite !length_map. lia. }
  split.
  - destruct (Nat.leb_spec (List.length (get_template u)) (List.length (builds u)));
      [lia|done].
  - split.
    + eexists. split; [apply lookup_insert_eq|]. split.
      * intros b Hb. apply stored_is_Some. rewrite Hk. by apply list_elem_of_fmap_2.
      * intros k Hk'. apply stored_lookup_other. by rewrite Hk.
    + intros prefix Hne. by rewrite lookup_insert_ne.
Qed.

Lemma str_le_total : Total str_le.
Proof. intros a b. apply String.leb_total. Qed.

Lemma append_assoc (a b c : string) : (a +:+ b) +:+ c = a +:+ (b +:+ c).
Proof.
  induction a as [|x a IH]; [done|].
  change (String x ((a +:+ b) +:+ c) = String x (a +:+ (b +:+ c))). by f_equal.
Qed.

Lemma append_nil_r (a : string) : a +:+ "" = a.
Proof.
  induction a as [|x a IH]; [done|].
  change (String x (a +:+ "") = String x a). by f_equal.
Qed.

Lemma foldl_append {A} (f : A -> string) (l : list A) (h : string) :
  foldl (fun text x => text +:+ f x) h l = h +:+ String.concat "" (map f l).
Proof.
  revert h. induction l as [|x l IH]; intros h; cbn [foldl map].
  - cbn. by rewrite append_nil_r.
  - rewrite IH, append_assoc. f_equal.
    destruct l as [|y l]; cbn; [by rewrite append_nil_r|done].
Qed.

Lemma sorted_keys_spec (content : gmap string string) :
  Sorted str_le (sorted_keys content) /\
  NoDup (sorted_keys content) /\
  (forall k, k ∈ sorted_keys content <-> is_Some (content !! k)).
Proof.
  unfold sorted_keys. split; [apply Sorted_merge_sort, str_le_total|].
  split.
  - rewrite merge_sort_Permutation. apply NoDup_fst_map_to_list.
  - intros k. rewrite merge_sort_Permutation, list_elem_of_fmap. split.
    + intros ([k' v] & -> & Hin). apply elem_of_map_to_list in Hin. by exists v.
    + intros [v Hv]. exists (k, v). split; [done|]. by apply elem_of_map_to_list.
Qed.

(** X27: [send_digest_mail] sends one mail for each release of the digest.  The
    mail of a release lists every build of its digest once, in ascending
    order, and then the text of each build in the same order. *)
Theorem digest_mail_lists_builds_in_order d :
  List.length (send_digest_mail str_title bodhi_email test_announce_list d) = size d /\
  forall prefix content, d !! prefix = Some content ->
    let updlist := sorted_keys content in
    Sorted str_le updlist /\
    NoDup updlist /\
    (forall k, k ∈ updlist <-> is_Some (content !! k)) /\
    {| mail_from := bodhi_email;
       mail_to := test_announce_list;
       mail_subject := str_title prefix +:+ " updates-testing report";
       mail_body :=
         ("The following builds have been pushed to " +:+ prefix
          +:+ " updates-testing" +:+ nl +:+ nl)
         +:+ String.concat "" (map (fun pkg => "    " +:+ pkg +:+ nl) updlist)
         +:+ (nl +:+ "Details about builds:" +:+ nl +:+ nl)
         +:+ String.concat ""
               (map (fun k => nl +:+ default "" (content !! k)) updlist) |}
    ∈ send_digest_mail str_title bodhi_email test_announce_list d.
Proof.
  split.
  - unfold send_digest_mail. by rewrite length_map, length_map_to_list.
  - intros prefix content Hd. cbn zeta.
    destruct (sorted_keys_spec content) as (H1 & H2 & H3).
    split; [done|]. split; [done|]. split; [done|].
    unfold send_digest_mail. apply list_elem_of_fmap.
    exists (prefix, content). split; [|by apply elem_of_map_to_list].
    cbn [fst snd]. f_equal. unfold maildata.
    rewrite (foldl_append (fun k => nl +:+ default "" (content !! k))).
    rewrite (foldl_append (fun pkg => "    " +:+ pkg +:+ nl)).
    by rewrite !append_assoc.
Qed.

(** X28: An update whose template has no part still opens the digest of its
    release: the release then gets a mail that lists no build. *)
Theorem empty_template_still_mails u d :
  get_template u = [] ->
  d !! long_name (release u) = None ->
  let r := add_to_digest get_template u d in
  r.1 = Ok tt /\
  r.2 !! long_name (release u) = Some ∅ /\
  {| mail_from := bodhi_email;
     mail_to := test_announce_list;
     mail_subject := str_title (long_name (release u)) +:+ " updates-testing report";
     mail_body :=
       "The following builds have been pushed to " +:+ long_name (release u)
       +:+ " updates-testing" +:+ nl +:+ nl +:+ nl +:+ "Details about builds:"
       +:+ nl +:+ nl |}
  ∈ send_digest_mail str_title bodhi_email test_announce_list r.2.
Proof.
  intros Ht Hd. cbn zeta. rewrite add_to_digest_eq, Ht, Hd. cbn [fst snd].
  unfold digest_entries. cbn [map default]. rewrite zip_with_nil_r.
  unfold stored. cbn [foldl].
  split; [done|]. split; [by rewrite lookup_insert_eq|].
  unfold send_digest_mail. apply list_elem_of_fmap.
  exists (long_name (release u), ∅). split.
  - cbn [fst snd]. f_equal. unfold maildata, sorted_keys.
    rewrite map_to_list_empty. cbn. by rewrite !append_assoc.
  - apply elem_of_map_to_list. by rewrite lookup_insert_eq.
Qed.

End DigestProperties.

(** * The comment service *)

Section CommentProperties.
Variable Comment : Type.
Variable update_comment : string -> bool -> option Comment.

Lemma truthy_Some_inv a : truthy a = true -> exists s, a = Some s /\ s <> "".
Proof. destruct a as [[|c s]|]; try done. intros _. by eexists. Qed.

(** X29: [new_comment] creates a comment only for a non-empty author, and the
    comment is anonymous exactly when an e-mail address was given: the
    address is then the author even when a user is logged in, and otherwise
    the author is the logged-in user.  The request is left as it was.  When
    no comment is created, one error is added to the request; the status is
    set to 400 when the author is missing, and not touched when
    [update.comment] raised. *)
Theorem new_comment_author_and_errors email request :
  let r := Comments.new_comment Comment update_comment email request in
  match r.1 with
  | Some com =>
      r.2 = request /\
      exists author,
        author <> "" /\
        update_comment author (truthy email) = Some com /\
        (if truthy email then email = Some author
         else Comments.user request = Some author)
  | None =>
      (truthy (Comments.author_of email request) = false /\
       Comments.errors r.2
       = Comments.errors request ++ [("body", "email", "You must provide an author")] /\
       Comments.status r.2 = Some 400) \/
      (truthy (Comments.author_of email request) = true /\
       Comments.errors r.2
       = Comments.errors request ++ [("body", "comment", "Unable to create comment")] /\
       Comments.status r.2 = Comments.status request)
  end.
Proof.
  cbn zeta. unfold Comments.new_comment.
  destruct (truthy (Comments.author_of email request)) eqn:Ea; cbn [negb].
  - destruct (truthy_Some_inv _ Ea) as (author & Hau & Hne).
    rewrite Hau. change (default "" (Some author)) with author. rewrite orb_false_r.
    destruct (update_comment author (truthy email)) as [com|] eqn:Ec; cbn [fst snd].
    + split; [done|]. exists author. split; [done|]. split; [done|].
      unfold Comments.author_of in Hau. by destruct (truthy email).
    + right. rewrite Hau in Ea. done.
  - left. done.
Qed.

End CommentProperties.

(** ** The default value of [repos] *)

Section DefaultRepos.
Variable env : Env.

(** [_lock] does not touch [self.repos]. *)
Lemma lock_keeps_repos rs :
  preserves (fun s : TaskState => MashTask.repos s.1 = rs) (_lock env).
Proof.
  unfold _lock, resume_title. repeat preserves_step;
    try (intros [t0 w0] H0; by destruct t0).
Qed.

Lemma init_repos_extend id us rs resume w self w' :
  MashTask_init env id us rs resume w = (Ok self, w') ->
  exists added, MashTask.repos self = rs ++ added.
Proof.
  unfold MashTask_init, init_calls. unfold mbind, M_bind, bind.
  pose proof (lock_keeps_repos rs (new_task id us rs resume, w) eq_refl) as Hrs.
  destruct (_lock env (new_task id us rs resume, w)) as [[[]|e|] [t1 w1]] eqn:El;
    [|done|done].
  cbn [fst snd] in Hrs.
  rewrite find_repos_eq. cbn [fst snd].
  destruct (find_repos_steps_extend (MashTask.resume t1) (MashTask.updates t1) (t1, w1))
    as (added & Ha & _).
  destruct (foldl _ _ _) as [t2 w2]. intros [= <- <-].
  exists added. cbn in Ha. by rewrite Ha, Hrs.
Qed.

(** X30: The repositories of the pushes that are submitted without [repos]
    accumulate: such a push composes every repository that any earlier
    push without [repos] composed, whatever its own updates are, because
    all of them add to the one default set. *)
Theorem default_repos_accumulate id1 us1 resume1 id2 us2 resume2 shared w1 w2 th1 th2 s1 s2 :
  MashTask_init_default env id1 us1 resume1 (shared, w1) = (Ok th1, s1) ->
  MashTask_init_default env id2 us2 resume2 (s1.1, w2) = (Ok th2, s2) ->
  (forall r, r ∈ shared -> r ∈ MashTask.repos th1) /\
  (forall r, r ∈ MashTask.repos th1 -> r ∈ MashTask.repos th2) /\
  s1.1 = MashTask.repos th1 /\
  s2.1 = MashTask.repos th2.
Proof.
  unfold MashTask_init_default. cbn [fst snd].
  destruct (MashTask_init env id1 us1 shared resume1 w1) as [[t1|?|] w1'] eqn:E1;
    [|done|done].
  intros [= <- <-]. cbn [fst snd].
  destruct (MashTask_init env id2 us2 (MashTask.repos t1) resume2 w2)
    as [[t2|?|] w2'] eqn:E2; [|done|done].
  intros [= <- <-]. cbn [fst snd].
  destruct (init_repos_extend _ _ _ _ _ _ _ E1) as (a1 & H1).
  destruct (init_repos_extend _ _ _ _ _ _ _ E2) as (a2 & H2).
  split; [|split; [|split; [done|done]]].
  - intros r Hr. rewrite H1. apply elem_of_app. by left.
  - intros r Hr. rewrite H2. apply elem_of_app. by left.
Qed.

End DefaultRepos.

(** * The further properties at the small installation *)

(** A resumed push asks for both repositories of the release of its update. *)
Lemma find_repos_resume_witness :
  MashTask.resume (resumed_task, idle_world).1 = true /\
  ("f8-updates" ∈ MashTask.repos (_find_repos (resumed_task, idle_world)).2.1 <->
   "f8-updates" ∈ MashTask.repos (resumed_task, idle_world).1 \/
   exists u, u ∈ MashTask.updates (resumed_task, idle_world).1 /\
             ("f8-updates" = release_of u +:+ "-updates" \/
              "f8-updates" = release_of u +:+ "-updates-testing")).
Proof.
  split; [reflexivity|].
  apply (find_repos_resume (resumed_task, idle_world) "f8-updates"). reflexivity.
Defined.

Lemma find_repos_no_resume_witness :
  MashTask.resume (first_thread, idle_world).1 = false /\
  ("f8-updates-testing" ∈ MashTask.repos (_find_repos (first_thread, idle_world)).2.1 <->
   "f8-updates-testing" ∈ MashTask.repos (first_thread, idle_world).1 \/
   exists u, u ∈ MashTask.updates (first_thread, idle_world).1 /\
     (("f8-updates-testing" = release_of u +:+ "-updates" /\
       (request u = Some "stable" \/
        (request u = Some "obsolete" /\ status u = "stable"))) \/
      ("f8-updates-testing" = release_of u +:+ "-updates-testing" /\
       (request u = Some "testing" \/
        (status u = "testing" /\
         (request u = Some "stable" \/ request u = Some "obsolete")))))).
Proof.
  split; [reflexivity|].
  apply (find_repos_no_resume (first_thread, idle_world) "f8-updates-testing"). reflexivity.
Defined.


Lemma lock_resume_round_trip_witness :
  MASHING idle_world = None /\
  (forall u, u ∈ [foo_update; bar_update] -> byTitle example_env (title u) = Some u) /\
  exists a w1 b w2,
    MashTask_init example_env 0 [foo_update; bar_update] [] false idle_world = (Ok a, w1) /\
    MashTask_init example_env 1 [] [] true w1 = (Ok b, w2) /\
    (forall u, u ∈ MashTask.updates b <-> u ∈ MashTask.updates a) /\
    (forall u, u ∈ MashTask.updates b <-> u ∈ [foo_update; bar_update]) /\
    MASHING w2 = MASHING w1.
Proof.
  assert (forall u, u ∈ [foo_update; bar_update] -> byTitle example_env (title u) = Some u)
    as H.
  { intros u Hu. apply elem_of_cons in Hu as [->|Hu]; [reflexivity|].
    apply list_elem_of_singleton in Hu as ->. reflexivity. }
  split; [reflexivity|]. split; [exact H|].
  apply (lock_resume_round_trip example_env 0 1 [foo_update; bar_update] [] [] false
           idle_world); [reflexivity|exact H].
Defined.

Lemma queue_while_busy_witness :
  Masher._threads busy_masher <> [] /\
  queue example_env [baz_update] [] false (busy_masher, idle_world)
  = (Ok tt,
     (Masher.set_thread_id (Masher.thread_id busy_masher + 1)%nat
        (Masher.set_queue
           (Masher._queue busy_masher ++ [(Masher.thread_id busy_masher, [baz_update], [], false)])
           busy_masher),
      idle_world)).
Proof.
  split; [discriminate|].
  apply (queue_while_busy example_env [baz_update] [] false busy_masher idle_world).
  discriminate.
Defined.

Lemma queue_while_idle_starts_witness :
  Masher._threads Masher_init = [] /\
  MASHING idle_world = None /\
  let r := queue example_env [foo_update] [] false (Masher_init, idle_world) in
  r.1 = Ok tt /\
  Masher._threads r.2.1 = [Masher.thread_id Masher_init] /\
  Masher._queue r.2.1 = Masher._queue Masher_init /\
  Masher.thread_id r.2.1 = (Masher.thread_id Masher_init + 1)%nat /\
  Masher.mashing r.2.1 = true /\
  started_ids r.2.2 = started_ids idle_world ++ [Masher.thread_id Masher_init] /\
  MASHING r.2.2 = Some (map title (as_set [foo_update])).
Proof.
  split; [reflexivity|]. split; [reflexivity|].
  apply (queue_while_idle_starts example_env [foo_update] [] false Masher_init idle_world);
    reflexivity.
Defined.

Lemma done_twice_raises_witness :
  (MashTask.id first_thread ∉ Masher._threads Masher_init) /\
  done example_env first_thread (Masher_init, idle_world)
  = (Raise ValueError,
     (Masher.set_last_log (MashTask.log first_thread)
        (Masher.set_mashing false Masher_init),
      add_report (MashTask.id first_thread)
        (add_log INFO ("MashTask " +:+ pretty (MashTask.id first_thread) +:+ " done!")
           idle_world))).
Proof.
  split; [apply not_elem_of_nil|].
  apply (done_twice_raises example_env first_thread Masher_init idle_world).
  apply not_elem_of_nil.
Defined.

Lemma mashing_flag_means_running_witness :
  let s := calls example_env [call_queue [foo_update] [] false] (Masher_init, idle_world) in
  Masher.mashing s.1 = true /\ Masher._threads s.1 <> [].
Proof.
  split; [reflexivity|].
  apply (mashing_flag_means_running example_env [call_queue [foo_update] [] false]
           idle_world).
  reflexivity.
Defined.

Lemma request_ids_unique_witness :
  started idle_world = [] /\
  let s := calls example_env
             [call_queue [foo_update] [] false; call_queue [bar_update] [] false]
             (Masher_init, idle_world) in
  Masher.thread_id s.1
  = submissions [call_queue [foo_update] [] false; call_queue [bar_update] [] false] /\
  NoDup (queued_ids s.1 ++ started_ids s.2) /\
  (forall i, i ∈ queued_ids s.1 ++ started_ids s.2 -> (i < Masher.thread_id s.1)%nat).
Proof.
  split; [reflexivity|].
  apply (request_ids_unique example_env
           [call_queue [foo_update] [] false; call_queue [bar_update] [] false] idle_world).
  reflexivity.
Defined.

Lemma recognised_requests_set_tag_witness :
  MashTask.updates unpush_task = [] ++ foo_update :: [bar_update] /\
  recomputes foo_update = true /\
  let r := move_builds example_env (unpush_task, idle_world) in
  let own :=
    if request_is foo_update "stable" then dist_tag (release foo_update) +:+ "-updates"
    else if request_is foo_update "testing"
         then dist_tag (release foo_update) +:+ "-updates-testing"
         else dist_tag (release foo_update) +:+ "-updates-candidate" in
  MashTask.actions r.2.1
  = MashTask.actions unpush_task ++ map snd (plan [] (MashTask.tag unpush_task))
      ++ map (fun b => (nvr b, get_build_tag foo_update, Some own)) (builds foo_update)
      ++ map snd (plan [bar_update] (Some own)) /\
  koji_calls r.2.2
  = koji_calls idle_world ++ map fst (plan [] (MashTask.tag unpush_task))
      ++ map (planned_call (Some own) (get_build_tag foo_update)) (builds foo_update)
      ++ map fst (plan [bar_update] (Some own)).
Proof.
  split; [reflexivity|]. split; [reflexivity|].
  apply (recognised_requests_set_tag example_env unpush_task idle_world [] foo_update
           [bar_update]); reflexivity.
Defined.

Lemma safe_to_move_blind_spots_witness :
  Forall unchecked (MashTask.updates stale_task) /\
  safe_to_move example_env (stale_task, idle_world)
  = (Ok (MashTask.safe stale_task), (stale_task, idle_world)).
Proof.
  assert (Forall unchecked (MashTask.updates stale_task)) as H.
  { constructor; [|constructor].
    unfold unchecked. right. left. cbn.
    split; [reflexivity|]. split; discriminate. }
  split; [exact H|].
  apply (safe_to_move_blind_spots example_env stale_task idle_world). exact H.
Defined.

Lemma mash_stops_at_first_failure_witness :
  update_comps_raises broken_env = None /\
  MashTask.repos resumed_task = ["f8-updates"] ++ "f8-updates-testing" :: [] /\
  Forall (composes broken_env) ["f8-updates"] /\
  ~ composes broken_env "f8-updates-testing" /\
  let r := mash broken_env (resumed_task, idle_world) in
  r.1 = Raise (MashTaskException "Mash failed") /\
  mash_cmds r.2.2
  = mash_cmds idle_world
      ++ map (mash_command_of broken_env) (["f8-updates"] ++ ["f8-updates-testing"]) /\
  MashTask.success r.2.1 = false /\
  MashTask.log r.2.1 = Some (failed_output_of broken_env) /\
  MashTask.mashing r.2.1 = true /\
  MashTask.mashed_repos r.2.1 !! "f8-updates-testing"
  = Some (mashdir_of broken_env "f8-updates-testing") /\
  koji_calls r.2.2 = koji_calls idle_world.
Proof.
  assert (Forall (composes broken_env) ["f8-updates"]) as H1.
  { constructor; [reflexivity|constructor]. }
  assert (~ composes broken_env "f8-updates-testing") as H2.
  { unfold composes. vm_compute. discriminate. }
  split; [reflexivity|]. split; [reflexivity|]. split; [exact H1|]. split; [exact H2|].
  apply (mash_stops_at_first_failure broken_env resumed_task idle_world
           ["f8-updates"] "f8-updates-testing" []);
    [reflexivity|reflexivity|exact H1|exact H2].
Defined.

Lemma mash_composes_every_repo_witness :
  update_comps_raises example_env = None /\
  Forall (composes example_env) (MashTask.repos resumed_task) /\
  let r := mash example_env (resumed_task, idle_world) in
  r.1 = Ok tt /\
  mash_cmds r.2.2
  = mash_cmds idle_world ++ map (mash_command_of example_env) (MashTask.repos resumed_task) /\
  (forall repo, repo ∈ MashTask.repos resumed_task ->
     MashTask.mashed_repos r.2.1 !! repo = Some (mashdir_of example_env repo)) /\
  (forall repo, repo ∉ MashTask.repos resumed_task ->
     MashTask.mashed_repos r.2.1 !! repo = MashTask.mashed_repos resumed_task !! repo) /\
  MashTask.mashing r.2.1 = false /\
  MashTask.success r.2.1
  = (if MashTask.repos resumed_task is [] then MashTask.success resumed_task else true).
Proof.
  assert (Forall (composes example_env) (MashTask.repos resumed_task)) as H1.
  { constructor; [reflexivity|]. constructor; [reflexivity|constructor]. }
  split; [reflexivity|]. split; [exact H1|].
  apply (mash_composes_every_repo example_env resumed_task idle_world);
    [reflexivity|exact H1].
Defined.


Lemma configured_arches_block_publishing_witness :
  arches arches_env <> [] /\
  let r := update_symlinks arches_env (composed_task, idle_world) in
  (MashTask.mashed_repos composed_task <> ∅ -> r.1 = Raise TypeError) /\
  (MashTask.mashed_repos composed_task = ∅ -> r = (Ok tt, (composed_task, idle_world))) /\
  r.2.1 = composed_task /\
  exists renames, fs_ops r.2.2 = fs_ops idle_world ++ renames /\ Forall is_move renames.
Proof.
  split; [discriminate|].
  apply (configured_arches_block_publishing arches_env composed_task idle_world).
  discriminate.
Defined.

Lemma run_reports_once_witness :
  MashTask.safe first_thread = true /\
  failed_checks example_env (MashTask.updates first_thread) = [] /\
  let r1 := run_unlock example_env (first_thread, busy_masher, idle_world) in
  let r := run example_env (first_thread, busy_masher, idle_world) in
  r1.2.1.2 = busy_masher /\
  reports r1.2.2 = reports idle_world /\
  ((r1.1 = Ok false /\ r = masher_done example_env r1.2 /\
    reports r.2.2 = reports idle_world ++ [MashTask.id first_thread]) \/
   (r1.1 = Hang /\ r.1 = Hang /\ reports r.2.2 = reports idle_world)).
Proof.
  split; [reflexivity|]. split; [vm_compute; reflexivity|].
  apply (run_reports_once example_env first_thread busy_masher idle_world);
    [reflexivity|right; vm_compute; reflexivity].
Defined.

Lemma abort_reports_twice_witness :
  MashTask.resume mixed_task = false /\
  failed_checks example_env (MashTask.updates mixed_task) <> [] /\
  MASHING locked_world = Some ["foo-1.0-1.fc8"; "gone-0.1-1.fc8"] /\
  Masher._queue busy_masher = [] ++ [(1%nat, [bar_update], [], false)] /\
  Masher._threads busy_masher = [MashTask.id mixed_task] /\
  let r := run example_env (mixed_task, busy_masher, locked_world) in
  r.1 = Raise ValueError /\
  reports r.2.2 = reports locked_world ++ [MashTask.id mixed_task; MashTask.id mixed_task] /\
  Masher._queue r.2.1.2 = [] /\
  Masher._threads r.2.1.2 = [] /\
  started r.2.2 = started locked_world /\
  MASHING r.2.2 = Some ["foo-1.0-1.fc8"; "gone-0.1-1.fc8"].
Proof.
  assert (failed_checks example_env (MashTask.updates mixed_task) <> []) as H.
  { vm_compute. discriminate. }
  split; [reflexivity|]. split; [exact H|]. split; [reflexivity|].
  split; [reflexivity|]. split; [reflexivity|].
  apply (abort_reports_twice example_env mixed_task busy_masher locked_world []
           1%nat [bar_update] [] ["foo-1.0-1.fc8"; "gone-0.1-1.fc8"]);
    [reflexivity|exact H|reflexivity|reflexivity|reflexivity].
Defined.

Lemma run_without_moves_tags_nothing_witness :
  MashTask.resume resumed_task = true /\
  koji_calls (run example_env (resumed_task, busy_masher, locked_world)).2.2
  = koji_calls locked_world.
Proof.
  split; [reflexivity|].
  apply (run_without_moves_tags_nothing example_env resumed_task busy_masher locked_world).
  left. reflexivity.
Defined.

Lemma successful_run_hands_over_witness :
  MASHING locked_world = Some ["foo-1.0-1.fc8"; "gone-0.1-1.fc8"] /\
  MashTask.safe first_thread = true /\
  failed_checks example_env (MashTask.updates first_thread) = [] /\
  MashTask.success (run_unlock example_env (first_thread, busy_masher, locked_world)).2.1.1
  = true /\
  (run_unlock example_env (first_thread, busy_masher, locked_world)).1 = Ok false /\
  Masher._queue busy_masher = [] ++ [(1%nat, [bar_update], [], false)] /\
  Masher._threads busy_masher = [MashTask.id first_thread] /\
  let r := run example_env (first_thread, busy_masher, locked_world) in
  r.1 = Ok tt /\
  Masher._threads r.2.1.2 = [1%nat] /\
  Masher._queue r.2.1.2 = [] /\
  started_ids r.2.2 = started_ids locked_world ++ [1%nat] /\
  reports r.2.2 = reports locked_world ++ [MashTask.id first_thread] /\
  MASHING r.2.2 = Some (map title (as_set [bar_update])).
Proof.
  split; [reflexivity|]. split; [reflexivity|]. split; [vm_compute; reflexivity|].
  split; [vm_compute; reflexivity|]. split; [vm_compute; reflexivity|].
  split; [reflexivity|]. split; [reflexivity|].
  apply (successful_run_hands_over example_env first_thread busy_masher locked_world
           ["foo-1.0-1.fc8"; "gone-0.1-1.fc8"] [] 1%nat [bar_update] [] false);
    [reflexivity|reflexivity|right; vm_compute; reflexivity|vm_compute; reflexivity
    |vm_compute; reflexivity|reflexivity|reflexivity].
Defined.

Lemma mash_tags_starts_tag_only_push_witness :
  Masher._threads Masher_init = [] /\
  MASHING idle_world = None /\
  let r := mash_tags example_env ["f8-updates"] (Masher_init, idle_world) in
  let th := new_task (Masher.thread_id Masher_init) [] ["f8-updates"] false in
  r.1 = Ok tt /\
  started r.2.2 = started idle_world ++ [th] /\
  Masher._threads r.2.1 = [Masher.thread_id Masher_init] /\
  MashTask.repos th = ["f8-updates"] /\
  MashTask.updates th = [] /\
  MASHING r.2.2 = Some [] /\
  koji_calls r.2.2 = koji_calls idle_world /\
  (forall m' w', koji_calls (run example_env (th, m', w')).2.2 = koji_calls w').
Proof.
  split; [reflexivity|]. split; [reflexivity|].
  apply (mash_tags_starts_tag_only_push example_env ["f8-updates"] Masher_init idle_world);
    reflexivity.
Defined.

Lemma lastlog_after_failed_composition_witness :
  MashTask.safe resumed_task = true /\
  MashTask.resume resumed_task = true /\
  moves resumed_task = false /\
  update_comps_raises broken_env = None /\
  MashTask.repos resumed_task = ["f8-updates"] ++ "f8-updates-testing" :: [] /\
  Forall (composes broken_env) ["f8-updates"] /\
  ~ composes broken_env "f8-updates-testing" /\
  lastlog example_files (run broken_env (resumed_task, busy_masher, locked_world)).2.1.2
  = (Some (failed_output_of broken_env),
     if file_exists example_files (failed_output_of broken_env)
     then file_read example_files (failed_output_of broken_env)
     else "Previous mash log not available").
Proof.
  assert (Forall (composes broken_env) ["f8-updates"]) as H1.
  { constructor; [reflexivity|constructor]. }
  assert (~ composes broken_env "f8-updates-testing") as H2.
  { unfold composes. vm_compute. discriminate. }
  split; [reflexivity|]. split; [reflexivity|]. split; [reflexivity|].
  split; [reflexivity|]. split; [reflexivity|]. split; [exact H1|]. split; [exact H2|].
  apply (lastlog_after_failed_composition broken_env example_files resumed_task busy_masher
           locked_world ["f8-updates"] "f8-updates-testing" []);
    [reflexivity|left; reflexivity|discriminate|reflexivity|reflexivity|exact H1|exact H2].
Defined.

Lemma add_to_digest_keeps_partial_entries_witness :
  (List.length (builds foo_update) < List.length (two_part_template foo_update))%nat /\
  let r := add_to_digest two_part_template foo_update ∅ in
  r.1 = Raise IndexError /\
  (exists content,
     r.2 !! long_name (release foo_update) = Some content /\
     (forall b, b ∈ builds foo_update -> is_Some (content !! nvr b)) /\
     (forall k, k ∉ map nvr (builds foo_update) ->
        content !! k
        = default ∅ ((∅ : gmap string (gmap string string))
                     !! long_name (release foo_update)) !! k)) /\
  (forall prefix, prefix <> long_name (release foo_update) ->
     r.2 !! prefix = (∅ : gmap string (gmap string string)) !! prefix).
Proof.
  split; [vm_compute; lia|].
  apply (add_to_digest_keeps_partial_entries two_part_template foo_update ∅).
  vm_compute. lia.
Defined.

Lemma empty_template_still_mails_witness :
  empty_template foo_update = [] /\
  (∅ : gmap string (gmap string string)) !! long_name (release foo_update) = None /\
  let r := add_to_digest empty_template foo_update ∅ in
  r.1 = Ok tt /\
  r.2 !! long_name (release foo_update) = Some ∅ /\
  {| mail_from := "bodhi@example.org";
     mail_to := "test-announce@example.org";
     mail_subject := lower (long_name (release foo_update)) +:+ " updates-testing report";
     mail_body :=
       "The following builds have been pushed to " +:+ long_name (release foo_update)
       +:+ " updates-testing" +:+ nl +:+ nl +:+ nl +:+ "Details about builds:"
       +:+ nl +:+ nl |}
  ∈ send_digest_mail lower "bodhi@example.org" "test-announce@example.org" r.2.
Proof.
  split; [reflexivity|]. split; [reflexivity|].
  apply (empty_template_still_mails empty_template lower "bodhi@example.org"
           "test-announce@example.org" foo_update ∅); reflexivity.
Defined.

Lemma default_repos_accumulate_witness :
  MashTask_init_default example_env 0 [foo_update] false ([], idle_world)
  = (Ok first_default_task, first_default.2) /\
  MashTask_init_default example_env 1 [bar_update] false (first_default.2.1, idle_world)
  = (Ok second_default_task, second_default.2) /\
  MashTask.repos first_default_task = ["f8-updates-testing"] /\
  (forall r, r ∈ ([] : list string) -> r ∈ MashTask.repos first_default_task) /\
  (forall r, r ∈ MashTask.repos first_default_task ->
             r ∈ MashTask.repos second_default_task) /\
  first_default.2.1 = MashTask.repos first_default_task /\
  second_default.2.1 = MashTask.repos second_default_task.
Proof.
  split; [vm_compute; reflexivity|]. split; [vm_compute; reflexivity|].
  split; [vm_compute; reflexivity|].
  apply (default_repos_accumulate example_env 0 [foo_update] false 1 [bar_update] false []
           idle_world idle_world first_default_task second_default_task
           first_default.2 second_default.2); vm_compute; reflexivity.
Defined.
